(** * openbindings-go: canonical JSON and the schema compatibility profile

    A shallow embedding of the packages [canonicaljson] and [schemaprofile]
    of openbindings-go, and the properties their specification states.

    Go values of type [any] are embedded as [val]; a Go map is a reference,
    so [map[string]any] values live in a store and [val] holds their
    address.  Ranging over a Go map visits its keys in an unspecified order:
    a map's contents are an association list whose order stands for the
    order in which [range] visits the keys.  [float64] is Rocq's binary64
    [float].  Functions of the Go standard library that the packages call
    ([strconv], [net/url], [encoding/json]) are fields of [GoStdlib], over
    which the development is parametric. *)

From Stdlib Require Import List String Ascii ZArith NArith Bool Lia Floats.
From Stdlib Require Import Sorting.Permutation Sorting.Sorted.
Import ListNotations.
Open Scope list_scope.
Open Scope string_scope.

Set Implicit Arguments.
Set Warnings "-register-all,-inexact-float".

(** ** Strings, runes and UTF-16 *)

Module Str.

Definition bytes (s : string) : list ascii := list_ascii_of_string s.
Definition of_bytes (l : list ascii) : string := string_of_list_ascii l.

Definition byteN (c : ascii) : N := N_of_ascii c.

(* Go: a < b on strings compares byte-wise. *)
Definition lt (a b : string) : bool := String.ltb a b.

(* strings.HasPrefix *)
Definition HasPrefix (s p : string) : bool := String.prefix p s.

Fixpoint drop (n : nat) (s : string) : string :=
  match n, s with
  | O, _ => s
  | S n', String _ r => drop n' r
  | S _, EmptyString => EmptyString
  end.

(* strings.Contains *)
Fixpoint Contains (s sub : string) : bool :=
  String.prefix sub s ||
  match s with
  | EmptyString => false
  | String _ r => Contains r sub
  end.

(* strings.IndexByte *)
Fixpoint IndexByte (s : string) (c : ascii) : option nat :=
  match s with
  | EmptyString => None
  | String a r =>
      if Ascii.eqb a c then Some O
      else match IndexByte r c with Some i => Some (S i) | None => None end
  end.

(* strings.Split(s, sep) for a one-byte separator. *)
Fixpoint SplitByte (s : string) (sep : ascii) : list string :=
  match s with
  | EmptyString => [EmptyString]
  | String a r =>
      if Ascii.eqb a sep then EmptyString :: SplitByte r sep
      else match SplitByte r sep with
           | [] => [String a EmptyString]
           | h :: t => String a h :: t
           end
  end.

(* strings.ReplaceAll(s, old, new) where old is the two bytes [o1 o2]. *)
Fixpoint ReplaceAll2 (s : string) (o1 o2 : ascii) (new : string) : string :=
  match s with
  | String a (String b r as r1) =>
      if Ascii.eqb a o1 && Ascii.eqb b o2 then new ++ ReplaceAll2 r o1 o2 new
      else String a (ReplaceAll2 r1 o1 o2 new)
  | _ => s
  end.

Definition join (sep : string) (l : list string) : string := String.concat sep l.

(** [utf8.DecodeRune]: the runes of a string, each byte that does not start
    a well-formed encoding read as U+FFFD (what [[]rune(s)] and
    [for _, r := range s] do). *)
Definition RuneError : N := 65533%N.

Definition cont (b : N) : bool := ((128 <=? b) && (b <=? 191))%N.

Fixpoint runes_of (l : list ascii) : list N :=
  match l with
  | [] => []
  | c0 :: r0 =>
      let b0 := byteN c0 in
      if (b0 <? 128)%N then b0 :: runes_of r0
      else if ((194 <=? b0) && (b0 <=? 223))%N then
        match r0 with
        | c1 :: r1 =>
            let b1 := byteN c1 in
            if cont b1 then ((b0 - 192) * 64 + (b1 - 128))%N :: runes_of r1
            else RuneError :: runes_of r0
        | [] => RuneError :: runes_of r0
        end
      else if ((224 <=? b0) && (b0 <=? 239))%N then
        match r0 with
        | c1 :: (c2 :: r2) =>
            let b1 := byteN c1 in
            let b2 := byteN c2 in
            let lo := if (b0 =? 224)%N then 160%N else 128%N in
            let hi := if (b0 =? 237)%N then 159%N else 191%N in
            if ((lo <=? b1) && (b1 <=? hi))%N && cont b2
            then ((b0 - 224) * 4096 + (b1 - 128) * 64 + (b2 - 128))%N :: runes_of r2
            else RuneError :: runes_of r0
        | _ => RuneError :: runes_of r0
        end
      else if ((240 <=? b0) && (b0 <=? 244))%N then
        match r0 with
        | c1 :: (c2 :: (c3 :: r3)) =>
            let b1 := byteN c1 in
            let b2 := byteN c2 in
            let b3 := byteN c3 in
            let lo := if (b0 =? 240)%N then 144%N else 128%N in
            let hi := if (b0 =? 244)%N then 143%N else 191%N in
            if ((lo <=? b1) && (b1 <=? hi))%N && cont b2 && cont b3
            then ((b0 - 240) * 262144 + (b1 - 128) * 4096
                  + (b2 - 128) * 64 + (b3 - 128))%N :: runes_of r3
            else RuneError :: runes_of r0
        | _ => RuneError :: runes_of r0
        end
      else RuneError :: runes_of r0
  end.

Definition runes (s : string) : list N := runes_of (bytes s).

Definition byteA (n : N) : ascii := ascii_of_N n.

(** [utf8.AppendRune] *)
Definition encodeRune (r : N) : list ascii :=
  if (r <? 128)%N then [byteA r]
  else if (r <? 2048)%N then [byteA (192 + r / 64); byteA (128 + r mod 64)]
  else if ((r <? 65536) && negb ((55296 <=? r) && (r <=? 57343)))%N then
    [byteA (224 + r / 4096); byteA (128 + (r / 64) mod 64); byteA (128 + r mod 64)]
  else if ((65536 <=? r) && (r <=? 1114111))%N then
    [byteA (240 + r / 262144); byteA (128 + (r / 4096) mod 64);
     byteA (128 + (r / 64) mod 64); byteA (128 + r mod 64)]
  else [byteA 239; byteA 191; byteA 189].

(** [utf16.Encode] *)
Fixpoint utf16_Encode (rs : list N) : list N :=
  match rs with
  | [] => []
  | r :: t =>
      if ((r <? 55296) || ((57344 <=? r) && (r <? 65536)))%N then r :: utf16_Encode t
      else if ((65536 <=? r) && (r <=? 1114111))%N then
        (55296 + ((r - 65536) / 1024))%N :: (56320 + ((r - 65536) mod 1024))%N
          :: utf16_Encode t
      else RuneError :: utf16_Encode t
  end.

(** [unicode.IsSpace] *)
Definition IsSpace (r : N) : bool :=
  ((9 <=? r) && (r <=? 13) || (r =? 32) || (r =? 133) || (r =? 160)
   || (r =? 5760) || ((8192 <=? r) && (r <=? 8202)) || (r =? 8232)
   || (r =? 8233) || (r =? 8239) || (r =? 8287) || (r =? 12288))%N.

(* strings.TrimSpace(s) == "" *)
Definition blank (s : string) : bool := forallb IsSpace (runes s).

(* decimal digits of a natural number: fmt's %d *)
Definition digit (n : N) : ascii := ascii_of_N (48 + n).

Fixpoint decimal_fuel (fuel : nat) (n : N) (acc : string) : string :=
  match fuel with
  | O => acc
  | S f =>
      let acc' := String (digit (n mod 10)) acc in
      if (n <? 10)%N then acc' else decimal_fuel f (n / 10) acc'
  end.

Definition decimal (n : N) : string := decimal_fuel (S (N.to_nat (N.log2 n))) n "".

Definition decimalZ (z : Z) : string :=
  if (z <? 0)%Z then "-" ++ decimal (Z.abs_N z) else decimal (Z.abs_N z).

End Str.

(** ** Results and errors *)

(** The error values of package [schemaprofile]; an error made with
    [errors.New] or [fmt.Errorf] is [PlainError] with its message.  The
    wrapped [Err] of a [RefError] is kept as its message. *)
Inductive error : Type :=
| OutsideProfileError (Path Keyword : string)
| RefError (Path Ref Err : string)
| SchemaError (Path Message : string)
| PlainError (msg : string).

(** What a call returns: a value, an error, or [OutOfFuel] when the bound
    on the depth of recursion that the embedding adds was too small. *)
Inductive res (A : Type) : Type :=
| Ok (a : A)
| Fail (e : error)
| OutOfFuel.

Arguments Ok {A} a.
Arguments Fail {A} e.
Arguments OutOfFuel {A}.

Definition rbind {A B} (r : res A) (k : A -> res B) : res B :=
  match r with
  | Ok a => k a
  | Fail e => Fail e
  | OutOfFuel => OutOfFuel
  end.

Declare Scope res_scope.
Delimit Scope res_scope with res.
Notation "x <- c ;; k" := (rbind c (fun x => k))
  (at level 61, c at next level, right associativity) : res_scope.

(** ** Go values *)

Definition loc := nat.

(** The dynamic types a JSON-like [any] holds.  [VInt] stands for both
    [int] and [int64]; [VNumber] is [json.Number]. *)
Inductive val : Type :=
| VNil
| VBool (b : bool)
| VString (s : string)
| VFloat64 (f : float)
| VInt (z : Z)
| VNumber (s : string)
| VSlice (l : list val)
| VMap (l : loc).

(** The contents of a [map[string]any]. *)
Definition gomap := list (string * val).

Section Maps.
Variable V : Type.

(* v, ok := m[k] *)
Fixpoint mget (k : string) (m : list (string * V)) : option V :=
  match m with
  | [] => None
  | (k', v) :: r => if String.eqb k k' then Some v else mget k r
  end.

(* m[k] = v *)
Fixpoint mset (k : string) (v : V) (m : list (string * V)) : list (string * V) :=
  match m with
  | [] => [(k, v)]
  | (k', v') :: r =>
      if String.eqb k k' then (k, v) :: r else (k', v') :: mset k v r
  end.

(* delete(m, k) *)
Fixpoint mdel (k : string) (m : list (string * V)) : list (string * V) :=
  match m with
  | [] => []
  | (k', v') :: r => if String.eqb k k' then mdel k r else (k', v') :: mdel k r
  end.

Definition hasKey (m : list (string * V)) (key : string) : bool :=
  match mget key m with Some _ => true | None => false end.
End Maps.

(** A [map[string]struct{}] used as a set of strings. *)
Definition strset := list string.
Definition sin (s : string) (set : strset) : bool := existsb (String.eqb s) set.
Definition sadd (s : string) (set : strset) : strset :=
  if sin s set then set else (set ++ [s])%list.

(** [sort.Slice(x, less)].  For a strict total order on pairwise different
    elements every sorting algorithm gives the same slice; insertion sort
    stands for Go's. *)
Section Sort.
Variable A : Type.
Variable less : A -> A -> bool.

Fixpoint insert (x : A) (l : list A) : list A :=
  match l with
  | [] => [x]
  | y :: r => if less x y then x :: l else y :: insert x r
  end.

Definition sortSlice (l : list A) : list A := fold_right insert [] l.
End Sort.

(** ** Decoded JSON documents

    What [json.Decoder] with [UseNumber] builds: numbers are [json.Number]
    strings.  [JFloat] is the [float64] that [writeJCS] also accepts.  The
    order of an object's members is the order in which [range] visits them. *)
Inductive json : Type :=
| JNull
| JBool (b : bool)
| JString (s : string)
| JNumber (s : string)
| JFloat (f : float)
| JArr (l : list json)
| JObj (m : list (string * json)).

(** ** The Go standard library

    [strconv.ParseFloat(s, 64)] returns a float and an optional error;
    [strconv.FormatFloat(f, fmt, -1, 64)] the shortest digits that read back
    as [f]; [strconv.Quote] is what the verb [%q] prints; [url.Parse],
    [URL.String] and [URL.ResolveReference] are those of [net/url];
    [json_Decode] is one [Decode] of a [json.Decoder] with [UseNumber]: the
    first value of the input and the input left unread. *)
Record URL : Type := mkURL {
  Scheme : string;
  Host : string;
  UPath : string;
  RawQuery : string;
  Fragment : string
}.

(* func (u *URL) IsAbs() bool { return u.Scheme != "" } *)
Definition IsAbs (u : URL) : bool := negb (String.eqb (Scheme u) "").

Record GoStdlib : Type := {
  strconv_ParseFloat : string -> float * option string;
  strconv_FormatFloat : float -> ascii -> string;
  strconv_Quote : string -> string;
  url_Parse : string -> string + URL;
  url_String : URL -> string;
  url_ResolveReference : URL -> URL -> URL;
  json_Decode : string -> string + (json * string)
}.

(** ** Package canonicaljson *)

Section CanonicalJSON.
Variable go : GoStdlib.

Local Open Scope res_scope.

(* func lessUTF16(a, b []uint16) bool *)
Fixpoint lessUTF16 (a b : list N) : bool :=
  match a, b with
  | x :: a', y :: b' => if (x =? y)%N then lessUTF16 a' b' else (x <? y)%N
  | [], _ :: _ => true
  | _, [] => false
  end.

Definition dquote : ascii := ascii_of_N 34.

(* utf16.Encode([]rune(k)) *)
Definition utf16key (k : string) : list N := Str.utf16_Encode (Str.runes k).

Definition hexdigit (n : N) : ascii :=
  if (n <? 10)%N then ascii_of_N (48 + n) else ascii_of_N (87 + n).

Definition writeRune (r : N) : list ascii :=
  if (r =? 92)%N then ["\"; "\"]%char
  else if (r =? 34)%N then ["\"%char; dquote]
  else if (r =? 8)%N then ["\"; "b"]%char
  else if (r =? 9)%N then ["\"; "t"]%char
  else if (r =? 10)%N then ["\"; "n"]%char
  else if (r =? 12)%N then ["\"; "f"]%char
  else if (r =? 13)%N then ["\"; "r"]%char
  else if (r <=? 31)%N then
    ["\"; "u"; "0"; "0"; hexdigit (r / 16); hexdigit (r mod 16)]%char
  else Str.encodeRune r.

(* func writeJCSString(buf *bytes.Buffer, s string) *)
Definition writeJCSString (s : string) : string :=
  String dquote (Str.of_bytes (flat_map writeRune (Str.runes s)) ++ String dquote "").

Fixpoint trimZeros (exp : string) : string :=
  match exp with
  | String c (String _ _ as r) => if Ascii.eqb c "0" then trimZeros r else exp
  | _ => exp
  end.

(* func normalizeExponent(s string) string *)
Definition normalizeExponent (s : string) : string :=
  match Str.IndexByte s "e" with
  | None => s
  | Some i =>
      if (String.length s <=? i + 2)%nat then s
      else match String.get (i + 1) s with
           | Some sign =>
               String.substring 0 (i + 1) s
                 ++ Str.of_bytes (Str.encodeRune (Str.byteN sign))
                 ++ trimZeros (Str.drop (i + 2) s)
           | None => s
           end
  end.

Definition nonFinite (f : float) : bool := is_nan f || is_infinity f.

(* func formatJCSFloat64(f float64) (string, error) *)
Definition formatJCSFloat64 (f : float) : res string :=
  if nonFinite f then Fail (PlainError "invalid JSON number: NaN or Infinity")
  else if (f =? 0)%float then Ok "0"
  else
    let a := abs f in
    let s :=
      if (1e21 <=? a)%float || (a <? 1e-6)%float
      then normalizeExponent (strconv_FormatFloat go f "e")
      else strconv_FormatFloat go f "f" in
    if String.eqb s "-0" then Ok "0" else Ok s.

(* func formatJCSNumber(s string) (string, error) *)
Definition formatJCSNumber (s : string) : res string :=
  match strconv_ParseFloat go s with
  | (f, None) => formatJCSFloat64 f
  | (_, Some e) => Fail (PlainError e)
  end.

(** The members of an object, in the order of [sort.Slice] with
    [lessUTF16] on the keys' UTF-16 code units. *)
Definition sortedKeys (A : Type) (m : list (string * A)) : list string :=
  map fst
    (sortSlice (fun a b => lessUTF16 (snd a) (snd b))
               (map (fun kv => (fst kv, utf16key (fst kv))) m)).

(** The loop over the sorted keys: [written] holds what [writeJCS] gives
    for each member's value, looked up by key as [x[entry.k]] is; the first
    failure in key order ends the loop. *)
Fixpoint writeMembers (written : list (string * res string)) (keys : list string)
  : res (list string) :=
  match keys with
  | [] => Ok []
  | k :: ks =>
      s <- match mget k written with
           | Some r => r
           | None => Ok "null"
           end ;;
      rest <- writeMembers written ks ;;
      Ok ((writeJCSString k ++ ":" ++ s) :: rest)
  end.

(* func writeJCS(buf *bytes.Buffer, v any) error *)
Fixpoint writeJCS (v : json) : res string :=
  match v with
  | JNull => Ok "null"
  | JBool b => Ok (if b then "true" else "false")
  | JString s => Ok (writeJCSString s)
  | JNumber s => formatJCSNumber s
  | JFloat f => formatJCSFloat64 f
  | JArr l =>
      items <- (fix items (l : list json) : res (list string) :=
                  match l with
                  | [] => Ok []
                  | x :: r => s <- writeJCS x ;; ss <- items r ;; Ok (s :: ss)
                  end) l ;;
      Ok ("[" ++ Str.join "," items ++ "]")
  | JObj m =>
      let written :=
        (fix members (m : list (string * json)) : list (string * res string) :=
           match m with
           | [] => []
           | (k, x) :: r => (k, writeJCS x) :: members r
           end) m in
      ms <- writeMembers written (sortedKeys m) ;;
      Ok ("{" ++ Str.join "," ms ++ "}")
  end.

(** [Marshal], from the value [anyVal] that its decoder built: the call of
    [writeJCS] on it.  The two ways to that value are [MarshalRaw] (a
    [json.RawMessage] or [[]byte], decoded as it is) and, for any other Go
    value, [reencode] below ([json.Marshal], then the same decoder). *)
Definition Marshal (doc : json) : res string := writeJCS doc.

(** [Marshal] of a [json.RawMessage]: one value is decoded, then a second
    [Decode] must report [io.EOF]. *)
Definition MarshalRaw (b : string) : res string :=
  match json_Decode go b with
  | inl e => Fail (PlainError e)
  | inr (anyVal, rest) =>
      match json_Decode go rest with
      | inr _ => Fail (PlainError "invalid JSON: trailing data")
      | inl e => if String.eqb e "EOF" then Marshal anyVal else Fail (PlainError e)
      end
  end.

End CanonicalJSON.

(** ** The store of Go maps *)

(** [heap]: the contents of every map allocated so far, by address.
    [refStack]: the field [Normalizer.refStack], the keys set to [true]. *)
Record state : Type := mkState {
  heap : list gomap;
  refStack : strset
}.

Definition M (A : Type) : Type := state -> res A * state.

Definition ret {A} (a : A) : M A := fun s => (Ok a, s).
Definition raise {A} (e : error) : M A := fun s => (Fail e, s).
Definition outOfFuel {A} : M A := fun s => (OutOfFuel, s).

Definition bind {A B} (c : M A) (k : A -> M B) : M B :=
  fun s =>
    match c s with
    | (Ok a, s') => k a s'
    | (Fail e, s') => (Fail e, s')
    | (OutOfFuel, s') => (OutOfFuel, s')
    end.

Definition lift {A} (r : res A) : M A := fun s => (r, s).

(** [defer cleanup()]: the cleanup runs when the body returns, whatever it
    returns. *)
Definition defer {A} (cleanup : state -> state) (body : M A) : M A :=
  fun s => let (r, s') := body s in (r, cleanup s').

Declare Scope go_scope.
Delimit Scope go_scope with go.
Notation "x <~ c ;; k" := (bind c (fun x => k))
  (at level 61, c at next level, right associativity) : go_scope.
Notation "c ;;; k" := (bind c (fun _ => k))
  (at level 61, right associativity) : go_scope.

Section Store.
Local Open Scope go_scope.

Definition contents (h : list gomap) (l : loc) : gomap := nth l h [].

Fixpoint update (h : list gomap) (l : loc) (m : gomap) : list gomap :=
  match h, l with
  | [], _ => []
  | _ :: r, O => m :: r
  | x :: r, S l' => x :: update r l' m
  end.

(* make(map[string]any), filled with m *)
Definition alloc (m : gomap) : M loc :=
  fun s => (Ok (List.length (heap s)),
            mkState (heap s ++ [m])%list (refStack s)).

Definition load (l : loc) : M gomap := fun s => (Ok (contents (heap s) l), s).

Definition keysOf (l : loc) : M (list string) :=
  fun s => (Ok (map fst (contents (heap s) l)), s).

(* v, ok := m[k] *)
Definition mapGet (l : loc) (k : string) : M (option val) :=
  fun s => (Ok (mget k (contents (heap s) l)), s).

(* m[k] = v *)
Definition mapSet (l : loc) (k : string) (v : val) : M unit :=
  fun s => (Ok tt, mkState (update (heap s) l (mset k v (contents (heap s) l)))
                           (refStack s)).

Definition getHeap : M (list gomap) := fun s => (Ok (heap s), s).

Definition inStack (key : string) : M bool := fun s => (Ok (sin key (refStack s)), s).

Definition push (key : string) : M unit :=
  fun s => (Ok tt, mkState (heap s) (sadd key (refStack s))).

(* delete(n.refStack, key) *)
Definition pop (key : string) (s : state) : state :=
  mkState (heap s) (filter (fun k => negb (String.eqb k key)) (refStack s)).

Definition cleanup (key : string) : M unit := fun s => (Ok tt, pop key s).

(** [for k, v := range m] over the map at [l]: the keys present when the
    loop starts, each with the value it has when it is reached. *)
Fixpoint rangeKeys (l : loc) (keys : list string) (body : string -> val -> M unit)
  : M unit :=
  match keys with
  | [] => ret tt
  | k :: ks =>
      v <~ mapGet l k ;;
      match v with
      | Some x => body k x
      | None => ret tt
      end ;;;
      rangeKeys l ks body
  end.

Definition range (l : loc) (body : string -> val -> M unit) : M unit :=
  keys <~ keysOf l ;; rangeKeys l keys body.

(* func asMap(v any) (map[string]any, bool) *)
Definition asMap (v : val) : option loc :=
  match v with VMap l => Some l | _ => None end.

(* func asSlice(v any) ([]any, bool) *)
Definition asSlice (v : val) : option (list val) :=
  match v with VSlice l => Some l | _ => None end.

(* func cloneMap(in map[string]any) map[string]any *)
Definition cloneMap (l : loc) : M loc := m <~ load l ;; alloc m.

End Store.

(** ** Package schemaprofile *)

Section Schemaprofile.
Variable go : GoStdlib.

Local Open Scope go_scope.
Local Open Scope res_scope.

(** *** What [canonicaljson.Marshal] does before [writeJCS]

    [json.Marshal(v)] followed by [Decode] with [UseNumber], after
    encoding/json: map keys are written in byte order, a [float64] as
    [strconv] prints it, a number as its digits; the decoder reads every
    number back as a [json.Number] and keeps the last of equal keys. *)
Definition isDigit (c : ascii) : bool :=
  ((48 <=? N_of_ascii c) && (N_of_ascii c <=? 57))%N.

Fixpoint skipDigits (l : list ascii) : list ascii :=
  match l with
  | c :: r => if isDigit c then skipDigits r else l
  | [] => []
  end.

(* encoding/json: func isValidNumber(s string) bool *)
Definition isValidNumber (s : string) : bool :=
  let l0 := Str.bytes s in
  let l1 := match l0 with "-"%char :: r => r | _ => l0 end in
  match l1 with
  | [] => false
  | c :: r =>
      if isDigit c then
        let l2 := if Ascii.eqb c "0" then r else skipDigits r in
        let l3 := match l2 with
                  | "."%char :: d :: r' => if isDigit d then skipDigits r' else l2
                  | _ => l2
                  end in
        match l3 with
        | e :: x :: r' =>
            if Ascii.eqb e "e" || Ascii.eqb e "E" then
              if Ascii.eqb x "+" || Ascii.eqb x "-" then
                match r' with
                | [] => false
                | _ => match skipDigits r' with [] => true | _ => false end
                end
              else match skipDigits (x :: r') with [] => true | _ => false end
            else false
        | [] => true
        | _ => false
        end
      else false
  end.

(* encoding/json floatEncoder: clean up e-09 to e-9 *)
Definition cleanExp (s : string) : string :=
  match rev (Str.bytes s) with
  | d :: z :: sg :: e :: r =>
      if Ascii.eqb e "e" && (Ascii.eqb sg "-" || Ascii.eqb sg "+") && Ascii.eqb z "0"
      then Str.of_bytes (rev (d :: sg :: e :: r))
      else s
  | _ => s
  end.

Definition json_float (f : float) : string :=
  let a := abs f in
  if negb (a =? 0)%float && ((a <? 1e-6)%float || (1e21 <=? a)%float)
  then cleanExp (strconv_FormatFloat go f "e")
  else strconv_FormatFloat go f "f".

(* invalid UTF-8 is written as U+FFFD *)
Definition toValidUTF8 (s : string) : string :=
  Str.of_bytes (flat_map Str.encodeRune (Str.runes s)).

Definition unsupported : error := PlainError "json: unsupported value".

Fixpoint reencode (fuel : nat) (h : list gomap) {struct fuel} : val -> res json :=
  fix enc (v : val) : res json :=
    match v with
    | VNil => Ok JNull
    | VBool b => Ok (JBool b)
    | VString s => Ok (JString (toValidUTF8 s))
    | VFloat64 f => if nonFinite f then Fail unsupported else Ok (JNumber (json_float f))
    | VInt z => Ok (JNumber (Str.decimalZ z))
    | VNumber s =>
        let s' := if String.eqb s "" then "0" else s in
        if isValidNumber s' then Ok (JNumber s')
        else Fail (PlainError "json: invalid number literal")
    | VSlice l =>
        items <- (fix items (l : list val) : res (list json) :=
                    match l with
                    | [] => Ok []
                    | x :: r => j <- enc x ;; js <- items r ;; Ok (j :: js)
                    end) l ;;
        Ok (JArr items)
    | VMap a =>
        match fuel with
        | O => Fail unsupported
        | S fuel' =>
            ms <- (fix members (es : gomap) : res (list (string * json)) :=
                     match es with
                     | [] => Ok []
                     | (k, x) :: r =>
                         j <- reencode fuel' h x ;;
                         js <- members r ;;
                         Ok ((toValidUTF8 k, j) :: js)
                     end)
                  (sortSlice (fun a b => Str.lt (fst a) (fst b)) (contents h a)) ;;
            Ok (JObj (fold_left (fun m kv => mset (fst kv) (snd kv) m) ms []))
        end
    end.

(* func CanonicalString(v any) (string, error) *)
Definition CanonicalString (h : list gomap) (v : val) : res string :=
  doc <- reencode (List.length h) h v ;; Marshal go doc.

(* func canonicalKey(v any) string *)
Definition canonicalKey (h : list gomap) (v : val) : string :=
  match CanonicalString h v with
  | Ok s => s
  | _ => "<unserializable>"
  end.

(* func equalJSONValue(a, b any) bool *)
Definition equalJSONValue (h : list gomap) (a b : val) : bool :=
  String.eqb (canonicalKey h a) (canonicalKey h b).

(** *** Keywords of the profile *)
Definition inScopeKeywords : strset :=
  ["$ref"; "$defs"; "allOf"; "type"; "enum"; "const"; "properties"; "required";
   "additionalProperties"; "items"; "oneOf"; "anyOf"; "minimum"; "maximum";
   "exclusiveMinimum"; "exclusiveMaximum"; "minLength"; "maxLength";
   "minItems"; "maxItems"].

Definition annotationKeywords : strset :=
  ["title"; "description"; "examples"; "default"; "deprecated"; "readOnly";
   "writeOnly"; "$schema"].

(* func pathOrRoot(path string) string *)
Definition pathOrRoot (path : string) : string :=
  if String.eqb path "" then "<root>" else path.

(* func assertProfileKeywords(schema map[string]any, path string) error *)
Fixpoint assertProfileKeywords (schema : gomap) (path : string) : res unit :=
  match schema with
  | [] => Ok tt
  | (k, _) :: r =>
      if sin k inScopeKeywords then assertProfileKeywords r path
      else if sin k annotationKeywords then assertProfileKeywords r path
      else Fail (OutsideProfileError (pathOrRoot path) k)
  end.

(** The loop that fills [set] from a slice, [bad] being the error for an
    item that is not a non-blank string. *)
Fixpoint collectStrings (bad : string) (x : list val) (set : strset) : res strset :=
  match x with
  | [] => Ok set
  | VString s :: r =>
      if Str.blank s then Fail (PlainError bad) else collectStrings bad r (sadd s set)
  | _ :: _ => Fail (PlainError bad)
  end.

(* out from the set, then sort.Slice with < on strings *)
Definition sortedStrings (set : strset) : list val :=
  map VString (sortSlice Str.lt set).

(* func normalizeType(v any) ([]any, error) *)
Definition normalizeType (v : val) : res (list val) :=
  match v with
  | VString x =>
      if Str.blank x then Fail (PlainError "must not be empty") else Ok [VString x]
  | VSlice x =>
      set <- collectStrings "must be array of non-empty strings" x [] ;;
      Ok (sortedStrings set)
  | _ => Fail (PlainError "must be string or array of strings")
  end.

(* func normalizeStringSet(v any) ([]any, error) *)
Definition normalizeStringSet (v : val) : res (list val) :=
  match asSlice v with
  | None => Fail (PlainError "must be array")
  | Some arr =>
      set <- collectStrings "must contain only non-empty strings" arr [] ;;
      Ok (sortedStrings set)
  end.

(* func ptrJoin(prefix, next string) string *)
Definition ptrJoin (prefix next : string) : string :=
  if String.eqb prefix "" then next
  else if String.eqb next "" then prefix
  else if Str.HasPrefix next "[" || Str.HasPrefix next "." then prefix ++ next
  else prefix ++ "." ++ next.

(* float64(x) for an integer x *)
Definition float64_of_int (z : Z) : float :=
  SF2Prim (binary_normalize prec emax z 0 false).

(* func toFloat64(v any) float64 *)
Definition toFloat64 (v : val) : float :=
  match v with
  | VFloat64 x => x
  | VInt x => float64_of_int x
  | VNumber x => fst (strconv_ParseFloat go x)
  | _ => 0%float
  end.

(** *** Errors as text: the [Error] methods *)
Definition errorString (e : error) : string :=
  match e with
  | OutsideProfileError p k =>
      if String.eqb p "" then "outside profile: keyword " ++ strconv_Quote go k
      else "outside profile at " ++ p ++ ": keyword " ++ strconv_Quote go k
  | RefError p r c =>
      if String.eqb p "" then "$ref " ++ strconv_Quote go r ++ ": " ++ c
      else p ++ ".$ref " ++ strconv_Quote go r ++ ": " ++ c
  | SchemaError p m =>
      if String.eqb p "" then "schema error: " ++ m
      else "schema error at " ++ p ++ ": " ++ m
  | PlainError m => m
  end.

(* fmt.Errorf(prefix + "%w", err) *)
Definition wrap {A} (prefix : string) (r : res A) : res A :=
  match r with
  | Fail e => Fail (PlainError (prefix ++ errorString e))
  | _ => r
  end.

(** [strconv.Atoi]: an optional sign and decimal digits, within [int]. *)
Fixpoint digitsValue (l : list ascii) (acc : Z) : option Z :=
  match l with
  | [] => Some acc
  | c :: r =>
      if isDigit c then digitsValue r (acc * 10 + Z.of_N (N_of_ascii c) - 48)%Z
      else None
  end.

Definition Atoi (s : string) : option Z :=
  let signed (neg : bool) (l : list ascii) :=
    match l with
    | [] => None
    | _ => match digitsValue l 0 with
           | Some z =>
               let z' := if neg then (- z)%Z else z in
               if ((- 2 ^ 63 <=? z') && (z' <? 2 ^ 63))%Z then Some z' else None
           | None => None
           end
    end in
  match Str.bytes s with
  | "+"%char :: r => signed false r
  | "-"%char :: r => signed true r
  | l => signed false l
  end.

(** The loop of [resolveJSONPointer] over the tokens. *)
Fixpoint walkPointer (h : list gomap) (cur : val) (toks : list string) : res val :=
  match toks with
  | [] => Ok cur
  | tok0 :: rest =>
      let tok := Str.ReplaceAll2 (Str.ReplaceAll2 tok0 "~" "1" "/") "~" "0" "~" in
      match cur with
      | VMap l =>
          match mget tok (contents h l) with
          | None => Fail (PlainError ("pointer not found: " ++ strconv_Quote go tok))
          | Some nxt => walkPointer h nxt rest
          end
      | VSlice x =>
          if String.eqb tok "-"
          then Fail (PlainError "pointer '-' is not valid for array lookup")
          else
            let oob := PlainError ("array index out of range: " ++ strconv_Quote go tok) in
            match Atoi tok with
            | Some idx =>
                if ((idx <? 0) || (Z.of_nat (List.length x) <=? idx))%Z then Fail oob
                else match nth_error x (Z.to_nat idx) with
                     | Some v => walkPointer h v rest
                     | None => Fail oob
                     end
            | None => Fail oob
            end
      | _ => Fail (PlainError "pointer traversed non-container")
      end
  end.

(* func resolveJSONPointer(doc any, fragment string) (any, error) *)
Definition resolveJSONPointer (h : list gomap) (doc : val) (fragment : string)
  : res val :=
  if String.eqb fragment "" then Ok doc
  else if negb (Str.HasPrefix fragment "/")
  then Fail (PlainError "unsupported fragment (must be JSON Pointer)")
  else walkPointer h doc (tl (Str.SplitByte fragment "/")).

(* func decodeJSON(b []byte) (any, error) *)
Definition decodeJSON (b : string) : res json :=
  match json_Decode go b with
  | inl e => Fail (PlainError e)
  | inr (v, rest) =>
      match json_Decode go rest with
      | inr _ => Fail (PlainError "invalid JSON: trailing data")
      | inl _ => Ok v
      end
  end.

(** The decoded document as Go values: every object is a new map. *)
Fixpoint allocJSON (j : json) : M val :=
  match j with
  | JNull => ret VNil
  | JBool b => ret (VBool b)
  | JString s => ret (VString s)
  | JNumber s => ret (VNumber s)
  | JFloat f => ret (VFloat64 f)
  | JArr l =>
      (items <~ (fix items (l : list json) : M (list val) :=
                   match l with
                   | [] => ret []
                   | x :: r => v <~ allocJSON x ;; vs <~ items r ;; ret (v :: vs)
                   end) l ;;
       ret (VSlice items))%go
  | JObj m =>
      (ms <~ (fix members (m : list (string * json)) : M gomap :=
                match m with
                | [] => ret []
                | (k, x) :: r => v <~ allocJSON x ;; vs <~ members r ;; ret ((k, v) :: vs)
                end) m ;;
       a <~ alloc (fold_left (fun acc kv => mset (fst kv) (snd kv) acc) ms []) ;;
       ret (VMap a))%go
  end.

(** *** The normalizer *)

(** [Fetch] is the [Fetcher]'s method: the bytes at a URL, or an error. *)
Record Normalizer : Type := {
  Root : val;
  Base : option URL;
  Fetch : option (URL -> string + string)
}.

Definition refError (path ref cause : string) : error :=
  RefError (pathOrRoot path) ref cause.

(* if !u.IsAbs() && u.Path != "": resolve against the base, if there is one *)
Definition againstBase (n : Normalizer) (u : URL) : option URL :=
  if negb (IsAbs u) && negb (String.eqb (UPath u) "") then
    match Base n with
    | None => None
    | Some b => Some (url_ResolveReference go b u)
    end
  else Some u.

(* u.Scheme == "" && u.Path == "" && (u.Fragment != "" || strings.HasPrefix(ref, "#")) *)
Definition fragmentOnly (u : URL) (ref : string) : bool :=
  String.eqb (Scheme u) "" && String.eqb (UPath u) ""
  && (negb (String.eqb (Fragment u) "") || Str.HasPrefix ref "#").

(** The document a reference points into; on failure the reference is
    taken off the stack first. *)
Definition refDocument (n : Normalizer) (u : URL) (ref path key : string) : M val :=
  (if fragmentOnly u ref then ret (Root n)
   else
     match Fetch n with
     | None =>
         cleanup key ;;;
         raise (refError path ref "external $ref unsupported (no fetcher)")
     | Some fetch =>
         match fetch u with
         | inl e => cleanup key ;;; raise (refError path ref e)
         | inr fetched =>
             match decodeJSON fetched with
             | Ok doc => allocJSON doc
             | Fail e => cleanup key ;;; raise (refError path ref (errorString e))
             | OutOfFuel => outOfFuel
             end
         end
     end)%go.

(** [resolveRef]: the resolved value and the key that the returned cleanup
    deletes from [refStack]. *)
Definition resolveRef (n : Normalizer) (ref path : string) : M (val * string) :=
  match url_Parse go ref with
  | inl e => raise (refError path ref e)
  | inr u0 =>
      match againstBase n u0 with
      | None => raise (refError path ref "relative $ref with no base")
      | Some u =>
          let key := url_String go u in
          (cyclic <~ inStack key ;;
           if (cyclic : bool) then raise (refError path ref "cycle detected")
           else
             push key ;;;
             doc <~ refDocument n u ref path key ;;
             h <~ getHeap ;;
             match resolveJSONPointer h doc (Fragment u) with
             | Ok v => ret (v, key)
             | Fail e => cleanup key ;;; raise (refError path ref (errorString e))
             | OutOfFuel => outOfFuel
             end)%go
      end
  end.

(** *** Flattening [allOf] *)

(** The strings of a slice, as a set. *)
Fixpoint stringsOf (a : list val) (set : strset) : strset :=
  match a with
  | [] => set
  | VString s :: r => stringsOf r (sadd s set)
  | _ :: r => stringsOf r set
  end.

Definition isNumeric (s : string) : bool :=
  String.eqb s "number" || String.eqb s "integer".

(* func intersectTypeSlices(a, b []any) []any *)
Definition intersectTypeSlices (a b : list val) : list val :=
  let aSet := stringsOf a [] in
  let bSet := stringsOf b [] in
  let result := filter (fun s => negb (isNumeric s) && sin s bSet) aSet in
  let aNum := sin "number" aSet in
  let bNum := sin "number" bSet in
  let aInt := sin "integer" aSet in
  let bInt := sin "integer" bSet in
  let aAcceptsNumbers := aNum || aInt in
  let bAcceptsNumbers := bNum || bInt in
  let result :=
    if aAcceptsNumbers && bAcceptsNumbers then
      if aNum && bNum then sadd "number" result else sadd "integer" result
    else result in
  sortedStrings result.

(* func unionStringSlices(a, b []any) []any *)
Definition unionStringSlices (a b : list val) : list val :=
  sortedStrings (stringsOf b (stringsOf a [])).

(* func intersectValues(a, b []any) []any *)
Definition intersectValues (h : list gomap) (a b : list val) : list val :=
  let bSet := fold_left (fun set v => sadd (canonicalKey h v) set) b [] in
  filter (fun v => sin (canonicalKey h v) bSet) a.

Definition dq : string := String dquote "".

Definition mapOrNew (v : option val) : M loc :=
  match v with
  | Some (VMap l) => ret l
  | _ => alloc []
  end.

Section MergeSteps.
(** The recursive call of [mergeAllOfBranch]. *)
Variable merge : loc -> loc -> string -> M unit.
Variables acc branch : loc.
Variable path : string.

Local Open Scope go_scope.

(* type: intersection *)
Definition mergeType : M unit :=
  bt <~ mapGet branch "type" ;;
  match bt with
  | None => ret tt
  | Some bt =>
      bTypes <~ lift (wrap (path ++ ".type: ") (normalizeType bt)) ;;
      at_ <~ mapGet acc "type" ;;
      match at_ with
      | Some at_ =>
          aTypes <~ lift (wrap (path ++ ".type: ") (normalizeType at_)) ;;
          let inter := intersectTypeSlices aTypes bTypes in
          if (List.length inter =? 0)%nat
          then raise (SchemaError path "allOf type intersection is empty")
          else mapSet acc "type" (VSlice inter)
      | None => mapSet acc "type" (VSlice bTypes)
      end
  end.

(* properties: union, recursive merge for overlapping keys *)
Definition mergeProperties : M unit :=
  bp <~ mapGet branch "properties" ;;
  match bp with
  | None => ret tt
  | Some bp =>
      match asMap bp with
      | None => raise (PlainError (path ++ ".properties: must be object"))
      | Some bProps =>
          ap <~ mapGet acc "properties" ;;
          aProps <~ mapOrNew ap ;;
          range bProps (fun k bv =>
            av <~ mapGet aProps k ;;
            match av with
            | Some av =>
                avm <~ mapOrNew (Some av) ;;
                bvm <~ mapOrNew (Some bv) ;;
                merged <~ cloneMap avm ;;
                merge merged bvm (path ++ ".properties[" ++ dq ++ k ++ dq ++ "]") ;;;
                mapSet aProps k (VMap merged)
            | None => mapSet aProps k bv
            end) ;;;
          mapSet acc "properties" (VMap aProps)
      end
  end.

(* required: union *)
Definition mergeRequired : M unit :=
  br <~ mapGet branch "required" ;;
  match br with
  | None => ret tt
  | Some br =>
      bReq <~ lift (wrap (path ++ ".required: ") (normalizeStringSet br)) ;;
      ar <~ mapGet acc "required" ;;
      match ar with
      | Some ar =>
          aReq <~ lift (wrap (path ++ ".required: ") (normalizeStringSet ar)) ;;
          mapSet acc "required" (VSlice (unionStringSlices aReq bReq))
      | None => mapSet acc "required" (VSlice bReq)
      end
  end.

(* additionalProperties: false wins; schemas merge recursively *)
Definition mergeAdditionalProperties : M unit :=
  bap <~ mapGet branch "additionalProperties" ;;
  match bap with
  | Some (VBool bv) =>
      if negb bv then mapSet acc "additionalProperties" (VBool false)
      else
        aap <~ mapGet acc "additionalProperties" ;;
        match aap with
        | None => mapSet acc "additionalProperties" (VBool true)
        | Some _ => ret tt
        end
  | Some (VMap bv) =>
      aap <~ mapGet acc "additionalProperties" ;;
      match aap with
      | Some (VBool av) =>
          if negb av then ret tt
          else mapSet acc "additionalProperties" (VMap bv)
      | Some (VMap av) =>
          merged <~ cloneMap av ;;
          merge merged bv (path ++ ".additionalProperties") ;;;
          mapSet acc "additionalProperties" (VMap merged)
      | Some _ => ret tt
      | None => mapSet acc "additionalProperties" (VMap bv)
      end
  | _ => ret tt
  end.

(* enum: intersection *)
Definition mergeEnum : M unit :=
  be <~ mapGet branch "enum" ;;
  match be with
  | None => ret tt
  | Some be =>
      match asSlice be with
      | None => raise (PlainError (path ++ ".enum: must be array"))
      | Some bEnum =>
          ae <~ mapGet acc "enum" ;;
          match ae with
          | Some ae =>
              let aEnum := match asSlice ae with Some l => l | None => [] end in
              h <~ getHeap ;;
              let inter := intersectValues h aEnum bEnum in
              if (List.length inter =? 0)%nat
              then raise (SchemaError path "allOf enum intersection is empty")
              else mapSet acc "enum" (VSlice inter)
          | None => mapSet acc "enum" (VSlice bEnum)
          end
      end
  end.

Definition mergeConst : M unit :=
  bc <~ mapGet branch "const" ;;
  match bc with
  | None => ret tt
  | Some bc =>
      ac <~ mapGet acc "const" ;;
      match ac with
      | Some ac =>
          h <~ getHeap ;;
          if negb (String.eqb (canonicalKey h ac) (canonicalKey h bc))
          then raise (SchemaError path "allOf const conflict")
          else ret tt
      | None => mapSet acc "const" bc
      end
  end.

(* items: recursive merge *)
Definition mergeItems : M unit :=
  bi <~ mapGet branch "items" ;;
  match bi with
  | None => ret tt
  | Some bi =>
      match asMap bi with
      | None => raise (PlainError (path ++ ".items: must be object"))
      | Some bItems =>
          ai <~ mapGet acc "items" ;;
          match ai with
          | Some ai =>
              aItems <~ mapOrNew (Some ai) ;;
              merged <~ cloneMap aItems ;;
              merge merged bItems (path ++ ".items") ;;;
              mapSet acc "items" (VMap merged)
          | None => mapSet acc "items" (VMap bItems)
          end
      end
  end.

(** One round of a bounds loop: [wins bf af] says that the branch's
    bound replaces the accumulator's. *)
Definition mergeBound (wins : float -> float -> bool) (k : string) : M unit :=
  bv <~ mapGet branch k ;;
  match bv with
  | None => ret tt
  | Some bv =>
      let bf := toFloat64 bv in
      av <~ mapGet acc k ;;
      match av with
      | Some av =>
          let af := toFloat64 av in
          if wins bf af then mapSet acc k bv else ret tt
      | None => mapSet acc k bv
      end
  end.

Fixpoint mergeBounds (wins : float -> float -> bool) (ks : list string) : M unit :=
  match ks with
  | [] => ret tt
  | k :: r => mergeBound wins k ;;; mergeBounds wins r
  end.

Definition mergeSteps : M unit :=
  mergeType ;;;
  mergeProperties ;;;
  mergeRequired ;;;
  mergeAdditionalProperties ;;;
  mergeEnum ;;;
  mergeConst ;;;
  mergeItems ;;;
  (* Lower bounds: take the highest *)
  mergeBounds (fun bf af => (af <? bf)%float)
    ["minimum"; "exclusiveMinimum"; "minLength"; "minItems"] ;;;
  (* Upper bounds: take the lowest *)
  mergeBounds (fun bf af => (bf <? af)%float)
    ["maximum"; "exclusiveMaximum"; "maxLength"; "maxItems"].
End MergeSteps.

(* func mergeAllOfBranch(acc, branch map[string]any, path string) error *)
Fixpoint mergeAllOfBranch (fuel : nat) (acc branch : loc) (path : string) : M unit :=
  match fuel with
  | O => outOfFuel
  | S fuel' => mergeSteps (mergeAllOfBranch fuel') acc branch path
  end.

Local Open Scope go_scope.

(** A loop that builds a value: [for i, x := range l]. *)
Fixpoint foldRange {A B} (body : B -> nat -> A -> M B) (idx : nat) (l : list A) (b : B)
  : M B :=
  match l with
  | [] => ret b
  | x :: r => b' <~ body b idx x ;; foldRange body (S idx) r b'
  end.

(* ref, ok := schema["$ref"].(string); ok && strings.TrimSpace(ref) != "" *)
Definition refOf (schema : gomap) : option string :=
  match mget "$ref" schema with
  | Some (VString ref) => if Str.blank ref then None else Some ref
  | _ => None
  end.

Definition index (name : string) (idx : nat) : string :=
  name ++ "[" ++ Str.decimal (N.of_nat idx) ++ "]".

(** The body of the loop of [flattenAllOf] over the branches. *)
Definition flattenBranch (fuel : nat) (n : Normalizer) (path : string) (merged : loc)
    (idx : nat) (item : val) : M loc :=
  match asMap item with
  | None =>
      raise (PlainError (pathOrRoot path ++ "." ++ index "allOf" idx ++ ": must be object"))
  | Some branch =>
      let branchPath := ptrJoin path (index "allOf" idx) in
      b <~ load branch ;;
      lift (assertProfileKeywords b branchPath) ;;;
      if hasKey b "oneOf"
      then raise (OutsideProfileError branchPath "oneOf inside allOf")
      else if hasKey b "anyOf"
      then raise (OutsideProfileError branchPath "anyOf inside allOf")
      else
        branch' <~ match refOf b with
                   | Some ref =>
                       r <~ resolveRef n ref branchPath ;;
                       cleanup (snd r) ;;;
                       match asMap (fst r) with
                       | Some rm => ret rm
                       | None =>
                           raise (RefError branchPath ref "resolved $ref is not an object")
                       end
                   | None => ret branch
                   end ;;
        mergeAllOfBranch fuel merged branch' branchPath ;;;
        ret merged
  end.

(* func (n *Normalizer) flattenAllOf(allOf any, path string) (map[string]any, error) *)
Definition flattenAllOf (fuel : nat) (n : Normalizer) (allOf : val) (path : string)
  : M loc :=
  match asSlice allOf with
  | None => raise (PlainError (pathOrRoot path ++ ".allOf: must be array"))
  | Some arr =>
      if (List.length arr =? 0)%nat then alloc []
      else
        merged <~ alloc [] ;;
        foldRange (flattenBranch fuel n path) 0 arr merged
  end.

Definition stripped (schema : gomap) : gomap :=
  filter (fun kv => negb (sin (fst kv) annotationKeywords)
                    && negb (String.eqb (fst kv) "$defs")) schema.

Section NormalizeSteps.
(** The recursive call of [normalizeAt]. *)
Variable normalize : option loc -> string -> M loc.
Variable path : string.

(* Normalize type *)
Definition normType (out : gomap) : M gomap :=
  match mget "type" out with
  | Some t =>
      types <~ lift (wrap (pathOrRoot path ++ ".type: ") (normalizeType t)) ;;
      ret (mset "type" (VSlice types) out)
  | None => ret out
  end.

(* Normalize required *)
Definition normRequired (out : gomap) : M gomap :=
  match mget "required" out with
  | Some v =>
      req <~ lift (wrap (pathOrRoot path ++ ".required: ") (normalizeStringSet v)) ;;
      ret (mset "required" (VSlice req) out)
  | None => ret out
  end.

Definition normProperties (out : gomap) : M gomap :=
  match mget "properties" out with
  | Some props =>
      match asMap props with
      | None => raise (PlainError (pathOrRoot path ++ ".properties: must be object"))
      | Some propsMap =>
          keys <~ keysOf propsMap ;;
          nm <~ foldRange (fun (nm : gomap) _ k =>
                  v <~ mapGet propsMap k ;;
                  match v with
                  | None => ret nm
                  | Some v =>
                      let at_ := "properties[" ++ strconv_Quote go k ++ "]" in
                      match asMap v with
                      | None =>
                          raise (PlainError (pathOrRoot path ++ "." ++ at_
                                               ++ ": must be object"))
                      | Some vm =>
                          nv <~ normalize (Some vm) (ptrJoin path at_) ;;
                          ret (mset k (VMap nv) nm)
                      end
                  end) 0 keys [] ;;
          nml <~ alloc nm ;;
          ret (mset "properties" (VMap nml) out)
      end
  | None => ret out
  end.

Definition normAdditionalProperties (out : gomap) : M gomap :=
  match mget "additionalProperties" out with
  | Some (VBool x) => ret (mset "additionalProperties" (VBool x) out)
  | Some (VMap x) =>
      nv <~ normalize (Some x) (ptrJoin path "additionalProperties") ;;
      ret (mset "additionalProperties" (VMap nv) out)
  | Some _ =>
      raise (PlainError (pathOrRoot path
                           ++ ".additionalProperties: must be boolean or object"))
  | None => ret out
  end.

Definition normItems (out : gomap) : M gomap :=
  match mget "items" out with
  | Some items =>
      match asMap items with
      | None => raise (PlainError (pathOrRoot path ++ ".items: must be object"))
      | Some im =>
          nv <~ normalize (Some im) (ptrJoin path "items") ;;
          ret (mset "items" (VMap nv) out)
      end
  | None => ret out
  end.

(** The variants of a union with their canonical strings. *)
Fixpoint scored (h : list gomap) (k : string) (variants : list loc)
  : res (list (string * loc)) :=
  match variants with
  | [] => Ok []
  | v :: r =>
      (c <- wrap (pathOrRoot path ++ "." ++ k ++ ": canonicalize variant: ")
                 (CanonicalString h (VMap v)) ;;
       sc <- scored h k r ;;
       Ok ((c, v) :: sc))%res
  end.

(* one round of: for _, k := range []string{"oneOf", "anyOf"} *)
Definition normUnion (k : string) (out : gomap) : M gomap :=
  match mget k out with
  | Some u =>
      match asSlice u with
      | None => raise (PlainError (pathOrRoot path ++ "." ++ k ++ ": must be array"))
      | Some arr =>
          variants <~ foldRange (fun (vs : list loc) idx item =>
                        match asMap item with
                        | None =>
                            raise (PlainError (pathOrRoot path ++ "." ++ index k idx
                                                 ++ ": must be object"))
                        | Some m =>
                            nv <~ normalize (Some m) (ptrJoin path (index k idx)) ;;
                            ret (vs ++ [nv])%list
                        end) 0 arr [] ;;
          h <~ getHeap ;;
          sc <~ lift (scored h k variants) ;;
          let sorted := sortSlice (fun a b => Str.lt (fst a) (fst b)) sc in
          ret (mset k (VSlice (map (fun s => VMap (snd s)) sorted)) out)
      end
  | None => ret out
  end.

Definition normalizeSteps (out : gomap) : M loc :=
  out <~ normType out ;;
  out <~ normRequired out ;;
  out <~ normProperties out ;;
  out <~ normAdditionalProperties out ;;
  out <~ normItems out ;;
  out <~ normUnion "oneOf" out ;;
  out <~ normUnion "anyOf" out ;;
  alloc out.
End NormalizeSteps.

(** [normalizeAt]; [None] is the nil map.  [out] is built as a value and
    becomes a map of the store when it is returned: nothing else refers to
    it before. *)
Fixpoint normalizeAt (fuel : nat) (n : Normalizer) (schema : option loc) (path : string)
  : M loc :=
  match fuel with
  | O => outOfFuel
  | S fuel' =>
      match schema with
      | None => alloc []
      | Some sl =>
          m <~ load sl ;;
          lift (assertProfileKeywords m path) ;;;
          match refOf m with
          | Some ref =>
              r <~ resolveRef n ref path ;;
              defer (pop (snd r))
                match asMap (fst r) with
                | None => raise (RefError path ref "resolved $ref is not an object")
                | Some rm => normalizeAt fuel' n (Some rm) path
                end
          | None =>
              let out := stripped m in
              match mget "allOf" out with
              | Some allOf =>
                  merged <~ flattenAllOf fuel' n allOf path ;;
                  normalizeAt fuel' n (Some merged) path
              | None => normalizeSteps (normalizeAt fuel' n) path out
              end
          end
      end
  end.

Definition resetStack : M unit := fun s => (Ok tt, mkState (heap s) []).

(* func (n *Normalizer) Normalize(schema map[string]any) (map[string]any, error) *)
Definition Normalize (fuel : nat) (n : Normalizer) (schema : option loc) : M loc :=
  resetStack ;;; normalizeAt fuel n schema "".

(** *** The compatibility decider (compat.go)

    The decider only reads its schemas: a schema is given by the contents
    of its map, and [h] is the store in which nested maps are found. *)
Local Open Scope res_scope.

(* if ok, err := f(); err != nil || !ok { return ok, err } *)
Definition andThen (r : res bool) (k : res bool) : res bool :=
  match r with
  | Ok true => k
  | _ => r
  end.

Definition when (c : bool) (r : res bool) : res bool := if c then r else Ok true.

Definition isEmpty (m : gomap) : bool := (List.length m =? 0)%nat.

(* func typeSet(schema map[string]any) map[string]struct{} *)
Definition typeSet (schema : gomap) : option strset :=
  match mget "type" schema with
  | Some (VSlice arr) => Some (stringsOf arr [])
  | _ => None
  end.

(* func subsetTypes(a, b map[string]struct{}) bool *)
Definition subsetTypes (a b : option strset) : bool :=
  match a, b with
  | None, None => true
  | None, Some _ => false
  | Some _, None => true
  | Some a, Some b =>
      forallb (fun k => sin k b || (String.eqb k "integer" && sin "number" b)) a
  end.

(* func hasType(schema map[string]any, t string) bool *)
Definition hasType (schema : gomap) (t : string) : bool :=
  match typeSet schema with
  | None => false
  | Some set => sin t set
  end.

(* func hasUnion(schema map[string]any) bool *)
Definition hasUnion (schema : gomap) : bool :=
  hasKey schema "oneOf" || hasKey schema "anyOf".

(* func enumSet(schema map[string]any) (map[string]struct{}, bool):
   [None] when there is no enum; a nil set reads as the empty one. *)
Definition enumSet (h : list gomap) (schema : gomap) : option strset :=
  match mget "enum" schema with
  | None => None
  | Some (VSlice arr) => Some (fold_left (fun set it => sadd (canonicalKey h it) set) arr [])
  | Some _ => Some []
  end.

(* func compatConstEnum(tgt, cand map[string]any, isInput bool) (bool, error) *)
Definition compatConstEnum (h : list gomap) (tgt cand : gomap) (isInput : bool)
  : res bool :=
  let tgtConst := mget "const" tgt in
  let candConst := mget "const" cand in
  let tgtEnum := enumSet h tgt in
  let candEnum := enumSet h cand in
  if isInput then
    match tgtConst, tgtEnum with
    | Some tc, _ =>
        match candConst, candEnum with
        | Some cc, _ => Ok (equalJSONValue h tc cc)
        | None, Some ce => Ok (sin (canonicalKey h tc) ce)
        | None, None => Ok true
        end
    | None, Some te =>
        match candConst, candEnum with
        | Some cc, _ =>
            if negb (List.length te =? 1)%nat then Ok false
            else Ok (sin (canonicalKey h cc) te)
        | None, Some ce => Ok (forallb (fun k => sin k ce) te)
        | None, None => Ok true
        end
    | None, None => Ok true
    end
  else
    match tgtEnum, tgtConst with
    | Some te, _ =>
        match candConst, candEnum with
        | Some cc, _ => Ok (sin (canonicalKey h cc) te)
        | None, Some ce => Ok (forallb (fun k => sin k te) ce)
        | None, None => Ok false
        end
    | None, Some tc =>
        match candConst, candEnum with
        | Some cc, _ => Ok (equalJSONValue h tc cc)
        | None, Some ce =>
            if negb (List.length ce =? 1)%nat then Ok false
            else Ok (sin (canonicalKey h tc) ce)
        | None, None => Ok false
        end
    | None, None => Ok true
    end.

(* func stringSet(v any) map[string]struct{} *)
Definition stringSet (v : option val) : strset :=
  match v with
  | Some (VSlice arr) => stringsOf arr []
  | _ => []
  end.

(* m, _ := asMap(schema[key]): the contents, none for a nil map *)
Definition subMap (h : list gomap) (schema : gomap) (key : string) : gomap :=
  match mget key schema with
  | Some (VMap l) => contents h l
  | _ => []
  end.

(** A loop whose body may return from the function: [None] goes on. *)
Fixpoint loop {A} (body : A -> option (res bool)) (l : list A) (after : res bool)
  : res bool :=
  match l with
  | [] => after
  | x :: r =>
      match body x with
      | Some result => result
      | None => loop body r after
      end
  end.

(* return ok2, err when err != nil || !ok2 *)
Definition stopUnlessTrue (r : res bool) : option (res bool) :=
  match r with
  | Ok true => None
  | _ => Some r
  end.

Section CompatSteps.
(** The recursive call of [compat]. *)
Variable compat : gomap -> gomap -> bool -> res bool.
Variable h : list gomap.

(* func compatObject(tgt, cand map[string]any, isInput bool) (bool, error) *)
Definition compatObject (tgt cand : gomap) (isInput : bool) : res bool :=
  let tgtReq := stringSet (mget "required" tgt) in
  let candReq := stringSet (mget "required" cand) in
  let tgtProps := subMap h tgt "properties" in
  let candProps := subMap h cand "properties" in
  if isInput then
    if negb (forallb (fun k => sin k tgtReq) candReq) then Ok false
    else
      loop (fun ptv : string * val =>
              match asMap (snd ptv) with
              | None => None
              | Some tvm =>
                  match mget (fst ptv) candProps with
                  | Some cv =>
                      match asMap cv with
                      | None => None
                      | Some cvm =>
                          stopUnlessTrue (compat (contents h tvm) (contents h cvm) true)
                      end
                  | None => None
                  end
              end) tgtProps (Ok true)
  else
    if negb (forallb (fun k => sin k candReq) tgtReq) then Ok false
    else
      let tgtAP := mget "additionalProperties" tgt in
      loop (fun pcv : string * val =>
              match mget (fst pcv) tgtProps with
              | None =>
                  match tgtAP with
                  | Some (VBool false) => Some (Ok false)
                  | _ => None
                  end
              | Some tv =>
                  match asMap tv, asMap (snd pcv) with
                  | Some tvm, Some cvm =>
                      stopUnlessTrue (compat (contents h tvm) (contents h cvm) false)
                  | _, _ => None
                  end
              end) candProps
        match tgtAP with
        | Some (VBool false) =>
            match mget "additionalProperties" cand with
            | Some (VBool apCand) => Ok (negb apCand)
            | _ => Ok false
            end
        | Some (VMap apTgt) =>
            match mget "additionalProperties" cand with
            | Some (VMap apCand) =>
                andThen (compat (contents h apTgt) (contents h apCand) false) (Ok true)
            | Some (VBool false) => Ok true
            | _ => Ok false
            end
        | _ => Ok true
        end.

(* func compatArray(tgt, cand map[string]any, isInput bool) (bool, error) *)
Definition compatArray (tgt cand : gomap) (isInput : bool) : res bool :=
  compat (subMap h tgt "items") (subMap h cand "items") isInput.

(* func unionVariants(schema map[string]any) ([]map[string]any, bool) *)
Definition unionVariants (schema : gomap) : option (list gomap) :=
  let key := if hasKey schema "oneOf" then Some "oneOf"
             else if hasKey schema "anyOf" then Some "anyOf" else None in
  match key with
  | None => None
  | Some key =>
      match mget key schema with
      | Some (VSlice arr) =>
          fold_right (fun it out =>
                        match asMap it, out with
                        | Some m, Some ms => Some (contents h m :: ms)
                        | _, _ => None
                        end) (Some []) arr
      | _ => None
      end
  end.

(** The inner loop of [compatUnion]: some [w] with [test w], unless a
    test fails with an error first. *)
Fixpoint found (test : gomap -> res bool) (ws : list gomap) : res bool :=
  match ws with
  | [] => Ok false
  | w :: r =>
      match test w with
      | Ok true => Ok true
      | Ok false => found test r
      | other => other
      end
  end.

(* func compatUnion(tgt, cand map[string]any, isInput bool) (bool, error) *)
Definition compatUnion (tgt cand : gomap) (isInput : bool) : res bool :=
  match unionVariants tgt, unionVariants cand with
  | Some tgtVars, Some candVars =>
      if isInput then
        loop (fun v => match found (fun w => compat v w true) candVars with
                       | Ok true => None
                       | other => Some other
                       end) tgtVars (Ok true)
      else
        loop (fun w => match found (fun v => compat v w false) tgtVars with
                       | Ok true => None
                       | other => Some other
                       end) candVars (Ok true)
  | _, _ => Ok false
  end.
End CompatSteps.

(* func effectiveLowerBound(schema map[string]any) (float64, bool) *)
Definition effectiveLowerBound (schema : gomap) : float * bool :=
  match mget "minimum" schema, mget "exclusiveMinimum" schema with
  | Some min, Some eMin =>
      let mv := toFloat64 min in
      let ev := toFloat64 eMin in
      if (mv <=? ev)%float then (ev, true) else (mv, false)
  | None, Some eMin => (toFloat64 eMin, true)
  | Some min, None => (toFloat64 min, false)
  | None, None => (0%float, false)
  end.

(* func effectiveUpperBound(schema map[string]any) (float64, bool) *)
Definition effectiveUpperBound (schema : gomap) : float * bool :=
  match mget "maximum" schema, mget "exclusiveMaximum" schema with
  | Some max, Some eMax =>
      let mv := toFloat64 max in
      let ev := toFloat64 eMax in
      if (ev <=? mv)%float then (ev, true) else (mv, false)
  | None, Some eMax => (toFloat64 eMax, true)
  | Some max, None => (toFloat64 max, false)
  | None, None => (0%float, false)
  end.

(* func lowerBoundLessOrEqual(a float64, aExcl bool, b float64, bExcl bool) bool *)
Definition lowerBoundLessOrEqual (a : float) (aExcl : bool) (b : float) (bExcl : bool)
  : bool :=
  if (a <? b)%float then true
  else if (b <? a)%float then false
  else if aExcl && negb bExcl then false
  else true.

(* func lowerBoundGreaterOrEqual(a float64, aExcl bool, b float64, bExcl bool) bool *)
Definition lowerBoundGreaterOrEqual (a : float) (aExcl : bool) (b : float) (bExcl : bool)
  : bool :=
  if (b <? a)%float then true
  else if (a <? b)%float then false
  else if bExcl && negb aExcl then false
  else true.

(* func upperBoundLessOrEqual(a float64, aExcl bool, b float64, bExcl bool) bool *)
Definition upperBoundLessOrEqual (a : float) (aExcl : bool) (b : float) (bExcl : bool)
  : bool :=
  if (a <? b)%float then true
  else if (b <? a)%float then false
  else if bExcl && negb aExcl then false
  else true.

(* func upperBoundGreaterOrEqual(a float64, aExcl bool, b float64, bExcl bool) bool *)
Definition upperBoundGreaterOrEqual (a : float) (aExcl : bool) (b : float) (bExcl : bool)
  : bool :=
  if (b <? a)%float then true
  else if (a <? b)%float then false
  else if aExcl && negb bExcl then false
  else true.

(* func compatNumericBounds(tgt, cand map[string]any, isInput bool) (bool, error) *)
Definition compatNumericBounds (tgt cand : gomap) (isInput : bool) : res bool :=
  let '(tgtLo, tgtLoExcl) := effectiveLowerBound tgt in
  let '(candLo, candLoExcl) := effectiveLowerBound cand in
  let '(tgtHi, tgtHiExcl) := effectiveUpperBound tgt in
  let '(candHi, candHiExcl) := effectiveUpperBound cand in
  let tgtHasLo := hasKey tgt "minimum" || hasKey tgt "exclusiveMinimum" in
  let tgtHasHi := hasKey tgt "maximum" || hasKey tgt "exclusiveMaximum" in
  let candHasLo := hasKey cand "minimum" || hasKey cand "exclusiveMinimum" in
  let candHasHi := hasKey cand "maximum" || hasKey cand "exclusiveMaximum" in
  if isInput then
    if tgtHasLo && candHasLo
       && negb (lowerBoundLessOrEqual candLo candLoExcl tgtLo tgtLoExcl)
    then Ok false
    else if tgtHasHi && candHasHi
            && negb (upperBoundGreaterOrEqual candHi candHiExcl tgtHi tgtHiExcl)
    then Ok false
    else Ok true
  else
    if tgtHasLo && (negb candHasLo
                    || negb (lowerBoundGreaterOrEqual candLo candLoExcl tgtLo tgtLoExcl))
    then Ok false
    else if tgtHasHi && (negb candHasHi
                         || negb (upperBoundLessOrEqual candHi candHiExcl tgtHi tgtHiExcl))
    then Ok false
    else Ok true.

Definition valueAt (m : gomap) (k : string) : val :=
  match mget k m with Some v => v | None => VNil end.

(* func compatSimpleBounds(tgt, cand map[string]any, isInput bool,
                           minKey, maxKey string) (bool, error) *)
Definition compatSimpleBounds (tgt cand : gomap) (isInput : bool) (minKey maxKey : string)
  : res bool :=
  let f m k := toFloat64 (valueAt m k) in
  if isInput then
    if hasKey tgt minKey && hasKey cand minKey
       && (f tgt minKey <? f cand minKey)%float
    then Ok false
    else if hasKey tgt maxKey && hasKey cand maxKey
            && (f cand maxKey <? f tgt maxKey)%float
    then Ok false
    else Ok true
  else
    if hasKey tgt minKey
       && (negb (hasKey cand minKey) || (f cand minKey <? f tgt minKey)%float)
    then Ok false
    else if hasKey tgt maxKey
            && (negb (hasKey cand maxKey) || (f tgt maxKey <? f cand maxKey)%float)
    then Ok false
    else Ok true.

(* func compatStringBounds(tgt, cand map[string]any, isInput bool) (bool, error) *)
Definition compatStringBounds (tgt cand : gomap) (isInput : bool) : res bool :=
  compatSimpleBounds tgt cand isInput "minLength" "maxLength".

(* func compatArrayBounds(tgt, cand map[string]any, isInput bool) (bool, error) *)
Definition compatArrayBounds (tgt cand : gomap) (isInput : bool) : res bool :=
  compatSimpleBounds tgt cand isInput "minItems" "maxItems".

(* func compat(tgt, cand map[string]any, isInput bool) (bool, error) *)
Fixpoint compat (fuel : nat) (h : list gomap) (tgt cand : gomap) (isInput : bool)
  : res bool :=
  match fuel with
  | O => OutOfFuel
  | S fuel' =>
      let rec := compat fuel' h in
      if isEmpty tgt then Ok (if isInput then isEmpty cand else true)
      else if isEmpty cand then Ok (if isInput then true else isEmpty tgt)
      else
        let tgtTypes := typeSet tgt in
        let candTypes := typeSet cand in
        let typed := match tgtTypes, candTypes with None, None => false | _, _ => true end in
        if typed && negb (if isInput then subsetTypes tgtTypes candTypes
                          else subsetTypes candTypes tgtTypes)
        then Ok false
        else
          andThen (compatConstEnum h tgt cand isInput)
         (andThen (when (hasType tgt "object" || hasType cand "object")
                        (compatObject rec h tgt cand isInput))
         (andThen (when (hasType tgt "array" || hasType cand "array")
                        (compatArray rec h tgt cand isInput))
         (andThen (when (hasType tgt "number" || hasType tgt "integer"
                         || hasType cand "number" || hasType cand "integer")
                        (compatNumericBounds tgt cand isInput))
         (andThen (when (hasType tgt "string" || hasType cand "string")
                        (compatStringBounds tgt cand isInput))
         (andThen (when (hasType tgt "array" || hasType cand "array")
                        (compatArrayBounds tgt cand isInput))
         (andThen (when (hasUnion tgt || hasUnion cand)
                        (compatUnion rec h tgt cand isInput))
                  (Ok true)))))))
  end.

(* func inputCompatible(tgt, cand map[string]any) (bool, error) *)
Definition inputCompatible (fuel : nat) (h : list gomap) (tgt cand : gomap) : res bool :=
  if isEmpty cand then Ok true else compat fuel h tgt cand true.

(* func outputCompatible(tgt, cand map[string]any) (bool, error) *)
Definition outputCompatible (fuel : nat) (h : list gomap) (tgt cand : gomap) : res bool :=
  if isEmpty cand then Ok (isEmpty tgt) else compat fuel h tgt cand false.

Local Open Scope go_scope.

Definition decide (decider : nat -> list gomap -> gomap -> gomap -> res bool)
    (fuel : nat) (n : Normalizer) (target candidate : option loc) : M bool :=
  resetStack ;;;
  ti <~ normalizeAt fuel n target "" ;;
  tc <~ normalizeAt fuel n candidate "" ;;
  h <~ getHeap ;;
  lift (decider fuel h (contents h ti) (contents h tc)).

(* func (n *Normalizer) InputCompatible(target, candidate map[string]any) (bool, error) *)
Definition InputCompatible : nat -> Normalizer -> option loc -> option loc -> M bool :=
  decide inputCompatible.

(* func (n *Normalizer) OutputCompatible(target, candidate map[string]any) (bool, error) *)
Definition OutputCompatible : nat -> Normalizer -> option loc -> option loc -> M bool :=
  decide outputCompatible.

(** *** Running a call on JSON documents

    [run c docs] allocates the documents [docs] in an empty store and runs
    [c] on their values; [readBack] is the document that a value of the
    final store holds. *)
Fixpoint allocAll (docs : list json) : M (list val) :=
  match docs with
  | [] => ret []
  | d :: r => v <~ allocJSON d ;; vs <~ allocAll r ;; ret (v :: vs)
  end.

Definition emptyState : state := mkState [] [].

Definition run {A} (docs : list json) (c : list val -> M A) : res A * state :=
  (vs <~ allocAll docs ;; c vs) emptyState.

Fixpoint readBack (fuel : nat) (h : list gomap) {struct fuel} : val -> option json :=
  fix rd (v : val) : option json :=
    match v with
    | VNil => Some JNull
    | VBool b => Some (JBool b)
    | VString s => Some (JString s)
    | VFloat64 f => Some (JFloat f)
    | VInt z => Some (JNumber (Str.decimalZ z))
    | VNumber s => Some (JNumber s)
    | VSlice l =>
        option_map JArr
          ((fix items (l : list val) : option (list json) :=
              match l with
              | [] => Some []
              | x :: r =>
                  match rd x, items r with
                  | Some j, Some js => Some (j :: js)
                  | _, _ => None
                  end
              end) l)
    | VMap a =>
        match fuel with
        | O => None
        | S fuel' =>
            option_map JObj
              ((fix members (es : gomap) : option (list (string * json)) :=
                  match es with
                  | [] => Some []
                  | (k, x) :: r =>
                      match readBack fuel' h x, members r with
                      | Some j, Some js => Some ((k, j) :: js)
                      | _, _ => None
                      end
                  end) (contents h a))
        end
    end.

Definition schemaOf (v : val) : option loc := asMap v.

End Schemaprofile.

(** ** Documents and library instances used in the statements *)

(** A schema [{"type": ty, ...}]. *)
Definition typed (ty : string) (rest : list (string * json)) : json :=
  JObj (("type", JString ty) :: rest).

(** [call] on the maps of the first two documents of [docs]; the result
    comes with the values of all documents, to read them back after. *)
Definition onSchemas {A} (docs : list json) (call : option loc -> option loc -> M A)
  : res A * state :=
  run docs (fun vs => call (schemaOf (nth 0 vs VNil)) (schemaOf (nth 1 vs VNil))).

Definition inputOf (docs : list json) : state -> option json :=
  fun s =>
    match allocAll docs emptyState with
    | (Ok (v :: _), _) => readBack (List.length (heap s)) (heap s) v
    | _ => None
    end.

(** [{"allOf": [{"properties": {"a": {"properties": {"x": {}}}}},
                {"properties": {"a": {"properties": {"y": {}}}}}]}] *)
Definition nestedProperty (names : list string) : json :=
  JObj [("properties",
         JObj [("a", JObj [("properties", JObj (map (fun k => (k, JObj [])) names))])])].

Definition nestedAllOf : json :=
  JObj [("allOf", JArr [nestedProperty ["x"]; nestedProperty ["y"]])].

(** A document used both as root and as schema: the first branch of
    [p2]'s [allOf] refers to the [const] of the first variant of [p1]'s
    union. *)
Definition properties (members : list (string * json)) : json :=
  JObj [("properties", JObj members)].

Definition constant (names : list string) : json :=
  JObj [("const",
         properties [("a", properties (map (fun k => (k, JObj [])) names))])].

Definition sharedConst : json :=
  properties
    [("p1", JObj [("oneOf", JArr [constant ["m"]; constant ["m"; "zzz"]])]);
     ("p2", JObj [("allOf",
                   JArr [JObj [("$ref", JString "#/properties/p1/oneOf/0/const")];
                         properties [("a", properties [("zz", JObj [])])]])])].

Definition quoted (s : string) : string := String dquote (s ++ String dquote "").

(** A library whose [strconv] knows the numbers of the examples (1e-6,
    1e-7, 1 and 2, read and printed as Go does) and whose [url.Parse]
    knows their references. *)
Definition goTable : GoStdlib := {|
  strconv_ParseFloat := fun s =>
    if String.eqb s "1e-6" then (1e-6%float, None)
    else if String.eqb s "1e-7" then (1e-7%float, None)
    else if String.eqb s "1" then (1%float, None)
    else if String.eqb s "2" then (2%float, None)
    else (0%float, Some "strconv.ParseFloat: invalid syntax");
  strconv_FormatFloat := fun f fmt =>
    if (f =? 1e-6)%float then "0.000001"
    else if (f =? 1e-7)%float then "1e-07"
    else if (f =? 1)%float then "1"
    else if (f =? 2)%float then "2"
    else "0";
  strconv_Quote := quoted;
  url_Parse := fun s =>
    if String.eqb s "#/a" then inr (mkURL "" "" "" "" "/a")
    else if String.eqb s "#/properties/p1/oneOf/0/const"
    then inr (mkURL "" "" "" "" "/properties/p1/oneOf/0/const")
    else if String.eqb s "schemas.json#/schemas/Foo"
    then inr (mkURL "" "" "schemas.json" "" "/schemas/Foo")
    else if String.eqb s "https://example.com/schema.json#/schemas/Foo"
    then inr (mkURL "https" "example.com" "/schema.json" "" "/schemas/Foo")
    else inl "parse error";
  url_String := fun u =>
    (if String.eqb (Scheme u) "" then "" else Scheme u ++ "://" ++ Host u)
      ++ UPath u ++ (if String.eqb (Fragment u) "" then "" else "#" ++ Fragment u);
  url_ResolveReference := fun _ u => u;
  json_Decode := fun _ => inl "unexpected end of JSON input"
|}.

(** The dynamic types that [toFloat64] converts. *)
Definition recognised (v : val) : bool :=
  match v with
  | VFloat64 _ | VInt _ | VNumber _ => true
  | _ => false
  end.

(** The keywords whose values the decider compares as numbers. *)
Definition boundKeys : list string :=
  ["minimum"; "maximum"; "exclusiveMinimum"; "exclusiveMaximum";
   "minLength"; "maxLength"; "minItems"; "maxItems"].

(** [&Normalizer{Root: map[string]any{}}] once the root is allocated. *)
Definition plainNormalizer (root : val) : Normalizer :=
  {| Root := root; Base := None; Fetch := None |}.

(** [{"$ref": "#/a"}] *)
Definition selfRef : json := JObj [("$ref", JString "#/a")].

(* if s == "-0" { return "0", nil } *)
Definition zeroFix (s : string) : string := if String.eqb s "-0" then "0" else s.

(** The document [{"n":1e-6,"m":1e-7}] as the decoder builds it. *)
Definition twoNumbers : json := JObj [("n", JNumber "1e-6"); ("m", JNumber "1e-7")].

(** ** Documents that differ only in the order of object keys *)

(** [sameDocument a b]: [b] is [a] with the members of its objects, at any
    depth, in another order. *)
Inductive sameDocument : json -> json -> Prop :=
| same_null : sameDocument JNull JNull
| same_bool b : sameDocument (JBool b) (JBool b)
| same_string s : sameDocument (JString s) (JString s)
| same_number s : sameDocument (JNumber s) (JNumber s)
| same_float f : sameDocument (JFloat f) (JFloat f)
| same_arr l1 l2 :
    Forall2 sameDocument l1 l2 -> sameDocument (JArr l1) (JArr l2)
| same_obj m1 m m2 :
    Forall2 (fun p q => fst p = fst q /\ sameDocument (snd p) (snd q)) m1 m ->
    Permutation m m2 ->
    sameDocument (JObj m1) (JObj m2).

(** The keys of each object have different UTF-16 forms: what [writeJCS]
    needs of a document to write every member once. *)
Fixpoint distinctKeys (v : json) : Prop :=
  match v with
  | JArr l =>
      (fix all (l : list json) : Prop :=
         match l with
         | [] => True
         | x :: r => distinctKeys x /\ all r
         end) l
  | JObj m =>
      NoDup (map (fun kv => utf16key (fst kv)) m)
      /\ (fix all (m : list (string * json)) : Prop :=
            match m with
            | [] => True
            | (_, x) :: r => distinctKeys x /\ all r
            end) m
  | _ => True
  end.

(** A Unicode scalar value: a code point that is no surrogate. *)
Definition scalar (r : N) : Prop := (r < 55296 \/ (57344 <= r /\ r <= 1114111))%N.

(** Valid UTF-8: decoding the bytes and encoding the code points gives the
    string back.  [encoding/json] only gives such strings. *)
Definition validUTF8 (s : string) : Prop := toValidUTF8 s = s.

(** A document as the decoder gives it: the keys of an object (the keys of a
    Go map) are different strings of valid UTF-8. *)
Fixpoint decoded (v : json) : Prop :=
  match v with
  | JArr l =>
      (fix all (l : list json) : Prop :=
         match l with
         | [] => True
         | x :: r => decoded x /\ all r
         end) l
  | JObj m =>
      NoDup (map fst m) /\ Forall validUTF8 (map fst m)
      /\ (fix all (m : list (string * json)) : Prop :=
            match m with
            | [] => True
            | (_, x) :: r => decoded x /\ all r
            end) m
  | _ => True
  end.

Fixpoint writeItems (w : json -> res string) (l : list json) : res (list string) :=
  match l with
  | [] => Ok []
  | x :: r => rbind (w x) (fun s => rbind (writeItems w r) (fun ss => Ok (s :: ss)))
  end.

(** What [writeJCS] writes for the member [k] whose value is written [v]. *)
Definition member (kv : string * string) : string :=
  writeJCSString (fst kv) ++ ":" ++ snd kv.

Section JsonInduction.
Variable P : json -> Prop.
Hypothesis Hnull : P JNull.
Hypothesis Hbool : forall b, P (JBool b).
Hypothesis Hstring : forall s, P (JString s).
Hypothesis Hnumber : forall s, P (JNumber s).
Hypothesis Hfloat : forall f, P (JFloat f).
Hypothesis Harr : forall l, Forall P l -> P (JArr l).
Hypothesis Hobj : forall m, Forall (fun kv => P (snd kv)) m -> P (JObj m).

Fixpoint json_induction (v : json) : P v :=
  match v with
  | JNull => Hnull
  | JBool b => Hbool b
  | JString s => Hstring s
  | JNumber s => Hnumber s
  | JFloat f => Hfloat f
  | JArr l =>
      Harr ((fix all (l : list json) : Forall P l :=
               match l with
               | [] => Forall_nil P
               | x :: r => Forall_cons x (json_induction x) (all r)
               end) l)
  | JObj m =>
      Hobj ((fix all (m : list (string * json)) : Forall (fun kv => P (snd kv)) m :=
               match m with
               | [] => Forall_nil _
               | (k, x) :: r =>
                   Forall_cons (P := fun kv => P (snd kv)) (k, x) (json_induction x) (all r)
               end) m)
  end.
End JsonInduction.

(** The keys with their UTF-16 code units, as [writeJCS] sorts them. *)
Definition decorated (A : Type) (m : list (string * A)) : list (string * list N) :=
  map (fun kv => (fst kv, utf16key (fst kv))) m.

Definition lessDecorated (a b : string * list N) : bool := lessUTF16 (snd a) (snd b).

(** The order in which [writeJCS] writes the keys of an object. *)
Definition keyOrder (k1 k2 : string) : Prop :=
  lessUTF16 (utf16key k1) (utf16key k2) = true.

(** The two documents of the package's test of key order. *)
Definition documentA : json :=
  JObj [("b", JNumber "1");
        ("a", JObj [("y", JNumber "2"); ("x", JNumber "1")]);
        ("arr", JArr [JObj [("b", JNumber "2"); ("a", JNumber "1")]])].

Definition documentB : json :=
  JObj [("arr", JArr [JObj [("a", JNumber "1"); ("b", JNumber "2")]]);
        ("a", JObj [("x", JNumber "1"); ("y", JNumber "2")]);
        ("b", JNumber "1")].

(** A key is not one of [boundKeys]. *)
Ltac notBound := (simpl; intuition discriminate).

(* boolean comparisons of code points, as propositions *)
Ltac bools :=
  repeat match goal with
         | H : (_ && _)%bool = true |- _ => apply andb_true_iff in H; destruct H
         | H : (_ <=? _)%N = true |- _ => apply N.leb_le in H
         | H : (_ <? _)%N = true |- _ => apply N.ltb_lt in H
         | H : (_ =? _)%N = true |- _ => apply N.eqb_eq in H
         | H : (_ =? _)%N = false |- _ => apply N.eqb_neq in H
         | H : (_ <=? _)%N = false |- _ => apply N.leb_gt in H
         | H : (_ <? _)%N = false |- _ => apply N.ltb_ge in H
         end.


Section StatementsWithLibrary.
Variable go : GoStdlib.

(** Two schemas that the decider cannot tell apart: they are both empty or
    both not, agree on every key that is not a bound, and hold bounds that
    convert to the same numbers. *)
Definition alike (m m' : gomap) : Prop :=
  isEmpty m = isEmpty m'
  /\ (forall key, ~ In key boundKeys -> mget key m = mget key m')
  /\ (forall key, option_map (toFloat64 go) (mget key m)
                  = option_map (toFloat64 go) (mget key m')).

(** What [writeJCS] gives for each member of an object. *)
Definition written (m : list (string * json)) : list (string * res string) :=
  map (fun kv => (fst kv, writeJCS go (snd kv))) m.

End StatementsWithLibrary.

(** ** Notions used in the further properties *)

(** An item that [normalizeType] and [normalizeStringSet] accept: a string
    that is not blank. *)
Definition nonBlankString (v : val) : Prop :=
  exists s, v = VString s /\ Str.blank s = false.

(** Strictly ascending in Go's [<] on strings (so without duplicates). *)
Definition ascending (l : list string) : Prop :=
  StronglySorted (fun a b => Str.lt a b = true) l.

(** A byte that is no control character, no double quote and no backslash. *)
Definition plainByte (c : ascii) : Prop :=
  (32 <= Str.byteN c /\ Str.byteN c <> 34 /\ Str.byteN c <> 92)%N.

(** A number that [formatJCSNumber] can write: [strconv.ParseFloat] reads
    it without error, as a finite [float64]. *)
Definition numberOk (go : GoStdlib) (s : string) : Prop :=
  match strconv_ParseFloat go s with
  | (f, None) => nonFinite f = false
  | (_, Some _) => False
  end.

(** Every number of a document, at any depth, can be written. *)
Fixpoint numbersOk (go : GoStdlib) (v : json) : Prop :=
  match v with
  | JNumber s => numberOk go s
  | JFloat f => nonFinite f = false
  | JArr l =>
      (fix all (l : list json) : Prop :=
         match l with
         | [] => True
         | x :: r => numbersOk go x /\ all r
         end) l
  | JObj m =>
      (fix all (m : list (string * json)) : Prop :=
         match m with
         | [] => True
         | (_, x) :: r => numbersOk go x /\ all r
         end) m
  | _ => True
  end.

(** A result that is no error: a boolean, or not enough fuel. *)
Definition noError (A : Type) (r : res A) : Prop := forall e, r <> Fail e.

(** Normalizing the target, or after it the candidate, in the store of [s]
    with an empty [refStack], fails with the error [e]. *)
Definition normalizationFails (go : GoStdlib) (fuel : nat) (n : Normalizer)
    (target candidate : option loc) (s : state) (e : error) : Prop :=
  let s0 := mkState (heap s) [] in
  fst (normalizeAt go fuel n target "" s0) = Fail e
  \/ exists l, fst (normalizeAt go fuel n target "" s0) = Ok l
               /\ fst (normalizeAt go fuel n candidate ""
                         (snd (normalizeAt go fuel n target "" s0))) = Fail e.

(** A computation that leaves [refStack] as it was and removes no map from
    the store, whatever it returns. *)
Definition steady (A : Type) (c : M A) : Prop :=
  forall s, refStack (snd (c s)) = refStack s
            /\ (List.length (heap s) <= List.length (heap (snd (c s))))%nat.

(** A computation whose result, when it returns a map, is a map that it
    made: not in the store before, in the store after. *)
Definition fresh (c : M loc) : Prop :=
  forall s l, fst (c s) = Ok l ->
              (List.length (heap s) <= l < List.length (heap (snd (c s))))%nat.

(** RFC 6901: in a reference token [~] is written [~0] and [/] is written
    [~1]. *)
Fixpoint escapeToken (k : string) : string :=
  match k with
  | EmptyString => EmptyString
  | String c r =>
      if Ascii.eqb c "~" then String "~" (String "0" (escapeToken r))
      else if Ascii.eqb c "/" then String "~" (String "1" (escapeToken r))
      else String c (escapeToken r)
  end.

(** The JSON Pointer that names the keys [keys], outermost first. *)
Fixpoint pointerTo (keys : list string) : string :=
  match keys with
  | [] => ""
  | k :: r => "/" ++ escapeToken k ++ pointerTo r
  end.

(** One step into a value: the member [k] of a map; the element of a slice
    whose index [strconv.Atoi] reads from [k]. *)
Definition child (go : GoStdlib) (h : list gomap) (cur : val) (k : string) : res val :=
  match cur with
  | VMap l =>
      match mget k (contents h l) with
      | None => Fail (PlainError ("pointer not found: " ++ strconv_Quote go k))
      | Some v => Ok v
      end
  | VSlice x =>
      if String.eqb k "-" then Fail (PlainError "pointer '-' is not valid for array lookup")
      else
        let oob := PlainError ("array index out of range: " ++ strconv_Quote go k) in
        match Atoi k with
        | Some idx =>
            if ((idx <? 0) || (Z.of_nat (List.length x) <=? idx))%Z then Fail oob
            else match nth_error x (Z.to_nat idx) with
                 | Some v => Ok v
                 | None => Fail oob
                 end
        | None => Fail oob
        end
  | _ => Fail (PlainError "pointer traversed non-container")
  end.

(** The value reached from [cur] by the keys [keys], one step each. *)
Fixpoint follow (go : GoStdlib) (h : list gomap) (cur : val) (keys : list string)
  : res val :=
  match keys with
  | [] => Ok cur
  | k :: r => rbind (child go h cur k) (fun v => follow go h v r)
  end.

(** The keywords that [mergeAllOfBranch] merges as lower bounds and as
    upper bounds. *)
Definition lowerBounds : list string :=
  ["minimum"; "exclusiveMinimum"; "minLength"; "minItems"].

Definition upperBounds : list string :=
  ["maximum"; "exclusiveMaximum"; "maxLength"; "maxItems"].

(** The state after the merge of a branch that holds the one bound [k]:
    the branch's bound replaces the accumulator's when the accumulator has
    none or when [wins] says so. *)
Definition afterBound (go : GoStdlib) (wins : float -> float -> bool) (acc : loc)
    (k : string) (bv : val) (s : state) : state :=
  match mget k (contents (heap s) acc) with
  | Some av =>
      if wins (toFloat64 go bv) (toFloat64 go av)
      then mkState (update (heap s) acc (mset k bv (contents (heap s) acc))) (refStack s)
      else s
  | None => mkState (update (heap s) acc (mset k bv (contents (heap s) acc))) (refStack s)
  end.

(** The keywords whose values are schemas or hold schemas. *)
Definition schemaKeywords : list string :=
  ["allOf"; "properties"; "additionalProperties"; "items"; "oneOf"; "anyOf"].

(** A schema without reference and without sub-schemas. *)
Definition leaf (m : gomap) : Prop :=
  refOf m = None /\ forall k, In k schemaKeywords -> mget k m = None.

(** [out] is what [f] makes of the value at a key: nothing when the key
    is absent, the normalized slice when [f] accepts the value. *)
Definition normalizedBy (f : val -> res (list val)) (v : option val)
    (out : option (list val)) : Prop :=
  match v with
  | Some x => exists l, f x = Ok l /\ out = Some l
  | None => out = None
  end.

(** The schema that [normalizeAt] builds from a leaf: the annotation
    keywords and [$defs] taken out, then [type] and [required] set to
    their normalized slices. *)
Definition leafOut (types req : option (list val)) (m : gomap) : gomap :=
  let out1 := match types with
              | Some l => mset "type" (VSlice l) (stripped m)
              | None => stripped m
              end in
  match req with
  | Some l => mset "required" (VSlice l) out1
  | None => out1
  end.

(** * Properties *)

Section FloatOrder.

Lemma SFcompare_swap x y :
  SFcompare y x = option_map CompOpp (SFcompare x y).
Proof.
  destruct x as [sx | sx | | sx mx ex], y as [sy | sy | | sy my ey]; simpl;
    try reflexivity;
    try (destruct sx; reflexivity); try (destruct sy; reflexivity);
    try (destruct sx, sy; reflexivity).
  destruct sx, sy; simpl; try reflexivity;
    rewrite (Z.compare_antisym ex ey);
    destruct (ex ?= ey)%Z; simpl; try reflexivity;
    rewrite (Pos.compare_cont_antisym mx my Eq); simpl;
    try rewrite CompOpp_involutive; reflexivity.
Qed.

Lemma ltb_irrefl a : (a <? a)%float = false.
Proof.
  rewrite ltb_spec. unfold SFltb.
  pose proof (SFcompare_swap (Prim2SF a) (Prim2SF a)) as H.
  destruct (SFcompare (Prim2SF a) (Prim2SF a)) as [[ | | ] | ]; simpl in H;
    try reflexivity; discriminate.
Qed.

Lemma not_nan_SF f : is_nan f = false -> Prim2SF f <> S754_nan.
Proof.
  intros H. unfold Prim2SF. rewrite H.
  destruct (is_zero f); [discriminate |].
  destruct (is_infinity f); [discriminate |].
  destruct (Z.frexp f) as [r e].
  destruct (shr_fexp prec emax _ _ _) as [shr e'].
  destruct (shr_m shr); discriminate.
Qed.

(** Without NaN the order is total: [b <= a] is the negation of [a < b]. *)
Lemma leb_negb_ltb a b :
  is_nan a = false -> is_nan b = false -> (b <=? a)%float = negb (a <? b)%float.
Proof.
  intros Ha Hb. rewrite leb_spec, ltb_spec. unfold SFleb, SFltb.
  rewrite (SFcompare_swap (Prim2SF a) (Prim2SF b)).
  apply not_nan_SF in Ha. apply not_nan_SF in Hb.
  destruct (Prim2SF a) as [sa | sa | | sa ma ea], (Prim2SF b) as [sb | sb | | sb mb eb];
    try congruence; simpl;
    try (destruct sa; reflexivity); try (destruct sb; reflexivity);
    try (destruct sa, sb; reflexivity).
  destruct sa, sb; simpl; try reflexivity;
    destruct (ea ?= eb)%Z; simpl; try reflexivity;
    destruct (Pos.compare_cont Eq ma mb); reflexivity.
Qed.

Lemma abs_not_nan f : is_nan f = false -> is_nan (abs f) = false.
Proof.
  intros H. apply not_nan_SF in H.
  destruct (is_nan (abs f)) eqn:E; [| reflexivity].
  exfalso.
  assert (Hs : Prim2SF (abs f) = S754_nan).
  { unfold Prim2SF. rewrite E. reflexivity. }
  rewrite abs_spec in Hs. destruct (Prim2SF f); simpl in Hs; congruence.
Qed.

End FloatOrder.

Section SetsAndSorting.

Lemma sin_In s set : sin s set = true <-> In s set.
Proof.
  unfold sin. rewrite existsb_exists. split.
  - intros [x [Hin Heq]]. apply String.eqb_eq in Heq. now subst.
  - intros H. exists s. split; [assumption | apply String.eqb_refl].
Qed.

Lemma In_sadd x s set : In x (sadd s set) <-> x = s \/ In x set.
Proof.
  unfold sadd. destruct (sin s set) eqn:E.
  - apply sin_In in E. split; [auto | intros [-> | H]; assumption].
  - rewrite in_app_iff. simpl. split; intros H; intuition auto.
Qed.

Lemma In_insert (A : Type) (less : A -> A -> bool) (x y : A) (l : list A) :
  In x (insert less y l) <-> x = y \/ In x l.
Proof.
  induction l as [| z r IH]; simpl.
  - intuition auto.
  - destruct (less y z); simpl; [intuition auto |].
    rewrite IH. intuition auto.
Qed.

Lemma In_sortSlice (A : Type) (less : A -> A -> bool) (x : A) (l : list A) :
  In x (sortSlice less l) <-> In x l.
Proof.
  induction l as [| y r IH]; simpl; [reflexivity |].
  rewrite In_insert, IH. intuition auto.
Qed.

Lemma In_stringsOf s a set :
  In s (stringsOf a set) <-> In (VString s) a \/ In s set.
Proof.
  revert set. induction a as [| v r IH]; intros set; simpl.
  - intuition auto.
  - destruct v; rewrite IH; try rewrite In_sadd;
      split; intros H; intuition (try discriminate; auto).
    + left. left. congruence.
    + match goal with H : VString _ = VString _ |- _ => inversion H; auto end.
Qed.

Lemma In_sortedStrings s set : In (VString s) (sortedStrings set) <-> In s set.
Proof.
  unfold sortedStrings. rewrite in_map_iff. split.
  - intros [x [Heq Hin]]. inversion Heq; subst. now apply In_sortSlice in Hin.
  - intros H. exists s. split; [reflexivity | now apply In_sortSlice].
Qed.

End SetsAndSorting.

Section Scenarios.
Variable go : GoStdlib.

(** C1. Target [{"type":"number","minimum":0}] and candidate
    [{"type":"number","exclusiveMinimum":0}]: [InputCompatible] returns
    false and [OutputCompatible] returns true, for every normalizer and
    any positive bound on the depth.  At equal values an exclusive lower
    bound is strictly above an inclusive one: it is not less-or-equal, it
    is greater-or-equal, and the inclusive one is the reverse. *)
Theorem C1_exclusive_lower_bound_is_stricter (n : Normalizer) (k : nat) :
  let target := typed "number" [("minimum", JFloat 0)] in
  let candidate := typed "number" [("exclusiveMinimum", JFloat 0)] in
  fst (onSchemas [target; candidate] (InputCompatible go (S k) n)) = Ok false
  /\ fst (onSchemas [target; candidate] (OutputCompatible go (S k) n)) = Ok true
  /\ (forall a : float,
        lowerBoundLessOrEqual a true a false = false
        /\ lowerBoundGreaterOrEqual a true a false = true
        /\ lowerBoundLessOrEqual a false a true = true
        /\ lowerBoundGreaterOrEqual a false a true = false).
Proof.
  cbv zeta. split; [| split].
  - vm_compute. reflexivity.
  - vm_compute. reflexivity.
  - intros a. unfold lowerBoundLessOrEqual, lowerBoundGreaterOrEqual.
    rewrite ltb_irrefl. repeat split; reflexivity.
Qed.

(** C2. The type-set rule is directional, with [integer] covered by
    [number] on the superset side: [InputCompatible({"type":"integer"},
    {"type":"number"})] is true and [OutputCompatible] of the same pair is
    false; so is [subsetTypes] on the two type sets, which holds of two
    declared type sets when every type of the first is in the second or is
    [integer] with [number] in the second. *)
Theorem C2_integer_covered_by_number (n : Normalizer) (k : nat) :
  let target := typed "integer" [] in
  let candidate := typed "number" [] in
  fst (onSchemas [target; candidate] (InputCompatible go (S k) n)) = Ok true
  /\ fst (onSchemas [target; candidate] (OutputCompatible go (S k) n)) = Ok false
  /\ subsetTypes (Some ["integer"]) (Some ["number"]) = true
  /\ subsetTypes (Some ["number"]) (Some ["integer"]) = false
  /\ (forall a b : strset,
         subsetTypes (Some a) (Some b) = true <->
         forall t, In t a -> In t b \/ (t = "integer" /\ In "number" b)).
Proof.
  cbv zeta. repeat (split; [vm_compute; reflexivity |]).
  intros a b. unfold subsetTypes. rewrite forallb_forall.
  split; intros H t Ht; specialize (H t Ht).
  - apply orb_true_iff in H. destruct H as [H | H].
    + left. now apply sin_In.
    + apply andb_true_iff in H. destruct H as [H1 H2].
      right. split; [now apply String.eqb_eq | now apply sin_In].
  - apply orb_true_iff. destruct H as [H | [H1 H2]].
    + left. now apply sin_In.
    + right. apply andb_true_iff. split; [now apply String.eqb_eq | now apply sin_In].
Qed.

(** C3, at the input [{"$ref": ""}]: [Normalize] succeeds and the schema
    it returns is [{"$ref": ""}], which has the key [$ref]. *)
Theorem C3_blank_ref_is_returned (n : Normalizer) (k : nat) :
  let r := onSchemas [JObj [("$ref", JString "")]] (fun s _ => Normalize go (S k) n s) in
  exists l, fst r = Ok l
            /\ readBack 1 (heap (snd r)) (VMap l) = Some (JObj [("$ref", JString "")])
            /\ hasKey (contents (heap (snd r)) l) "$ref" = true.
Proof.
  cbv zeta. eexists. vm_compute. repeat split; reflexivity.
Qed.

(** C4, at target [{"type":"number"}] and candidate
    [{"type":"number","minimum":5}]: the candidate's lower bound 5 is above
    the target's, which has none, and [InputCompatible] returns true; in
    the input direction [compatNumericBounds] returns true on every
    candidate when the target declares no bound. *)
Theorem C4_candidate_bound_without_target_bound (n : Normalizer) (k : nat) :
  let target := typed "number" [] in
  let candidate := typed "number" [("minimum", JFloat 5)] in
  fst (onSchemas [target; candidate] (InputCompatible go (S k) n)) = Ok true
  /\ effectiveLowerBound go [("type", VSlice [VString "number"]); ("minimum", VFloat64 5)]
     = (5%float, false)
  /\ compatNumericBounds go [("type", VSlice [VString "number"])]
       [("type", VSlice [VString "number"]); ("minimum", VFloat64 5)] true = Ok true
  /\ (forall tgt cand,
         hasKey tgt "minimum" = false -> hasKey tgt "exclusiveMinimum" = false ->
         hasKey tgt "maximum" = false -> hasKey tgt "exclusiveMaximum" = false ->
         compatNumericBounds go tgt cand true = Ok true).
Proof.
  cbv zeta. split; [| split; [| split]]; try (vm_compute; reflexivity).
  intros tgt cand H1 H2 H3 H4. unfold compatNumericBounds.
  destruct (effectiveLowerBound go tgt), (effectiveLowerBound go cand),
           (effectiveUpperBound go tgt), (effectiveUpperBound go cand).
  rewrite H1, H2, H3, H4. reflexivity.
Qed.

(** C7, at the input [nestedAllOf]: before the call the store holds the
    input as given; after [Normalize] has returned a schema, the first
    branch of the input's [allOf] has the property [y] of the second. *)
Theorem C7_input_is_mutated (n : Normalizer) (k : nat) :
  let r := onSchemas [nestedAllOf] (fun s _ => Normalize go (4 + k) n s) in
  inputOf [nestedAllOf] (snd (allocAll [nestedAllOf] emptyState)) = Some nestedAllOf
  /\ (exists l, fst r = Ok l)
  /\ inputOf [nestedAllOf] (snd r)
     = Some (JObj [("allOf", JArr [nestedProperty ["x"; "y"]; nestedProperty ["y"]])])
  /\ inputOf [nestedAllOf] (snd r) <> Some nestedAllOf.
Proof.
  cbv zeta. split; [| split; [| split]].
  - vm_compute. reflexivity.
  - eexists. vm_compute. reflexivity.
  - vm_compute. reflexivity.
  - vm_compute. discriminate.
Qed.

End Scenarios.

(** The same sharing reaches a schema that [normalizeAt] has already
    returned: with [sharedConst] as root and schema (its property [p1]
    visited before [p2]), the variants of [p1]'s union are sorted, then the
    merge for [p2] adds [zz] to the map that the first variant's [const]
    holds, and the union of the result is no longer in the order of the
    canonical strings. *)
Example union_order_after_merge :
  let r := run [sharedConst]
             (fun vs => Normalize goTable 6 (plainNormalizer (nth 0 vs VNil))
                          (schemaOf (nth 0 vs VNil))) in
  exists l,
    fst r = Ok l
    /\ readBack 9 (heap (snd r)) (VMap l)
       = Some (properties
                 [("p1", JObj [("oneOf", JArr [constant ["m"; "zzz"]; constant ["m"; "zz"]])]);
                  ("p2", properties [("a", properties [("m", JObj []); ("zz", JObj [])])])])
    /\ exists first second,
         Marshal goTable (constant ["m"; "zzz"]) = Ok first
         /\ Marshal goTable (constant ["m"; "zz"]) = Ok second
         /\ Str.lt second first = true.
Proof.
  cbv zeta. eexists. split; [vm_compute; reflexivity |].
  split; [vm_compute; reflexivity |].
  eexists. eexists. repeat split; vm_compute; reflexivity.
Qed.

Section References.
Variable go : GoStdlib.

Lemma resolveRef_cycle n ref path u0 u s :
  url_Parse go ref = inr u0 -> againstBase go n u0 = Some u ->
  sin (url_String go u) (refStack s) = true ->
  resolveRef go n ref path s
  = (Fail (RefError (pathOrRoot path) ref "cycle detected"), s).
Proof.
  intros Hp Hb Hin. unfold resolveRef. rewrite Hp, Hb.
  unfold bind, inStack. rewrite Hin. reflexivity.
Qed.

Lemma resolveRef_root n ref path u0 u s v :
  url_Parse go ref = inr u0 -> againstBase go n u0 = Some u ->
  sin (url_String go u) (refStack s) = false ->
  fragmentOnly u ref = true ->
  resolveJSONPointer go (heap s) (Root n) (Fragment u) = Ok v ->
  resolveRef go n ref path s
  = (Ok (v, url_String go u),
     mkState (heap s) (sadd (url_String go u) (refStack s))).
Proof.
  intros Hp Hb Hin Hf Hv. unfold resolveRef. rewrite Hp, Hb.
  unfold bind, inStack. rewrite Hin. unfold push, refDocument. rewrite Hf.
  unfold ret, getHeap. simpl. rewrite Hv. reflexivity.
Qed.

Lemma resolveRef_no_base n ref path u s :
  url_Parse go ref = inr u -> IsAbs u = false -> UPath u <> "" -> Base n = None ->
  resolveRef go n ref path s
  = (Fail (RefError (pathOrRoot path) ref "relative $ref with no base"), s).
Proof.
  intros Hp Habs Hpath Hbase. unfold resolveRef, againstBase.
  rewrite Hp, Habs, Hbase.
  destruct (String.eqb_spec (UPath u) ""); [contradiction | reflexivity].
Qed.

Lemma resolveRef_no_fetcher n ref path u0 u s :
  url_Parse go ref = inr u0 -> againstBase go n u0 = Some u ->
  sin (url_String go u) (refStack s) = false ->
  fragmentOnly u ref = false -> Fetch n = None ->
  resolveRef go n ref path s
  = (Fail (RefError (pathOrRoot path) ref "external $ref unsupported (no fetcher)"),
     pop (url_String go u) (mkState (heap s) (sadd (url_String go u) (refStack s)))).
Proof.
  intros Hp Hb Hin Hf Hfetch. unfold resolveRef. rewrite Hp, Hb.
  unfold bind, inStack. rewrite Hin. unfold push, refDocument.
  rewrite Hf, Hfetch. reflexivity.
Qed.

(** One step of [normalizeAt] on a schema with a usable [$ref]. *)
Lemma normalizeAt_ref fuel n sl path ref s :
  assertProfileKeywords (contents (heap s) sl) path = Ok tt ->
  refOf (contents (heap s) sl) = Some ref ->
  normalizeAt go (S fuel) n (Some sl) path s
  = bind (resolveRef go n ref path)
      (fun r => defer (pop (snd r))
         match asMap (fst r) with
         | None => raise (RefError path ref "resolved $ref is not an object")
         | Some rm => normalizeAt go fuel n (Some rm) path
         end) s.
Proof.
  intros Ha Hr. simpl. unfold bind at 1. unfold load.
  unfold bind at 1. unfold lift. rewrite Ha, Hr. reflexivity.
Qed.

(** C5. [resolveRef] fails with a [RefError] whose cause tells the case:
    a relative reference (not absolute, with a path) without a base has
    cause "relative $ref with no base"; a reference that is not
    fragment-only, not yet on the stack, without a fetcher has a cause that
    contains "external $ref unsupported", and leaves the store as it was;
    and with root [{"a": {"$ref": "#/a"}}], normalizing [{"$ref": "#/a"}]
    fails with cause "cycle detected", whenever [url.Parse] reads "#/a" as
    the fragment [/a] alone. *)
Theorem C5_reference_errors :
  (forall n ref path u s,
      url_Parse go ref = inr u -> IsAbs u = false -> UPath u <> "" -> Base n = None ->
      resolveRef go n ref path s
      = (Fail (RefError (pathOrRoot path) ref "relative $ref with no base"), s))
  /\ (forall n ref path u0 u s,
         url_Parse go ref = inr u0 -> againstBase go n u0 = Some u ->
         sin (url_String go u) (refStack s) = false ->
         fragmentOnly u ref = false -> Fetch n = None ->
         exists cause,
           fst (resolveRef go n ref path s) = Fail (RefError (pathOrRoot path) ref cause)
           /\ Str.Contains cause "external $ref unsupported" = true
           /\ heap (snd (resolveRef go n ref path s)) = heap s)
  /\ (forall u base fetch k,
         url_Parse go "#/a" = inr u ->
         Scheme u = "" -> UPath u = "" -> Fragment u = "/a" ->
         fst (run [JObj [("a", selfRef)]; selfRef]
                (fun vs => Normalize go (2 + k)
                             {| Root := nth 0 vs VNil; Base := base; Fetch := fetch |}
                             (schemaOf (nth 1 vs VNil))))
         = Fail (RefError "<root>" "#/a" "cycle detected")).
Proof.
  split; [| split].
  - intros n ref path u s Hp Ha Hpath Hb. eapply resolveRef_no_base; eassumption.
  - intros n ref path u0 u s Hp Hb Hin Hf Hfetch.
    exists "external $ref unsupported (no fetcher)".
    rewrite resolveRef_no_fetcher with (u0 := u0) (u := u); try assumption.
    repeat split; reflexivity.
  - intros u b f k Hp Hs Hpath Hf.
    assert (Hb : forall n, againstBase go n u = Some u).
    { intros n. unfold againstBase. rewrite Hpath, andb_false_r. reflexivity. }
    assert (Hfo : fragmentOnly u "#/a" = true).
    { unfold fragmentOnly. rewrite Hs, Hpath, Hf. reflexivity. }
    unfold run, bind.
    change (allocAll [JObj [("a", selfRef)]; selfRef] emptyState)
      with (Ok [VMap 1; VMap 2],
            mkState [[("$ref", VString "#/a")]; [("a", VMap 0)];
                     [("$ref", VString "#/a")]] []).
    cbv beta iota. unfold Normalize, bind, resetStack. cbv beta iota.
    change (2 + k) with (S (S k)).
    change (schemaOf (nth 1 [VMap 1; VMap 2] VNil)) with (Some 2).
    rewrite normalizeAt_ref with (ref := "#/a"); [| reflexivity | reflexivity].
    unfold bind at 1.
    rewrite resolveRef_root with (u0 := u) (u := u) (v := VMap 0);
      try assumption; try apply Hb; try reflexivity.
    2:{ simpl. rewrite Hf. reflexivity. }
    cbv beta iota. unfold defer.
    change (asMap (fst (VMap 0, url_String go u))) with (Some 0).
    cbv beta iota.
    rewrite normalizeAt_ref with (ref := "#/a"); [| reflexivity | reflexivity].
    unfold bind at 1.
    rewrite resolveRef_cycle with (u0 := u) (u := u); try assumption; try apply Hb.
    + reflexivity.
    + simpl. rewrite String.eqb_refl. reflexivity.
Qed.

End References.

(** The three failures at the references of the package's tests, with the
    library [goTable]. *)
Lemma C5_reference_errors_witness :
  (forall s, resolveRef goTable (plainNormalizer VNil) "schemas.json#/schemas/Foo" "" s
             = (Fail (RefError "<root>" "schemas.json#/schemas/Foo"
                        "relative $ref with no base"), s))
  /\ (exists cause,
         fst (resolveRef goTable (plainNormalizer VNil)
                "https://example.com/schema.json#/schemas/Foo" "" emptyState)
         = Fail (RefError "<root>" "https://example.com/schema.json#/schemas/Foo" cause)
         /\ Str.Contains cause "external $ref unsupported" = true)
  /\ fst (run [JObj [("a", selfRef)]; selfRef]
            (fun vs => Normalize goTable 2 (plainNormalizer (nth 0 vs VNil))
                         (schemaOf (nth 1 vs VNil))))
     = Fail (RefError "<root>" "#/a" "cycle detected").
Proof.
  destruct (C5_reference_errors goTable) as [Hrel [Hext Hcyc]].
  split; [| split].
  - intros s.
    apply (Hrel (plainNormalizer VNil) "schemas.json#/schemas/Foo" ""
                (mkURL "" "" "schemas.json" "" "/schemas/Foo") s);
      [reflexivity | reflexivity | discriminate | reflexivity].
  - destruct (Hext (plainNormalizer VNil) "https://example.com/schema.json#/schemas/Foo" ""
                (mkURL "https" "example.com" "/schema.json" "" "/schemas/Foo")
                (mkURL "https" "example.com" "/schema.json" "" "/schemas/Foo")
                emptyState) as [cause [H1 [H2 _]]]; try reflexivity.
    exists cause. split; assumption.
  - apply (Hcyc (mkURL "" "" "" "" "/a") None None 0); reflexivity.
Defined.

Section AllOfTypes.
Variable go : GoStdlib.

(** What [intersectTypeSlices] returns, by membership. *)
Lemma intersectTypeSlices_spec a b s :
  In (VString s) (intersectTypeSlices a b) <->
  (isNumeric s = false /\ In (VString s) a /\ In (VString s) b)
  \/ (s = "number" /\ In (VString "number") a /\ In (VString "number") b)
  \/ (s = "integer"
      /\ (In (VString "number") a \/ In (VString "integer") a)
      /\ (In (VString "number") b \/ In (VString "integer") b)
      /\ ~ (In (VString "number") a /\ In (VString "number") b)).
Proof.
  unfold intersectTypeSlices. rewrite In_sortedStrings.
  set (aSet := stringsOf a []). set (bSet := stringsOf b []).
  assert (HA : forall x, In x aSet <-> In (VString x) a).
  { intros x. unfold aSet. rewrite In_stringsOf. simpl. intuition auto. }
  assert (HB : forall x, In x bSet <-> In (VString x) b).
  { intros x. unfold bSet. rewrite In_stringsOf. simpl. intuition auto. }
  set (F := filter (fun s => negb (isNumeric s) && sin s bSet) aSet).
  assert (Hf : forall x,
             In x F <-> isNumeric x = false /\ In (VString x) a /\ In (VString x) b).
  { intros x. unfold F.
    rewrite filter_In, andb_true_iff, negb_true_iff, sin_In, HA, HB.
    intuition auto. }
  rewrite <- (HA "number"), <- (HB "number"), <- (HA "integer"), <- (HB "integer").
  rewrite <- (sin_In "number" aSet), <- (sin_In "number" bSet),
          <- (sin_In "integer" aSet), <- (sin_In "integer" bSet).
  destruct (sin "number" aSet) eqn:EaN, (sin "number" bSet) eqn:EbN,
           (sin "integer" aSet) eqn:EaI, (sin "integer" bSet) eqn:EbI;
    cbn [andb orb]; rewrite ?In_sadd, Hf;
    split; intros H; intuition (subst; try discriminate; auto).
Qed.

(** The first step of [mergeAllOfBranch]: both sides have a type and the
    intersection is empty. *)
Lemma mergeAllOfBranch_empty_types fuel acc branch path s bt bTypes at_ aTypes :
  mget "type" (contents (heap s) branch) = Some bt ->
  normalizeType bt = Ok bTypes ->
  mget "type" (contents (heap s) acc) = Some at_ ->
  normalizeType at_ = Ok aTypes ->
  intersectTypeSlices aTypes bTypes = [] ->
  mergeAllOfBranch go (S fuel) acc branch path s
  = (Fail (SchemaError path "allOf type intersection is empty"), s).
Proof.
  intros Hb HbT Ha HaT Hi. simpl. unfold mergeSteps.
  unfold bind at 1. unfold mergeType.
  unfold bind at 1. unfold mapGet at 1. rewrite Hb.
  unfold bind at 1. unfold lift at 1. rewrite HbT. simpl.
  unfold bind at 1. unfold mapGet at 1. rewrite Ha.
  unfold bind at 1. unfold lift at 1. rewrite HaT. simpl.
  rewrite Hi. reflexivity.
Qed.

(** C6. Flattening [allOf] intersects the type sets with [integer]
    narrower than [number]: a non-numeric type is in the result when it is
    on both sides; [number] when both sides have [number]; [integer] when
    both sides accept numbers and not both have [number].  When both the
    accumulator and the branch have a type and the intersection is empty,
    the merge fails with a [SchemaError]; so normalizing
    [{"allOf":[{"type":"string"},{"type":"number"}]}] returns a
    [SchemaError]. *)
Theorem C6_allOf_type_intersection :
  (forall a b s,
      In (VString s) (intersectTypeSlices a b) <->
      (isNumeric s = false /\ In (VString s) a /\ In (VString s) b)
      \/ (s = "number" /\ In (VString "number") a /\ In (VString "number") b)
      \/ (s = "integer"
          /\ (In (VString "number") a \/ In (VString "integer") a)
          /\ (In (VString "number") b \/ In (VString "integer") b)
          /\ ~ (In (VString "number") a /\ In (VString "number") b)))
  /\ intersectTypeSlices [VString "number"] [VString "number"] = [VString "number"]
  /\ intersectTypeSlices [VString "number"] [VString "integer"] = [VString "integer"]
  /\ intersectTypeSlices [VString "integer"] [VString "number"] = [VString "integer"]
  /\ intersectTypeSlices [VString "integer"] [VString "integer"] = [VString "integer"]
  /\ (forall fuel acc branch path s bt bTypes at_ aTypes,
         mget "type" (contents (heap s) branch) = Some bt ->
         normalizeType bt = Ok bTypes ->
         mget "type" (contents (heap s) acc) = Some at_ ->
         normalizeType at_ = Ok aTypes ->
         intersectTypeSlices aTypes bTypes = [] ->
         mergeAllOfBranch go (S fuel) acc branch path s
         = (Fail (SchemaError path "allOf type intersection is empty"), s))
  /\ (forall n k,
         fst (onSchemas [JObj [("allOf", JArr [typed "string" []; typed "number" []])]]
                (fun s _ => Normalize go (2 + k) n s))
         = Fail (SchemaError "allOf[1]" "allOf type intersection is empty")).
Proof.
  split; [exact intersectTypeSlices_spec |].
  repeat (split; [reflexivity |]).
  split; [exact mergeAllOfBranch_empty_types |].
  intros n k. vm_compute. reflexivity.
Qed.

End AllOfTypes.

(** The merge of a branch of type [number] into an accumulator of type
    [string], with the library [goTable]. *)
Lemma C6_allOf_type_intersection_witness :
  let s := mkState [[("type", VSlice [VString "string"])]; [("type", VString "number")]] [] in
  mergeAllOfBranch goTable 1 0 1 "allOf[1]" s
  = (Fail (SchemaError "allOf[1]" "allOf type intersection is empty"), s).
Proof.
  cbv zeta.
  apply (proj1 (proj2 (proj2 (proj2 (proj2 (proj2 (C6_allOf_type_intersection goTable)))))))
    with (bt := VString "number") (bTypes := [VString "number"])
         (at_ := VSlice [VString "string"]) (aTypes := [VString "string"]);
    reflexivity.
Defined.

Section MapLemmas.
Variable V : Type.

Lemma mget_mset_same k (v : V) m : mget k (mset k v m) = Some v.
Proof.
  induction m as [| [k' v'] r IH]; simpl.
  - now rewrite String.eqb_refl.
  - destruct (String.eqb k k') eqn:E; simpl; rewrite ?String.eqb_refl, ?E; auto.
Qed.

Lemma mget_mset_other k k' (v : V) m : k' <> k -> mget k' (mset k v m) = mget k' m.
Proof.
  intros Hne. induction m as [| [k0 v0] r IH]; simpl.
  - destruct (String.eqb_spec k' k); [contradiction | reflexivity].
  - destruct (String.eqb_spec k k0) as [-> | Hk]; simpl.
    + destruct (String.eqb_spec k' k0); [contradiction | reflexivity].
    + destruct (String.eqb k' k0); [reflexivity | exact IH].
Qed.

Lemma mset_not_empty k (v : V) m : (List.length (mset k v m) =? 0)%nat = false.
Proof. destruct m as [| [k' v'] r]; simpl; [| destruct (String.eqb k k')]; reflexivity. Qed.
End MapLemmas.

Section Bounds.
Variable go : GoStdlib.
Local Abbreviation alike := (alike go).

Lemma alike_hasKey m m' key : alike m m' -> hasKey m key = hasKey m' key.
Proof.
  intros [_ [_ H]]. specialize (H key). unfold hasKey.
  destruct (mget key m), (mget key m'); simpl in H; congruence.
Qed.

Lemma alike_value m m' key : alike m m' ->
  toFloat64 go (valueAt m key) = toFloat64 go (valueAt m' key).
Proof.
  intros [_ [_ H]]. specialize (H key). unfold valueAt.
  destruct (mget key m), (mget key m'); simpl in H; congruence.
Qed.

Lemma alike_lower m m' : alike m m' -> effectiveLowerBound go m = effectiveLowerBound go m'.
Proof.
  intros [_ [_ H]]. unfold effectiveLowerBound.
  pose proof (H "minimum") as H1. pose proof (H "exclusiveMinimum") as H2.
  destruct (mget "minimum" m), (mget "minimum" m'),
           (mget "exclusiveMinimum" m), (mget "exclusiveMinimum" m');
    simpl in H1, H2; try discriminate; try reflexivity;
    try injection H1 as H1; try injection H2 as H2;
    rewrite ?H1, ?H2; reflexivity.
Qed.

Lemma alike_upper m m' : alike m m' -> effectiveUpperBound go m = effectiveUpperBound go m'.
Proof.
  intros [_ [_ H]]. unfold effectiveUpperBound.
  pose proof (H "maximum") as H1. pose proof (H "exclusiveMaximum") as H2.
  destruct (mget "maximum" m), (mget "maximum" m'),
           (mget "exclusiveMaximum" m), (mget "exclusiveMaximum" m');
    simpl in H1, H2; try discriminate; try reflexivity;
    try injection H1 as H1; try injection H2 as H2;
    rewrite ?H1, ?H2; reflexivity.
Qed.

Lemma alike_numeric t t' c c' isInput : alike t t' -> alike c c' ->
  compatNumericBounds go t c isInput = compatNumericBounds go t' c' isInput.
Proof.
  intros Ht Hc. unfold compatNumericBounds.
  rewrite (alike_lower Ht), (alike_lower Hc), (alike_upper Ht), (alike_upper Hc).
  rewrite !(alike_hasKey _ Ht), !(alike_hasKey _ Hc). reflexivity.
Qed.

Lemma alike_simple t t' c c' isInput minKey maxKey : alike t t' -> alike c c' ->
  compatSimpleBounds go t c isInput minKey maxKey
  = compatSimpleBounds go t' c' isInput minKey maxKey.
Proof.
  intros Ht Hc. unfold compatSimpleBounds.
  rewrite !(alike_hasKey _ Ht), !(alike_hasKey _ Hc).
  rewrite !(alike_value _ Ht), !(alike_value _ Hc). reflexivity.
Qed.

Lemma alike_get m m' key : alike m m' -> ~ In key boundKeys -> mget key m = mget key m'.
Proof. intros [_ [H _]]. apply H. Qed.

Lemma alike_typeSet m m' : alike m m' -> typeSet m = typeSet m'.
Proof. intros H. unfold typeSet. rewrite (alike_get H) by notBound. reflexivity. Qed.

Lemma alike_hasType m m' t : alike m m' -> hasType m t = hasType m' t.
Proof. intros H. unfold hasType. now rewrite (alike_typeSet H). Qed.

Lemma alike_hasUnion m m' : alike m m' -> hasUnion m = hasUnion m'.
Proof. intros H. unfold hasUnion. now rewrite !(alike_hasKey _ H). Qed.

Lemma alike_subMap h m m' key : alike m m' -> ~ In key boundKeys ->
  subMap h m key = subMap h m' key.
Proof. intros H Hk. unfold subMap. now rewrite (alike_get H Hk). Qed.

Lemma alike_constEnum h t t' c c' isInput : alike t t' -> alike c c' ->
  compatConstEnum go h t c isInput = compatConstEnum go h t' c' isInput.
Proof.
  intros Ht Hc. unfold compatConstEnum, enumSet.
  rewrite (alike_get (key := "const") Ht), (alike_get (key := "const") Hc),
          (alike_get (key := "enum") Ht), (alike_get (key := "enum") Hc) by notBound.
  reflexivity.
Qed.

Lemma alike_object rec h t t' c c' isInput : alike t t' -> alike c c' ->
  compatObject rec h t c isInput = compatObject rec h t' c' isInput.
Proof.
  intros Ht Hc. unfold compatObject.
  rewrite (alike_get (key := "required") Ht), (alike_get (key := "required") Hc),
          (alike_get (key := "additionalProperties") Ht),
          (alike_get (key := "additionalProperties") Hc) by notBound.
  rewrite (alike_subMap h (key := "properties") Ht),
          (alike_subMap h (key := "properties") Hc) by notBound.
  reflexivity.
Qed.

Lemma alike_array rec h t t' c c' isInput : alike t t' -> alike c c' ->
  compatArray rec h t c isInput = compatArray rec h t' c' isInput.
Proof.
  intros Ht Hc. unfold compatArray.
  rewrite (alike_subMap h (key := "items") Ht),
          (alike_subMap h (key := "items") Hc) by notBound.
  reflexivity.
Qed.

Lemma alike_variants h m m' : alike m m' -> unionVariants h m = unionVariants h m'.
Proof.
  intros H. unfold unionVariants. rewrite !(alike_hasKey _ H).
  destruct (hasKey m' "oneOf"); [| destruct (hasKey m' "anyOf")];
    try rewrite (alike_get H) by notBound; reflexivity.
Qed.

Lemma alike_union rec h t t' c c' isInput : alike t t' -> alike c c' ->
  compatUnion rec h t c isInput = compatUnion rec h t' c' isInput.
Proof.
  intros Ht Hc. unfold compatUnion.
  now rewrite (alike_variants h Ht), (alike_variants h Hc).
Qed.

(** The decider gives the same answer on schemas that are alike. *)
Lemma alike_compat fuel h t t' c c' isInput : alike t t' -> alike c c' ->
  compat go fuel h t c isInput = compat go fuel h t' c' isInput.
Proof.
  intros Ht Hc. destruct fuel as [| fuel]; [reflexivity |]. simpl.
  destruct Ht as [Et Ht'], Hc as [Ec Hc'].
  rewrite Et, Ec.
  assert (Ht : alike t t') by (split; assumption).
  assert (Hc : alike c c') by (split; assumption).
  rewrite (alike_typeSet Ht), (alike_typeSet Hc).
  rewrite !(alike_hasType _ Ht), !(alike_hasType _ Hc).
  rewrite (alike_hasUnion Ht), (alike_hasUnion Hc).
  rewrite (alike_constEnum h isInput Ht Hc).
  rewrite (alike_object (compat go fuel h) h isInput Ht Hc).
  rewrite (alike_array (compat go fuel h) h isInput Ht Hc).
  rewrite (alike_numeric isInput Ht Hc).
  unfold compatStringBounds, compatArrayBounds.
  rewrite !(alike_simple isInput _ _ Ht Hc).
  rewrite (alike_union (compat go fuel h) h isInput Ht Hc).
  reflexivity.
Qed.

Lemma alike_refl m : alike m m.
Proof. repeat split; reflexivity. Qed.

(** Putting [v] or [v'] at a bound keyword gives schemas that are alike
    when the two convert to the same number. *)
Lemma alike_mset k v v' m :
  In k boundKeys -> toFloat64 go v = toFloat64 go v' ->
  alike (mset k v m) (mset k v' m).
Proof.
  intros Hk Hv. split; [| split].
  - unfold isEmpty. now rewrite !mset_not_empty.
  - intros key Hkey. assert (key <> k) by (intros ->; contradiction).
    now rewrite !mget_mset_other.
  - intros key. destruct (String.eqb_spec key k) as [-> | Hne].
    + rewrite !mget_mset_same. simpl. now rewrite Hv.
    + now rewrite !mget_mset_other.
Qed.

Lemma unrecognised_zero v : recognised v = false -> toFloat64 go v = 0%float.
Proof. destruct v; simpl; intros H; try reflexivity; discriminate. Qed.

(** C10. A bound whose value is not a [float64], an integer or a
    [json.Number] is compared as the number 0 and no comparison fails:
    [toFloat64] gives 0 for it; the bound comparisons always return a
    boolean, never an error; and with such a value at a bound keyword of
    the target or of the candidate, the bound comparisons and the whole
    decider [compat] return what they return with 0 there. *)
Theorem C10_unrecognised_bound_compares_as_zero (v : val) (k : string)
    (Hv : recognised v = false) (Hk : In k boundKeys) :
  toFloat64 go v = 0%float
  /\ (forall tgt cand isInput,
         (exists b, compatNumericBounds go tgt cand isInput = Ok b)
         /\ (forall minKey maxKey,
                exists b, compatSimpleBounds go tgt cand isInput minKey maxKey = Ok b))
  /\ (forall tgt cand isInput,
         compatNumericBounds go (mset k v tgt) cand isInput
         = compatNumericBounds go (mset k (VFloat64 0) tgt) cand isInput
         /\ compatNumericBounds go tgt (mset k v cand) isInput
            = compatNumericBounds go tgt (mset k (VFloat64 0) cand) isInput)
  /\ (forall tgt cand isInput minKey maxKey,
         compatSimpleBounds go (mset k v tgt) cand isInput minKey maxKey
         = compatSimpleBounds go (mset k (VFloat64 0) tgt) cand isInput minKey maxKey
         /\ compatSimpleBounds go tgt (mset k v cand) isInput minKey maxKey
            = compatSimpleBounds go tgt (mset k (VFloat64 0) cand) isInput minKey maxKey)
  /\ (forall fuel h tgt cand isInput,
         compat go fuel h (mset k v tgt) cand isInput
         = compat go fuel h (mset k (VFloat64 0) tgt) cand isInput
         /\ compat go fuel h tgt (mset k v cand) isInput
            = compat go fuel h tgt (mset k (VFloat64 0) cand) isInput).
Proof.
  pose proof (unrecognised_zero v Hv) as Hz.
  assert (Ha : forall m, alike (mset k v m) (mset k (VFloat64 0) m)).
  { intros m. apply alike_mset; [assumption | now rewrite Hz]. }
  split; [exact Hz |]. split; [| split; [| split]].
  - intros tgt cand isInput. split.
    + unfold compatNumericBounds.
      destruct (effectiveLowerBound go tgt), (effectiveLowerBound go cand),
               (effectiveUpperBound go tgt), (effectiveUpperBound go cand).
      destruct isInput;
        repeat match goal with
               | |- context [if ?c then _ else _] => destruct c
               end; eexists; reflexivity.
    + intros minKey maxKey. unfold compatSimpleBounds.
      destruct isInput;
        repeat match goal with
               | |- context [if ?c then _ else _] => destruct c
               end; eexists; reflexivity.
  - intros. split; apply alike_numeric; auto using alike_refl.
  - intros. split; apply alike_simple; auto using alike_refl.
  - intros. split; apply alike_compat; auto using alike_refl.
Qed.

End Bounds.

(** A [minimum] that is the string "abc", with the library [goTable]. *)
Lemma C10_unrecognised_bound_witness :
  toFloat64 goTable (VString "abc") = 0%float
  /\ compatNumericBounds goTable
       [("type", VSlice [VString "number"]); ("minimum", VString "abc")]
       [("type", VSlice [VString "number"]); ("minimum", VFloat64 1)] true
     = compatNumericBounds goTable
         [("type", VSlice [VString "number"]); ("minimum", VFloat64 0)]
         [("type", VSlice [VString "number"]); ("minimum", VFloat64 1)] true.
Proof.
  destruct (@C10_unrecognised_bound_compares_as_zero goTable (VString "abc") "minimum"
              eq_refl (or_introl eq_refl)) as [Hz [_ [Hn _]]].
  split; [exact Hz |].
  exact (proj1 (Hn [("type", VSlice [VString "number"]); ("minimum", VFloat64 7)]
                   [("type", VSlice [VString "number"]); ("minimum", VFloat64 1)] true)).
Defined.

Section StringLemmas.

Lemma IndexByte_app m c r :
  Str.IndexByte m c = None -> Str.IndexByte (m ++ String c r) c = Some (String.length m).
Proof.
  induction m as [| a m IH]; simpl; intros H.
  - now rewrite Ascii.eqb_refl.
  - destruct (Ascii.eqb a c); [discriminate |].
    destruct (Str.IndexByte m c); [discriminate |].
    now rewrite IH.
Qed.

Lemma length_app (m r : string) :
  String.length (m ++ r) = (String.length m + String.length r)%nat.
Proof. induction m as [| a m IH]; simpl; [reflexivity | now rewrite IH]. Qed.

Lemma append_assoc (a b c : string) : (a ++ b) ++ c = a ++ (b ++ c).
Proof. induction a as [| x a IH]; simpl; [reflexivity | now rewrite IH]. Qed.

Lemma get_app m r k : String.get (String.length m + k) (m ++ r) = String.get k r.
Proof. induction m as [| a m IH]; simpl; [reflexivity | exact IH]. Qed.

Lemma drop_app m r k : Str.drop (String.length m + k) (m ++ r) = Str.drop k r.
Proof. induction m as [| a m IH]; simpl; [reflexivity | exact IH]. Qed.

Lemma substring_app m c r :
  String.substring 0 (String.length m + 1) (m ++ String c r) = m ++ String c "".
Proof.
  induction m as [| a m IH]; simpl; [destruct r; reflexivity | now rewrite IH].
Qed.

(** [trimZeros] takes zeros off the front and never the last digit. *)
Lemma trimZeros_spec d :
  d <> "" ->
  exists zeros,
    d = zeros ++ trimZeros d
    /\ Forall (fun c => c = "0"%char) (Str.bytes zeros)
    /\ trimZeros d <> ""
    /\ (forall r, trimZeros d = String "0" r -> r = "").
Proof.
  induction d as [| c d IH]; [contradiction |]. intros _.
  destruct d as [| c' d'].
  - exists "". simpl. repeat split; [constructor | discriminate |].
    intros r H. now inversion H.
  - change (trimZeros (String c (String c' d')))
      with (if Ascii.eqb c "0" then trimZeros (String c' d') else String c (String c' d')).
    destruct (Ascii.eqb_spec c "0") as [-> | Hc].
    + destruct IH as [zeros [Hd [Hz [Hne Hlead]]]]; [discriminate |].
      exists (String "0" zeros). split; [| split; [| split]]; try assumption.
      * change (String "0" (String c' d') = String "0" (zeros ++ trimZeros (String c' d'))).
        f_equal. exact Hd.
      * constructor; [reflexivity | assumption].
    + exists "". simpl. repeat split; [constructor | discriminate |].
      intros r H. inversion H. contradiction.
Qed.

Lemma normalizeExponent_spec m sign digits :
  Str.IndexByte m "e" = None -> sign = "+"%char \/ sign = "-"%char -> digits <> "" ->
  normalizeExponent (m ++ String "e" (String sign digits))
  = m ++ String "e" (String sign (trimZeros digits)).
Proof.
  intros Hm Hs Hd. unfold normalizeExponent.
  rewrite IndexByte_app by assumption.
  rewrite length_app. simpl String.length.
  destruct digits as [| d0 dr]; [contradiction |].
  simpl String.length.
  replace (String.length m + S (S (S (String.length dr))) <=? String.length m + 2)%nat
    with false by (symmetry; apply Nat.leb_gt; lia).
  rewrite get_app. simpl String.get.
  rewrite substring_app, drop_app. simpl Str.drop.
  assert (He : Str.of_bytes (Str.encodeRune (Str.byteN sign)) = String sign "").
  { destruct Hs; subst; reflexivity. }
  rewrite He.
  rewrite append_assoc. reflexivity.
Qed.

End StringLemmas.

Section Numbers.
Variable go : GoStdlib.

Lemma formatJCSFloat64_range f :
  nonFinite f = false -> (f =? 0)%float = false ->
  formatJCSFloat64 go f
  = Ok (zeroFix (if (1e-6 <=? abs f)%float && (abs f <? 1e21)%float
                 then strconv_FormatFloat go f "f"
                 else normalizeExponent (strconv_FormatFloat go f "e"))).
Proof.
  intros Hfin Hz. unfold formatJCSFloat64. rewrite Hfin, Hz.
  assert (Hn : is_nan (abs f) = false).
  { apply abs_not_nan. unfold nonFinite in Hfin.
    now destruct (is_nan f). }
  rewrite (@leb_negb_ltb (abs f) 1e21 Hn eq_refl).
  assert (Hlo : (abs f <? 1e-6)%float = negb (1e-6 <=? abs f)%float).
  { rewrite (@leb_negb_ltb (abs f) 1e-6 Hn eq_refl). now rewrite negb_involutive. }
  rewrite Hlo. unfold zeroFix.
  destruct (1e-6 <=? abs f)%float, (abs f <? 1e21)%float; simpl;
    match goal with |- context [String.eqb ?s "-0"] => destruct (String.eqb s "-0") end;
    reflexivity.
Qed.

Lemma writeJCS_obj m :
  writeJCS go (JObj m)
  = rbind (writeMembers (map (fun kv => (fst kv, writeJCS go (snd kv))) m) (sortedKeys m))
      (fun ms => Ok ("{" ++ Str.join "," ms ++ "}")).
Proof.
  simpl. f_equal. f_equal.
  induction m as [| [k x] r IH]; simpl; [reflexivity | now rewrite IH].
Qed.

(** C9. Every number is parsed with [strconv.ParseFloat] and a parse error
    is returned; NaN and the infinities fail; a zero of either sign is
    written "0"; a finite non-zero [f] is written in the decimal form of
    [FormatFloat(f, 'f')] when [1e-6 <= |f| < 1e21] and otherwise in the
    exponent form of [FormatFloat(f, 'e')], the zeros at the front of the
    exponent's digits removed (never the last digit); and when [strconv]
    reads and prints 1e-6 and 1e-7 as Go's does, [Marshal] of
    [{"n":1e-6,"m":1e-7}] is the bytes [{"m":1e-7,"n":0.000001}]. *)
Theorem C9_number_canonicalization :
  (forall s, writeJCS go (JNumber s) = formatJCSNumber go s)
  /\ (forall s, formatJCSNumber go s
             = match strconv_ParseFloat go s with
               | (f, None) => formatJCSFloat64 go f
               | (_, Some e) => Fail (PlainError e)
               end)
  /\ (forall f, nonFinite f = true ->
                formatJCSFloat64 go f
                = Fail (PlainError "invalid JSON number: NaN or Infinity"))
  /\ formatJCSFloat64 go nan = Fail (PlainError "invalid JSON number: NaN or Infinity")
  /\ formatJCSFloat64 go infinity = Fail (PlainError "invalid JSON number: NaN or Infinity")
  /\ formatJCSFloat64 go neg_infinity
     = Fail (PlainError "invalid JSON number: NaN or Infinity")
  /\ formatJCSFloat64 go (-0)%float = Ok "0"
  /\ (forall f, nonFinite f = false -> (f =? 0)%float = false ->
                (1e-6 <=? abs f)%float && (abs f <? 1e21)%float = true ->
                formatJCSFloat64 go f = Ok (zeroFix (strconv_FormatFloat go f "f")))
  /\ (forall f, nonFinite f = false -> (f =? 0)%float = false ->
                (1e-6 <=? abs f)%float && (abs f <? 1e21)%float = false ->
                formatJCSFloat64 go f
                = Ok (zeroFix (normalizeExponent (strconv_FormatFloat go f "e"))))
  /\ (forall m sign digits,
         Str.IndexByte m "e" = None -> sign = "+"%char \/ sign = "-"%char ->
         digits <> "" ->
         normalizeExponent (m ++ String "e" (String sign digits))
         = m ++ String "e" (String sign (trimZeros digits))
         /\ exists zeros,
              digits = zeros ++ trimZeros digits
              /\ Forall (fun c => c = "0"%char) (Str.bytes zeros)
              /\ trimZeros digits <> ""
              /\ (forall r, trimZeros digits = String "0" r -> r = ""))
  /\ (strconv_ParseFloat go "1e-6" = (1e-6%float, None) ->
      strconv_ParseFloat go "1e-7" = (1e-7%float, None) ->
      strconv_FormatFloat go 1e-6 "f" = "0.000001" ->
      strconv_FormatFloat go 1e-7 "e" = "1e-07" ->
      Marshal go twoNumbers
      = Ok ("{" ++ quoted "m" ++ ":1e-7," ++ quoted "n" ++ ":0.000001}")).
Proof.
  split; [reflexivity |].
  split; [reflexivity |].
  split; [intros f H; unfold formatJCSFloat64; now rewrite H |].
  repeat (split; [reflexivity |]).
  split; [intros f Hfin Hz Hr; rewrite formatJCSFloat64_range by assumption;
          now rewrite Hr |].
  split; [intros f Hfin Hz Hr; rewrite formatJCSFloat64_range by assumption;
          now rewrite Hr |].
  split.
  - intros m sign digits Hm Hs Hd. split.
    + now apply normalizeExponent_spec.
    + now apply trimZeros_spec.
  - intros Hp6 Hp7 Hf6 Hf7. unfold Marshal, twoNumbers. rewrite writeJCS_obj.
    assert (H6 : writeJCS go (JNumber "1e-6") = Ok "0.000001").
    { simpl. unfold formatJCSNumber. rewrite Hp6.
      rewrite formatJCSFloat64_range by reflexivity.
      change ((1e-6 <=? abs 1e-6)%float && (abs 1e-6 <? 1e21)%float) with true.
      cbv iota. rewrite Hf6. reflexivity. }
    assert (H7 : writeJCS go (JNumber "1e-7") = Ok "1e-7").
    { simpl. unfold formatJCSNumber. rewrite Hp7.
      rewrite formatJCSFloat64_range by reflexivity.
      change ((1e-6 <=? abs 1e-7)%float && (abs 1e-7 <? 1e21)%float) with false.
      cbv iota. rewrite Hf7. reflexivity. }
    cbn [map fst snd]. rewrite H6, H7. vm_compute. reflexivity.
Qed.

End Numbers.

(** The example with the library [goTable], whose [strconv] is Go's on the
    two numbers. *)
Lemma C9_number_canonicalization_witness :
  Marshal goTable twoNumbers
  = Ok ("{" ++ quoted "m" ++ ":1e-7," ++ quoted "n" ++ ":0.000001}").
Proof.
  apply (proj2 (proj2 (proj2 (proj2 (proj2 (proj2 (proj2 (proj2 (proj2 (proj2
           (C9_number_canonicalization goTable)))))))))));
    reflexivity.
Defined.

Section KeyOrder.

Lemma lessUTF16_irrefl a : lessUTF16 a a = false.
Proof.
  induction a as [| x a IH]; simpl; [reflexivity |].
  now rewrite N.eqb_refl.
Qed.

Lemma lessUTF16_trans a b c :
  lessUTF16 a b = true -> lessUTF16 b c = true -> lessUTF16 a c = true.
Proof.
  revert b c. induction a as [| x a IH]; intros [| y b] [| z c]; simpl;
    try discriminate; try reflexivity.
  destruct (N.eqb_spec x y) as [-> | Hxy], (N.eqb_spec y z) as [-> | Hyz].
  - apply IH.
  - intros _ H. exact H.
  - intros H _. destruct (N.eqb_spec x z); [contradiction | exact H].
  - intros H1 H2. apply N.ltb_lt in H1. apply N.ltb_lt in H2.
    destruct (N.eqb_spec x z) as [-> | Hxz]; [lia | apply N.ltb_lt; lia].
Qed.

Lemma lessUTF16_total a b :
  a <> b -> lessUTF16 a b = true \/ lessUTF16 b a = true.
Proof.
  revert b. induction a as [| x a IH]; intros [| y b] Hne; simpl.
  - contradiction.
  - now left.
  - now right.
  - destruct (N.eqb_spec x y) as [-> | Hxy].
    + rewrite N.eqb_refl. apply IH. intros ->. now apply Hne.
    + destruct (N.eqb_spec y x) as [-> | _]; [contradiction |].
      destruct (N.ltb_spec x y); [now left | right; apply N.ltb_lt; lia].
Qed.

Lemma lessUTF16_asym a b : lessUTF16 a b = true -> lessUTF16 b a = false.
Proof.
  intros H. destruct (lessUTF16 b a) eqn:E; [| reflexivity].
  pose proof (lessUTF16_trans _ _ _ H E) as Hc.
  now rewrite lessUTF16_irrefl in Hc.
Qed.

End KeyOrder.

Section SortOnce.
Variable A : Type.
Variable less : A -> A -> bool.
Hypothesis less_trans : forall a b c, less a b = true -> less b c = true -> less a c = true.
Hypothesis less_asym : forall a b, less a b = true -> less b a = false.

(** Two insertions commute when the inserted elements are ordered one way
    or the other. *)
Lemma insert_comm x y l :
  less x y = true \/ less y x = true ->
  insert less x (insert less y l) = insert less y (insert less x l).
Proof.
  intros Hxy. induction l as [| z r IH].
  - simpl. destruct Hxy as [H | H]; rewrite H, (@less_asym _ _ H); reflexivity.
  - simpl. destruct (less y z) eqn:Eyz, (less x z) eqn:Exz; simpl;
      rewrite ?Eyz, ?Exz.
    + destruct Hxy as [H | H]; rewrite H, (@less_asym _ _ H); simpl;
        rewrite ?Eyz, ?Exz; reflexivity.
    + destruct (less x y) eqn:Exy; [| reflexivity].
      rewrite (@less_trans _ _ _ Exy Eyz) in Exz. discriminate.
    + destruct (less y x) eqn:Eyx; [| reflexivity].
      rewrite (@less_trans _ _ _ Eyx Exz) in Eyz. discriminate.
    + now rewrite IH.
Qed.

Variable B : Type.
Variable key : A -> B.
Hypothesis less_total : forall a b, key a <> key b -> less a b = true \/ less b a = true.

(** Sorting slices with the same elements, all of different keys, gives
    the same slice. *)
Lemma sortSlice_perm l l' :
  NoDup (map key l) -> Permutation l l' -> sortSlice less l = sortSlice less l'.
Proof.
  intros Hnd Hp. induction Hp as [| x l l' Hp IH | x y l | l l' l'' Hp1 IH1 Hp2 IH2].
  - reflexivity.
  - simpl. rewrite IH; [reflexivity |]. now inversion Hnd.
  - simpl. apply insert_comm. apply less_total.
    simpl in Hnd. inversion Hnd as [| ? ? Hin _]. subst.
    intros Heq. apply Hin. left. now symmetry.
  - rewrite IH1 by assumption. apply IH2.
    eapply Permutation_NoDup; [| exact Hnd]. now apply Permutation_map.
Qed.

Lemma insert_perm x l : Permutation (insert less x l) (x :: l).
Proof.
  induction l as [| y r IH]; simpl; [reflexivity |].
  destruct (less x y); [reflexivity |].
  rewrite IH. apply perm_swap.
Qed.

Lemma sortSlice_permutation l : Permutation (sortSlice less l) l.
Proof.
  induction l as [| x r IH]; simpl; [reflexivity |].
  rewrite insert_perm. now constructor.
Qed.

Lemma insert_sorted x l :
  (forall y, In y l -> key x <> key y) ->
  StronglySorted (fun a b => less a b = true) l ->
  StronglySorted (fun a b => less a b = true) (insert less x l).
Proof.
  intros Hd Hs. induction Hs as [| y r Hs IH Hall]; simpl.
  - constructor; constructor.
  - destruct (less x y) eqn:E.
    + constructor; [constructor; assumption |].
      constructor; [assumption |].
      rewrite Forall_forall in *. intros z Hz.
      eapply less_trans; [exact E | now apply Hall].
    + assert (Hyx : less y x = true).
      { destruct (@less_total x y) as [H | H]; [apply Hd; now left | congruence | exact H]. }
      constructor.
      * apply IH. intros z Hz. apply Hd. now right.
      * rewrite Forall_forall in *. intros z Hz.
        apply In_insert in Hz. destruct Hz as [-> | Hz]; [assumption | now apply Hall].
Qed.

Lemma sortSlice_sorted l :
  NoDup (map key l) -> StronglySorted (fun a b => less a b = true) (sortSlice less l).
Proof.
  induction l as [| x r IH]; simpl; intros Hnd; [constructor |].
  inversion Hnd as [| ? ? Hin Hnd']. subst.
  apply insert_sorted; [| now apply IH].
  intros y Hy Heq. apply Hin. apply In_sortSlice in Hy.
  rewrite Heq. now apply in_map.
Qed.

End SortOnce.

Section Unicode.
Local Open Scope N_scope.

Lemma runes_of_scalar_n n : forall l, (List.length l <= n)%nat -> Forall scalar (Str.runes_of l).
Proof.
  induction n as [| n IH]; intros l Hl.
  - destruct l; [constructor | simpl in Hl; lia].
  - destruct l as [| c0 r0]; [constructor |].
    assert (H0 : Forall scalar (Str.runes_of r0)) by (apply IH; simpl in Hl; lia).
    assert (HE : scalar Str.RuneError) by (unfold scalar, Str.RuneError; lia).
    cbn [Str.runes_of]. cbv zeta.
    destruct (Str.byteN c0 <? 128) eqn:E1.
    { constructor; [| assumption]. bools. unfold scalar. lia. }
    destruct ((194 <=? Str.byteN c0) && (Str.byteN c0 <=? 223))%bool eqn:E2.
    { destruct r0 as [| c1 r1]; [constructor; assumption |].
      destruct (Str.cont (Str.byteN c1)) eqn:Ec; [| constructor; assumption].
      unfold Str.cont in Ec. bools. constructor.
      - unfold scalar. lia.
      - apply IH. simpl in Hl. lia. }
    destruct ((224 <=? Str.byteN c0) && (Str.byteN c0 <=? 239))%bool eqn:E3.
    { destruct r0 as [| c1 [| c2 r2]]; try (constructor; assumption).
      match goal with |- context [if ?c then _ else _] => destruct c eqn:Ec end;
        [| constructor; assumption].
      unfold Str.cont in Ec. bools. constructor.
      - unfold scalar.
        destruct (Str.byteN c0 =? 224) eqn:Ea, (Str.byteN c0 =? 237) eqn:Eb; bools; lia.
      - apply IH. simpl in Hl. lia. }
    destruct ((240 <=? Str.byteN c0) && (Str.byteN c0 <=? 244))%bool eqn:E4.
    { destruct r0 as [| c1 [| c2 [| c3 r3]]]; try (constructor; assumption).
      match goal with |- context [if ?c then _ else _] => destruct c eqn:Ec end;
        [| constructor; assumption].
      unfold Str.cont in Ec. bools. constructor.
      - unfold scalar.
        destruct (Str.byteN c0 =? 240) eqn:Ea, (Str.byteN c0 =? 244) eqn:Eb; bools; lia.
      - apply IH. simpl in Hl. lia. }
    constructor; assumption.
Qed.

Lemma utf16_single r t :
  r < 55296 \/ (57344 <= r /\ r < 65536) ->
  Str.utf16_Encode (r :: t) = r :: Str.utf16_Encode t.
Proof.
  intros H. cbn [Str.utf16_Encode].
  replace ((r <? 55296) || ((57344 <=? r) && (r <? 65536)))%bool with true; [reflexivity |].
  symmetry. apply orb_true_iff. destruct H as [H | [H1 H2]].
  - left. now apply N.ltb_lt.
  - right. apply andb_true_iff. split; [now apply N.leb_le | now apply N.ltb_lt].
Qed.

Lemma utf16_pair r t :
  65536 <= r /\ r <= 1114111 ->
  Str.utf16_Encode (r :: t)
  = (55296 + (r - 65536) / 1024) :: (56320 + (r - 65536) mod 1024) :: Str.utf16_Encode t.
Proof.
  intros [H1 H2]. cbn [Str.utf16_Encode].
  replace ((r <? 55296) || ((57344 <=? r) && (r <? 65536)))%bool with false.
  - replace ((65536 <=? r) && (r <=? 1114111))%bool with true; [reflexivity |].
    symmetry. apply andb_true_iff. split; now apply N.leb_le.
  - symmetry. apply orb_false_iff. split.
    + apply N.ltb_ge. lia.
    + apply andb_false_iff. right. apply N.ltb_ge. lia.
Qed.

Lemma scalar_cases r :
  scalar r -> (r < 55296 \/ (57344 <= r /\ r < 65536)) \/ (65536 <= r /\ r <= 1114111).
Proof. unfold scalar. lia. Qed.

Lemma cons_eq (A : Type) (a b : A) (l l' : list A) : a :: l = b :: l' -> a = b /\ l = l'.
Proof. intros H. inversion H. split; reflexivity. Qed.

Lemma utf16_Encode_inj r1 :
  forall r2, Forall scalar r1 -> Forall scalar r2 ->
             Str.utf16_Encode r1 = Str.utf16_Encode r2 -> r1 = r2.
Proof.
  induction r1 as [| x t IH]; intros [| y t'] H1 H2 He.
  - reflexivity.
  - inversion H2 as [| ? ? Hy _]; subst.
    destruct (@scalar_cases _ Hy) as [Hs | Hp];
      [rewrite (@utf16_single _ _ Hs) in He | rewrite (@utf16_pair _ _ Hp) in He]; discriminate.
  - inversion H1 as [| ? ? Hx _]; subst.
    destruct (@scalar_cases _ Hx) as [Hs | Hp];
      [rewrite (@utf16_single _ _ Hs) in He | rewrite (@utf16_pair _ _ Hp) in He]; discriminate.
  - inversion H1 as [| ? ? Hx H1']; subst. inversion H2 as [| ? ? Hy H2']; subst.
    destruct (@scalar_cases _ Hx) as [Hsx | Hpx], (@scalar_cases _ Hy) as [Hsy | Hpy].
    + rewrite (@utf16_single _ _ Hsx), (@utf16_single _ _ Hsy) in He.
      apply cons_eq in He. destruct He as [Hh Ht]. subst. f_equal. now apply IH.
    + rewrite (@utf16_single _ _ Hsx), (@utf16_pair _ _ Hpy) in He.
      apply cons_eq in He. destruct He as [Hh Ht]. exfalso.
      assert ((y - 65536) / 1024 <= 1023) as Hq.
      { apply N.lt_succ_r. apply N.Div0.div_lt_upper_bound; lia. }
      clear - Hh Hq Hsx. revert Hh Hq. generalize ((y - 65536) / 1024). intros q Hh Hq. lia.
    + rewrite (@utf16_pair _ _ Hpx), (@utf16_single _ _ Hsy) in He.
      apply cons_eq in He. destruct He as [Hh Ht]. exfalso.
      assert ((x - 65536) / 1024 <= 1023) as Hq.
      { apply N.lt_succ_r. apply N.Div0.div_lt_upper_bound; lia. }
      clear - Hh Hq Hsy. revert Hh Hq. generalize ((x - 65536) / 1024). intros q Hh Hq. lia.
    + rewrite (@utf16_pair _ _ Hpx), (@utf16_pair _ _ Hpy) in He.
      apply cons_eq in He. destruct He as [Hh Ht]. apply cons_eq in Ht. destruct Ht as [Hl Ht].
      assert (x = y).
      { pose proof (N.div_mod (x - 65536) 1024 ltac:(lia)) as Dx.
        pose proof (N.div_mod (y - 65536) 1024 ltac:(lia)) as Dy.
        assert ((x - 65536) / 1024 = (y - 65536) / 1024) by lia.
        assert ((x - 65536) mod 1024 = (y - 65536) mod 1024) by lia.
        lia. }
      subst. f_equal. now apply IH.
Qed.

Lemma runes_scalar s : Forall scalar (Str.runes s).
Proof. unfold Str.runes. now apply runes_of_scalar_n with (n := List.length (Str.bytes s)). Qed.

Lemma utf16key_inj a b : validUTF8 a -> validUTF8 b -> utf16key a = utf16key b -> a = b.
Proof.
  unfold validUTF8, toValidUTF8, utf16key. intros Ha Hb H.
  apply utf16_Encode_inj in H; try apply runes_scalar.
  rewrite <- Ha, <- Hb. now rewrite H.
Qed.

Lemma NoDup_utf16key keys :
  NoDup keys -> Forall validUTF8 keys -> NoDup (map utf16key keys).
Proof.
  induction 1 as [| k ks Hk Hnd IH]; intros Hv; simpl; [constructor |].
  inversion Hv as [| ? ? Hvk Hvks]; subst. constructor; [| now apply IH].
  intros Hin. apply in_map_iff in Hin. destruct Hin as [k' [He Hk']].
  apply Hk. rewrite Forall_forall in Hvks.
  now rewrite <- (@utf16key_inj _ _ (Hvks k' Hk') Hvk He).
Qed.

End Unicode.

Section KeyOrderInvariance.
Variable go : GoStdlib.
Local Abbreviation written := (written go).

Lemma distinctKeys_arr l : distinctKeys (JArr l) <-> Forall distinctKeys l.
Proof.
  simpl. induction l as [| x r IH]; split; intros H.
  - constructor.
  - exact I.
  - destruct H as [Hx Hr]. constructor; [assumption | now apply IH].
  - inversion H; subst. split; [assumption | now apply IH].
Qed.

Lemma distinctKeys_obj m :
  distinctKeys (JObj m) <->
  NoDup (map (fun kv => utf16key (fst kv)) m)
  /\ Forall (fun kv => distinctKeys (snd kv)) m.
Proof.
  simpl. apply and_iff_compat_l.
  induction m as [| [k x] r IH]; split; intros H.
  - constructor.
  - exact I.
  - destruct H as [Hx Hr]. constructor; [assumption | now apply IH].
  - inversion H; subst. split; [assumption | now apply IH].
Qed.

Lemma decoded_arr l : decoded (JArr l) <-> Forall decoded l.
Proof.
  simpl. induction l as [| x r IH]; split; intros H.
  - constructor.
  - exact I.
  - destruct H as [Hx Hr]. constructor; [assumption | now apply IH].
  - inversion H; subst. split; [assumption | now apply IH].
Qed.

Lemma decoded_obj m :
  decoded (JObj m) <->
  NoDup (map fst m) /\ Forall validUTF8 (map fst m)
  /\ Forall (fun kv => decoded (snd kv)) m.
Proof.
  simpl. apply and_iff_compat_l. apply and_iff_compat_l.
  induction m as [| [k x] r IH]; split; intros H.
  - constructor.
  - exact I.
  - destruct H as [Hx Hr]. constructor; [assumption | now apply IH].
  - inversion H; subst. split; [assumption | now apply IH].
Qed.

Lemma decoded_distinctKeys v : decoded v -> distinctKeys v.
Proof.
  induction v as [| b0 | s0 | s0 | f0 | l IH | m IH] using json_induction;
    intros H; try exact I.
  - apply distinctKeys_arr. apply decoded_arr in H.
    induction IH as [| x r Hx _ IHr]; [constructor |].
    inversion H; subst. constructor; [now apply Hx | now apply IHr].
  - apply distinctKeys_obj. apply decoded_obj in H. destruct H as [Hnd [Hv Hvals]].
    split.
    + rewrite <- (map_map fst utf16key). now apply NoDup_utf16key.
    + clear Hnd Hv. induction IH as [| x r Hx _ IHr]; [constructor |].
      inversion Hvals; subst. constructor; [now apply Hx | now apply IHr].
Qed.

Lemma writeJCS_arr l :
  writeJCS go (JArr l)
  = rbind (writeItems (writeJCS go) l)
      (fun items => Ok ("[" ++ Str.join "," items ++ "]")).
Proof.
  simpl. f_equal.
  induction l as [| x r IH]; simpl; [reflexivity | now rewrite IH].
Qed.

Lemma mget_map (A B : Type) (f : A -> B) k (m : list (string * A)) :
  mget k (map (fun kv => (fst kv, f (snd kv))) m) = option_map f (mget k m).
Proof.
  induction m as [| [k' x] r IH]; simpl; [reflexivity |].
  destruct (String.eqb k k'); [reflexivity | exact IH].
Qed.

Lemma mget_None (V : Type) k (m : list (string * V)) :
  ~ In k (map fst m) -> mget k m = None.
Proof.
  induction m as [| [k' x] r IH]; simpl; intros H; [reflexivity |].
  destruct (String.eqb_spec k k') as [-> | Hne]; [exfalso; apply H; now left |].
  apply IH. intros Hin. apply H. now right.
Qed.

Lemma mget_In (V : Type) k (m : list (string * V)) :
  In k (map fst m) -> exists x, mget k m = Some x.
Proof.
  induction m as [| [k' x] r IH]; simpl; [contradiction |].
  intros [-> | Hin].
  - rewrite String.eqb_refl. now exists x.
  - destruct (String.eqb k k'); [now exists x | now apply IH].
Qed.

(** A lookup does not depend on the order of the members. *)
Lemma mget_perm (V : Type) k (l l' : list (string * V)) :
  NoDup (map fst l) -> Permutation l l' -> mget k l = mget k l'.
Proof.
  intros Hnd Hp. induction Hp as [| [k1 x] l l' Hp IH | [k1 x] [k2 y] l | l l' l'' Hp1 IH1 Hp2 IH2].
  - reflexivity.
  - simpl. inversion Hnd; subst. destruct (String.eqb k k1); [reflexivity | now apply IH].
  - simpl. simpl in Hnd. inversion Hnd as [| ? ? Hin _]; subst.
    destruct (String.eqb_spec k k1) as [E1 | H1], (String.eqb_spec k k2) as [E2 | H2];
      try reflexivity.
    exfalso. apply Hin. left. congruence.
  - rewrite IH1 by assumption. apply IH2.
    eapply Permutation_NoDup; [| exact Hnd]. now apply Permutation_map.
Qed.

Lemma sortedKeys_decorated (A : Type) (m : list (string * A)) :
  sortedKeys m = map fst (sortSlice lessDecorated (decorated m)).
Proof. reflexivity. Qed.

Lemma decorated_keys (A B : Type) (m : list (string * A)) (m' : list (string * B)) :
  map fst m = map fst m' -> decorated m = decorated m'.
Proof.
  revert m'. induction m as [| [k x] r IH]; intros [| [k' x'] r'] H; simpl in *;
    try discriminate; [reflexivity |].
  inversion H; subst. f_equal. now apply IH.
Qed.

Lemma NoDup_decorated (A : Type) (m : list (string * A)) :
  NoDup (map (fun kv => utf16key (fst kv)) m) -> NoDup (map snd (decorated m)).
Proof. unfold decorated. now rewrite map_map. Qed.

Lemma NoDup_keys (A : Type) (m : list (string * A)) :
  NoDup (map (fun kv => utf16key (fst kv)) m) -> NoDup (map fst m).
Proof.
  intros H. rewrite <- (map_map fst utf16key) in H.
  now apply NoDup_map_inv in H.
Qed.

(** The keys come out in one order, whatever the order of the members. *)
Lemma sortedKeys_perm (A : Type) (m m' : list (string * A)) :
  NoDup (map (fun kv => utf16key (fst kv)) m) -> Permutation m m' ->
  sortedKeys m = sortedKeys m'.
Proof.
  intros Hnd Hp. rewrite !sortedKeys_decorated. f_equal.
  apply sortSlice_perm with (key := @snd string (list N)).
  - intros a b c. apply lessUTF16_trans.
  - intros a b. apply lessUTF16_asym.
  - intros a b. apply lessUTF16_total.
  - now apply NoDup_decorated.
  - now apply Permutation_map.
Qed.

Lemma writeMembers_ext w w' keys :
  (forall k, mget k w = mget k w') ->
  writeMembers w keys = writeMembers w' keys.
Proof.
  intros H. induction keys as [| k ks IH]; simpl; [reflexivity |].
  now rewrite H, IH.
Qed.

Lemma same_items l l2 :
  Forall (fun a => forall d, distinctKeys a -> sameDocument a d ->
                             writeJCS go a = writeJCS go d) l ->
  Forall distinctKeys l -> Forall2 sameDocument l l2 ->
  writeItems (writeJCS go) l = writeItems (writeJCS go) l2.
Proof.
  intros IH Hd H2. revert IH Hd.
  induction H2 as [| x y r r' Hxy Hr IHr]; intros IH Hd; simpl; [reflexivity |].
  inversion IH as [| ? ? Hx IH']; subst. inversion Hd as [| ? ? Hdx Hd']; subst.
  rewrite (Hx y Hdx Hxy). now rewrite (IHr IH' Hd').
Qed.

Lemma same_members m1 m :
  Forall (fun kv => forall d, distinctKeys (snd kv) -> sameDocument (snd kv) d ->
                              writeJCS go (snd kv) = writeJCS go d) m1 ->
  Forall (fun kv => distinctKeys (snd kv)) m1 ->
  Forall2 (fun p q => fst p = fst q /\ sameDocument (snd p) (snd q)) m1 m ->
  written m1 = written m /\ map fst m1 = map fst m.
Proof.
  intros IH Hd H2. revert IH Hd.
  induction H2 as [| p q r r' [Hk Hv] Hr IHr]; intros IH Hd; simpl;
    [split; reflexivity |].
  inversion IH as [| ? ? Hx IH']; subst. inversion Hd as [| ? ? Hdx Hd']; subst.
  destruct (IHr IH' Hd') as [Hw Hkeys].
  rewrite (Hx (snd q) Hdx Hv), Hk, Hw, Hkeys. split; reflexivity.
Qed.

(** [writeJCS] writes the same for documents that differ in key order. *)
Lemma sameDocument_writeJCS a :
  forall d, distinctKeys a -> sameDocument a d -> writeJCS go a = writeJCS go d.
Proof.
  induction a as [| b0 | s0 | s0 | f0 | l IH | m1 IH] using json_induction;
    intros d Hd Hs; inversion Hs; subst; try reflexivity.
  - (* arrays *)
    rewrite !writeJCS_arr. f_equal.
    apply distinctKeys_arr in Hd. now apply same_items.
  - (* objects *)
    rewrite !writeJCS_obj.
    apply distinctKeys_obj in Hd. destruct Hd as [Hnd Hvals].
    match goal with H : Forall2 _ m1 _ |- _ => rename H into H2 end.
    match goal with H : Permutation _ _ |- _ => rename H into Hp end.
    destruct (same_members IH Hvals H2) as [Hw Hkeys].
    assert (Hnd' : NoDup (map (fun kv => utf16key (fst kv)) m)).
    { rewrite <- (map_map fst utf16key) in *. now rewrite <- Hkeys. }
    assert (Hsk : sortedKeys m1 = sortedKeys m2).
    { rewrite <- (sortedKeys_perm Hnd' Hp).
      rewrite !sortedKeys_decorated. now rewrite (decorated_keys m1 m Hkeys). }
    fold (written m1). fold (written m2). rewrite Hw, Hsk. f_equal.
    apply writeMembers_ext. intros k.
    apply mget_perm.
    + unfold written. rewrite map_map. simpl. now apply NoDup_keys.
    + unfold written. now apply Permutation_map.
Qed.

End KeyOrderInvariance.

Section CanonicalObjects.
Variable go : GoStdlib.

Lemma sortedKeys_permutation (A : Type) (m : list (string * A)) :
  Permutation (sortedKeys m) (map fst m).
Proof.
  rewrite sortedKeys_decorated.
  transitivity (map fst (decorated m)).
  - apply Permutation_map. apply sortSlice_permutation.
  - unfold decorated. rewrite map_map. simpl. reflexivity.
Qed.

Lemma sorted_keys_of_decorated (l : list (string * list N)) :
  (forall a, In a l -> snd a = utf16key (fst a)) ->
  StronglySorted (fun a b => lessDecorated a b = true) l ->
  StronglySorted keyOrder (map fst l).
Proof.
  intros Hdec Hs. induction Hs as [| a r Hs IH Hall]; simpl; constructor.
  - apply IH. intros b Hb. apply Hdec. now right.
  - rewrite Forall_forall in *. intros k Hk.
    apply in_map_iff in Hk. destruct Hk as [b [<- Hb]].
    unfold keyOrder. rewrite <- (Hdec a), <- (Hdec b); [| now right | now left].
    now apply Hall.
Qed.

Lemma sortedKeys_sorted (A : Type) (m : list (string * A)) :
  NoDup (map (fun kv => utf16key (fst kv)) m) ->
  StronglySorted keyOrder (sortedKeys m).
Proof.
  intros Hnd. rewrite sortedKeys_decorated.
  apply sorted_keys_of_decorated.
  - intros a Ha. apply In_sortSlice in Ha. unfold decorated in Ha.
    apply in_map_iff in Ha. destruct Ha as [kv [<- _]]. reflexivity.
  - apply sortSlice_sorted with (key := @snd string (list N)).
    + intros a b c. apply lessUTF16_trans.
    + intros a b. apply lessUTF16_total.
    + now apply NoDup_decorated.
Qed.

Lemma writeMembers_spec m keys :
  (forall k, In k keys -> In k (map fst m)) ->
  forall ms, writeMembers (written go m) keys = Ok ms ->
  exists values,
    Forall2 (fun k v => exists x, mget k m = Some x /\ writeJCS go x = Ok v) keys values
    /\ ms = map member (combine keys values).
Proof.
  induction keys as [| k ks IH]; intros Hin ms H; simpl in H.
  - inversion H; subst. exists []. split; [constructor | reflexivity].
  - unfold written in H at 1. rewrite mget_map in H.
    destruct (mget_In k m) as [x Hx]; [apply Hin; now left |].
    rewrite Hx in H. simpl in H.
    destruct (writeJCS go x) as [v | e |] eqn:Ev; simpl in H; try discriminate.
    destruct (writeMembers (written go m) ks) as [rest | e |] eqn:Er; simpl in H;
      try discriminate.
    inversion H; subst.
    destruct (IH (fun k' Hk' => Hin k' (or_intror Hk')) rest eq_refl) as [values [Hf Hrest]].
    exists (v :: values). split.
    + constructor; [now exists x | assumption].
    + simpl. now rewrite Hrest.
Qed.

(** C8. [Marshal] gives the same result for two documents that differ only
    in the order of object keys, at any depth: for documents as the decoder
    gives them (the keys of an object are different strings of valid UTF-8)
    and, more generally, whenever the keys of each object have different
    UTF-16 forms.  The keys of an object are written in strictly increasing
    order of their UTF-16 code units, each once; and the bytes of an object
    are [{], the members [key:value] separated by [,] with nothing else
    between, and [}].  So two raw documents that the decoder reads as such
    values, with the same rest, have the same [Marshal]. *)
Theorem C8_key_order_invariance :
  (forall a d, decoded a -> sameDocument a d -> Marshal go a = Marshal go d)
  /\ (forall a d, distinctKeys a -> sameDocument a d -> Marshal go a = Marshal go d)
  /\ (forall m,
         distinctKeys (JObj m) ->
         StronglySorted keyOrder (sortedKeys m)
         /\ Permutation (sortedKeys m) (map fst m)
         /\ forall s,
              Marshal go (JObj m) = Ok s ->
              exists values,
                Forall2 (fun k v => exists x, mget k m = Some x /\ writeJCS go x = Ok v)
                        (sortedKeys m) values
                /\ s = "{" ++ Str.join "," (map member (combine (sortedKeys m) values))
                         ++ "}")
  /\ (forall textA textB a d restA restB,
         json_Decode go textA = inr (a, restA) ->
         json_Decode go textB = inr (d, restB) ->
         json_Decode go restA = json_Decode go restB ->
         distinctKeys a -> sameDocument a d ->
         MarshalRaw go textA = MarshalRaw go textB).
Proof.
  split; [| split; [| split]].
  - intros a d Hd Hs. unfold Marshal. apply sameDocument_writeJCS; [| assumption].
    now apply decoded_distinctKeys.
  - intros a d Hd Hs. unfold Marshal. now apply sameDocument_writeJCS.
  - intros m Hd. apply distinctKeys_obj in Hd. destruct Hd as [Hnd _].
    split; [now apply sortedKeys_sorted |].
    split; [apply sortedKeys_permutation |].
    intros s H. unfold Marshal in H. rewrite writeJCS_obj in H.
    fold (written go m) in H.
    destruct (writeMembers (written go m) (sortedKeys m)) as [ms | e |] eqn:E;
      simpl in H; try discriminate.
    inversion H; subst.
    destruct (writeMembers_spec m (sortedKeys m)) with (ms := ms) as [values [Hf Hms]].
    + intros k Hk. eapply Permutation_in; [apply sortedKeys_permutation | exact Hk].
    + exact E.
    + exists values. split; [assumption | now rewrite Hms].
  - intros textA textB a d restA restB HA HB Hrest Hd Hs.
    unfold MarshalRaw, Marshal. rewrite HA, HB, Hrest.
    now rewrite (sameDocument_writeJCS go Hd Hs).
Qed.

End CanonicalObjects.

Lemma C8_key_order_invariance_witness :
  Marshal goTable documentA = Marshal goTable documentB
  /\ Marshal goTable documentB
     = Ok ("{" ++ quoted "a" ++ ":{" ++ quoted "x" ++ ":1," ++ quoted "y" ++ ":2},"
               ++ quoted "arr" ++ ":[{" ++ quoted "a" ++ ":1," ++ quoted "b" ++ ":2}],"
               ++ quoted "b" ++ ":1}").
Proof.
  split; [| vm_compute; reflexivity].
  apply (proj1 (C8_key_order_invariance goTable)).
  - simpl. repeat split; repeat constructor; simpl; intuition discriminate.
  - unfold documentA, documentB.
    apply same_obj with
      (m := [("b", JNumber "1");
             ("a", JObj [("x", JNumber "1"); ("y", JNumber "2")]);
             ("arr", JArr [JObj [("a", JNumber "1"); ("b", JNumber "2")]])]).
    + repeat constructor; simpl.
      * apply same_obj with (m := [("y", JNumber "2"); ("x", JNumber "1")]);
          [repeat constructor | apply perm_swap].
      * apply same_obj with (m := [("b", JNumber "2"); ("a", JNumber "1")]);
          [repeat constructor | apply perm_swap].
    + apply Permutation_rev with (l := [("b", JNumber "1");
             ("a", JObj [("x", JNumber "1"); ("y", JNumber "2")]);
             ("arr", JArr [JObj [("a", JNumber "1"); ("b", JNumber "2")]])]).
Defined.

(** * Further properties *)

Section StringOrder.

Lemma ascii_compare_lt_trans a b c :
  Ascii.compare a b = Lt -> Ascii.compare b c = Lt -> Ascii.compare a c = Lt.
Proof.
  unfold Ascii.compare. rewrite !N.compare_lt_iff. lia.
Qed.

Lemma ascii_compare_refl a : Ascii.compare a a = Eq.
Proof. unfold Ascii.compare. apply N.compare_refl. Qed.

Lemma strlt_irrefl a : Str.lt a a = false.
Proof.
  unfold Str.lt, String.ltb. induction a as [| c r IH]; simpl; [reflexivity |].
  now rewrite ascii_compare_refl.
Qed.

Lemma strlt_asym a b : Str.lt a b = true -> Str.lt b a = false.
Proof.
  unfold Str.lt, String.ltb. rewrite (String.compare_antisym b a).
  destruct (String.compare a b); simpl; congruence.
Qed.

Lemma strlt_total a b : a <> b -> Str.lt a b = true \/ Str.lt b a = true.
Proof.
  unfold Str.lt, String.ltb. intros H. rewrite (String.compare_antisym b a).
  destruct (String.compare a b) eqn:E; simpl; auto.
  apply String.compare_eq_iff in E. contradiction.
Qed.

Lemma strcompare_lt_trans a : forall b c,
  String.compare a b = Lt -> String.compare b c = Lt -> String.compare a c = Lt.
Proof.
  induction a as [| x a IH]; intros [| y b] [| z c]; simpl; try congruence.
  destruct (Ascii.compare x y) eqn:Exy; try discriminate.
  - apply Ascii.compare_eq_iff in Exy. subst y.
    destruct (Ascii.compare x z) eqn:Exz; try congruence. apply IH.
  - destruct (Ascii.compare y z) eqn:Eyz; try discriminate.
    + apply Ascii.compare_eq_iff in Eyz. subst z. now rewrite Exy.
    + intros _ _. now rewrite (ascii_compare_lt_trans _ _ _ Exy Eyz).
Qed.

Lemma strlt_trans a b c : Str.lt a b = true -> Str.lt b c = true -> Str.lt a c = true.
Proof.
  unfold Str.lt, String.ltb. intros H1 H2.
  destruct (String.compare a b) eqn:E1; try discriminate.
  destruct (String.compare b c) eqn:E2; try discriminate.
  now rewrite (strcompare_lt_trans _ _ _ E1 E2).
Qed.

End StringOrder.

Section StringSets.

Lemma NoDup_sadd s set : NoDup set -> NoDup (sadd s set).
Proof.
  intros H. unfold sadd. destruct (sin s set) eqn:E; [assumption |].
  apply NoDup_app; [assumption | repeat constructor; intros [] |].
  intros x Hx [<- | []]. apply sin_In in Hx. congruence.
Qed.

Lemma NoDup_stringsOf a : forall set, NoDup set -> NoDup (stringsOf a set).
Proof.
  induction a as [| v r IH]; intros set H; simpl; [assumption |].
  destruct v; auto using NoDup_sadd.
Qed.

Lemma collectStrings_Ok bad x : forall set out,
  collectStrings bad x set = Ok out ->
  Forall nonBlankString x /\ out = stringsOf x set.
Proof.
  induction x as [| v r IH]; intros set out H; simpl in H.
  - inversion H. split; [constructor | reflexivity].
  - destruct v; try discriminate.
    destruct (Str.blank s) eqn:E; [discriminate |].
    apply IH in H. destruct H as [Hf ->]. split; [| reflexivity].
    constructor; [| assumption]. exists s. now split.
Qed.

Lemma collectStrings_all bad x : forall set,
  Forall nonBlankString x -> collectStrings bad x set = Ok (stringsOf x set).
Proof.
  induction x as [| v r IH]; intros set H; simpl; [reflexivity |].
  inversion H as [| ? ? [s [-> Hs]] Hr]; subst. rewrite Hs. now apply IH.
Qed.

Lemma collectStrings_bad bad x set e :
  collectStrings bad x set = Fail e -> e = PlainError bad.
Proof.
  revert set. induction x as [| v r IH]; intros set H; simpl in H; [discriminate |].
  destruct v; try (inversion H; reflexivity).
  destruct (Str.blank s); [inversion H; reflexivity | eauto].
Qed.

Lemma collectStrings_fuel bad x set : collectStrings bad x set <> OutOfFuel.
Proof.
  revert set. induction x as [| v r IH]; intros set; simpl; [discriminate |].
  destruct v; try discriminate. destruct (Str.blank s); [discriminate | apply IH].
Qed.

Lemma sortedStrings_ascending set :
  NoDup set -> ascending (sortSlice Str.lt set).
Proof.
  intros H. unfold ascending.
  apply (@sortSlice_sorted string Str.lt strlt_trans string (fun x => x)).
  - intros a b Hab. now apply strlt_total.
  - now rewrite map_id.
Qed.

Lemma sortedStrings_same set set' :
  NoDup set -> NoDup set' -> (forall s, In s set <-> In s set') ->
  sortedStrings set = sortedStrings set'.
Proof.
  intros H1 H2 H. unfold sortedStrings. f_equal.
  apply (@sortSlice_perm string Str.lt strlt_trans strlt_asym string (fun x => x)).
  - intros a b Hab. now apply strlt_total.
  - now rewrite map_id.
  - now apply NoDup_Permutation.
Qed.

Lemma ascending_NoDup l : ascending l -> NoDup l.
Proof.
  induction 1 as [| x r Hs IH Hall]; constructor; [| assumption].
  intros Hin. rewrite Forall_forall in Hall. specialize (Hall x Hin).
  now rewrite strlt_irrefl in Hall.
Qed.

Lemma sortSlice_ascending l : ascending l -> sortSlice Str.lt l = l.
Proof.
  induction 1 as [| x r Hs IH Hall]; simpl; [reflexivity |].
  rewrite IH. destruct r as [| y r']; simpl; [reflexivity |].
  inversion Hall as [| ? ? Hxy _]; subst. now rewrite Hxy.
Qed.

Lemma stringsOf_ascending l : forall set,
  NoDup (set ++ l)%list -> stringsOf (map VString l) set = (set ++ l)%list.
Proof.
  induction l as [| x r IH]; intros set H; simpl.
  - now rewrite app_nil_r.
  - assert (Hx : sin x set = false).
    { destruct (sin x set) eqn:E; [| reflexivity]. apply sin_In in E.
      apply NoDup_remove_2 in H. exfalso. apply H. apply in_or_app. now left. }
    unfold sadd. rewrite Hx. rewrite IH; rewrite <- app_assoc; [reflexivity | exact H].
Qed.

(** What both functions do with a slice. *)
Lemma sortedSet_spec bad x out :
  rbind (collectStrings bad x []) (fun set => Ok (sortedStrings set)) = Ok out ->
  Forall nonBlankString x
  /\ exists strs, out = map VString strs /\ ascending strs
                  /\ forall s, In s strs <-> In (VString s) x.
Proof.
  intros H. destruct (collectStrings bad x []) as [set | e |] eqn:E; try discriminate.
  simpl in H. inversion H; subst out. apply collectStrings_Ok in E.
  destruct E as [Hf ->]. split; [assumption |].
  exists (sortSlice Str.lt (stringsOf x [])). split; [reflexivity |]. split.
  - apply sortedStrings_ascending. apply NoDup_stringsOf. constructor.
  - intros s. rewrite In_sortSlice, In_stringsOf. simpl. intuition auto.
Qed.

Lemma sortedSet_again bad strs :
  ascending strs -> Forall (fun s => Str.blank s = false) strs ->
  rbind (collectStrings bad (map VString strs) []) (fun set => Ok (sortedStrings set))
  = Ok (map VString strs).
Proof.
  intros Hs Hb. rewrite collectStrings_all.
  - simpl. unfold sortedStrings.
    rewrite (@stringsOf_ascending strs []) by (simpl; now apply ascending_NoDup).
    simpl. now rewrite sortSlice_ascending.
  - rewrite Forall_forall in *. intros v Hv. apply in_map_iff in Hv.
    destruct Hv as [s [<- Hin]]. exists s. split; [reflexivity | now apply Hb].
Qed.

Lemma nonBlank_strs x strs :
  Forall nonBlankString x -> (forall s, In s strs <-> In (VString s) x) ->
  Forall (fun s => Str.blank s = false) strs.
Proof.
  intros Hf H. rewrite Forall_forall in *. intros s Hs. apply H in Hs.
  destruct (Hf _ Hs) as [s' [Heq Hb]]. now inversion Heq; subst.
Qed.

(** X1. [normalizeType]: a string that is not blank becomes the slice of
    that one string; a slice is accepted exactly when every item is a
    string that is not blank, and then the result holds the same strings,
    each once, in strictly ascending byte order; every other value, a blank
    string and a slice with another item are errors. *)
Theorem normalizeType_sorted_unique :
  (forall s, Str.blank s = false -> normalizeType (VString s) = Ok [VString s])
  /\ (forall s, Str.blank s = true ->
                normalizeType (VString s) = Fail (PlainError "must not be empty"))
  /\ (forall x, Forall nonBlankString x <-> exists out, normalizeType (VSlice x) = Ok out)
  /\ (forall x, ~ Forall nonBlankString x ->
                normalizeType (VSlice x)
                = Fail (PlainError "must be array of non-empty strings"))
  /\ (forall x out,
         normalizeType (VSlice x) = Ok out ->
         exists strs, out = map VString strs /\ ascending strs
                      /\ forall s, In s strs <-> In (VString s) x)
  /\ (forall v, (forall s, v <> VString s) -> (forall x, v <> VSlice x) ->
                normalizeType v = Fail (PlainError "must be string or array of strings")).
Proof.
  split; [intros s H; simpl; now rewrite H |].
  split; [intros s H; simpl; now rewrite H |].
  split; [| split; [| split]].
  - intros x. split.
    + intros H. eexists. simpl. rewrite collectStrings_all by assumption. reflexivity.
    + intros [out H]. now apply sortedSet_spec in H.
  - intros x H. simpl.
    destruct (collectStrings "must be array of non-empty strings" x []) as [set | e |] eqn:E.
    + apply collectStrings_Ok in E. tauto.
    + apply collectStrings_bad in E. now subst.
    + now apply collectStrings_fuel in E.
  - intros x out H. now apply sortedSet_spec in H.
  - intros v Hs Hx. destruct v; try reflexivity.
    + now destruct (Hs s).
    + now destruct (Hx l).
Qed.

(** X2. [normalizeStringSet]: a value that is not a slice is an error; a
    slice is accepted exactly when every item is a string that is not
    blank, and then the result holds the same strings, each once, in
    strictly ascending byte order. *)
Theorem normalizeStringSet_sorted_unique :
  (forall v, asSlice v = None -> normalizeStringSet v = Fail (PlainError "must be array"))
  /\ (forall x, Forall nonBlankString x <-> exists out, normalizeStringSet (VSlice x) = Ok out)
  /\ (forall x, ~ Forall nonBlankString x ->
                normalizeStringSet (VSlice x)
                = Fail (PlainError "must contain only non-empty strings"))
  /\ (forall x out,
         normalizeStringSet (VSlice x) = Ok out ->
         exists strs, out = map VString strs /\ ascending strs
                      /\ forall s, In s strs <-> In (VString s) x).
Proof.
  split; [intros v H; unfold normalizeStringSet; now rewrite H |].
  split; [| split].
  - intros x. split.
    + intros H. eexists. unfold normalizeStringSet. simpl.
      rewrite collectStrings_all by assumption. reflexivity.
    + intros [out H]. now apply sortedSet_spec in H.
  - intros x H. unfold normalizeStringSet. simpl.
    destruct (collectStrings "must contain only non-empty strings" x []) as [set | e |] eqn:E.
    + apply collectStrings_Ok in E. tauto.
    + apply collectStrings_bad in E. now subst.
    + now apply collectStrings_fuel in E.
  - intros x out H. now apply sortedSet_spec in H.
Qed.

Lemma normalizeType_again v out :
  normalizeType v = Ok out -> normalizeType (VSlice out) = Ok out.
Proof.
  intros H. destruct v; try discriminate.
  - simpl in H. destruct (Str.blank s) eqn:E; [discriminate |].
    inversion H; subst. simpl. rewrite E. reflexivity.
  - pose proof (sortedSet_spec _ _ H) as [Hf [strs [-> [Hs Hin]]]].
    apply sortedSet_again; [assumption | eapply nonBlank_strs; eassumption].
Qed.

Lemma normalizeStringSet_again v out :
  normalizeStringSet v = Ok out -> normalizeStringSet (VSlice out) = Ok out.
Proof.
  intros H. unfold normalizeStringSet in H. destruct v; try discriminate.
  pose proof (sortedSet_spec _ _ H) as [Hf [strs [-> [Hs Hin]]]].
  apply sortedSet_again; [assumption | eapply nonBlank_strs; eassumption].
Qed.

(** X3. Normalizing again changes nothing: what [normalizeType] or
    [normalizeStringSet] returned is returned unchanged when it is given
    back (as [mergeAllOfBranch] does with an accumulator that is already
    normalized). *)
Theorem normalize_again (v : val) (out : list val) :
  (normalizeType v = Ok out -> normalizeType (VSlice out) = Ok out)
  /\ (normalizeStringSet v = Ok out -> normalizeStringSet (VSlice out) = Ok out).
Proof.
  split; [apply normalizeType_again | apply normalizeStringSet_again].
Qed.

End StringSets.

Section TypeSets.

Lemma NoDup_filter (A : Type) (f : A -> bool) l : NoDup l -> NoDup (filter f l).
Proof.
  induction 1 as [| x r Hx Hr IH]; simpl; [constructor |].
  destruct (f x); [| assumption]. constructor; [| assumption].
  intros Hin. apply filter_In in Hin. tauto.
Qed.

(** The set that [intersectTypeSlices] sorts. *)
Lemma intersect_set a b :
  exists set, intersectTypeSlices a b = sortedStrings set /\ NoDup set.
Proof.
  unfold intersectTypeSlices.
  set (F := filter _ (stringsOf a [])).
  assert (HF : NoDup F).
  { apply NoDup_filter. apply NoDup_stringsOf. constructor. }
  destruct (_ && _)%bool; [destruct (_ && _)%bool |];
    eexists; (split; [reflexivity |]); auto using NoDup_sadd.
Qed.

(** X4. The intersection of two type sets does not depend on the order of
    the two sides, and is written in strictly ascending byte order, each
    type once. *)
Theorem intersectTypeSlices_commutative (a b : list val) :
  intersectTypeSlices a b = intersectTypeSlices b a
  /\ exists strs, intersectTypeSlices a b = map VString strs /\ ascending strs.
Proof.
  destruct (intersect_set a b) as [s1 [E1 N1]].
  destruct (intersect_set b a) as [s2 [E2 N2]].
  split.
  - rewrite E1, E2. apply sortedStrings_same; try assumption.
    intros s. rewrite <- !In_sortedStrings, <- E1, <- E2, !intersectTypeSlices_spec.
    tauto.
  - rewrite E1. exists (sortSlice Str.lt s1). split; [reflexivity |].
    now apply sortedStrings_ascending.
Qed.

(** X5. [unionStringSlices] returns the strings that are in one of the two
    slices, each once, in strictly ascending byte order; so it does not
    depend on the order of the two sides, and the union of a normalized
    slice with itself is that slice. *)
Theorem unionStringSlices_union (a b : list val) :
  (exists strs, unionStringSlices a b = map VString strs /\ ascending strs
                /\ forall s, In s strs <-> In (VString s) a \/ In (VString s) b)
  /\ unionStringSlices a b = unionStringSlices b a
  /\ (forall strs, ascending strs ->
                   unionStringSlices (map VString strs) (map VString strs) = map VString strs).
Proof.
  unfold unionStringSlices. split; [| split].
  - exists (sortSlice Str.lt (stringsOf b (stringsOf a []))).
    split; [reflexivity |]. split.
    + apply sortedStrings_ascending. repeat apply NoDup_stringsOf. constructor.
    + intros s. rewrite In_sortSlice, !In_stringsOf. simpl. tauto.
  - apply sortedStrings_same;
      [repeat apply NoDup_stringsOf; constructor
      | repeat apply NoDup_stringsOf; constructor |].
    intros s. rewrite !In_stringsOf. simpl. tauto.
  - intros strs H. 
    transitivity (sortedStrings strs).
    + apply sortedStrings_same.
      * repeat apply NoDup_stringsOf. constructor.
      * now apply ascending_NoDup.
      * intros s. rewrite !In_stringsOf, !in_map_iff. simpl. split.
        -- intros [[x [Hx Hin]] | [[x [Hx Hin]] | []]]; inversion Hx; now subst.
        -- intros Hs. left. now exists s.
    + unfold sortedStrings. now rewrite sortSlice_ascending.
Qed.

End TypeSets.

Section CanonicalStrings.
Local Open Scope N_scope.

Lemma byteN_byteA n : n < 256 -> Str.byteN (Str.byteA n) = n.
Proof. intros H. unfold Str.byteN, Str.byteA. now apply N_ascii_embedding. Qed.

Lemma high_byte n : 128 <= n -> n < 256 -> plainByte (Str.byteA n).
Proof.
  intros H1 H2. unfold plainByte. rewrite byteN_byteA by assumption. lia.
Qed.

Lemma div_bound r k m : 0 < k -> r < k * m -> r / k < m.
Proof. intros Hk H. now apply N.Div0.div_lt_upper_bound. Qed.

Lemma mod_bound r k : 0 < k -> r mod k < k.
Proof. intros Hk. apply N.mod_lt. lia. Qed.

Lemma encodeRune_plain r :
  32 <= r -> r <> 34 -> r <> 92 -> Forall plainByte (Str.encodeRune r).
Proof.
  intros H32 H34 H92. unfold Str.encodeRune.
  destruct (r <? 128) eqn:E1.
  { bools. apply Forall_cons; [| apply Forall_nil].
    unfold plainByte. rewrite byteN_byteA by lia. lia. }
  destruct (r <? 2048) eqn:E2.
  { bools.
    pose proof (@div_bound r 64 32 ltac:(lia) ltac:(lia)) as Hd.
    pose proof (@mod_bound r 64 ltac:(lia)) as Hm.
    revert Hd Hm. generalize (r / 64) (r mod 64). intros q m Hd Hm.
    repeat (apply Forall_cons; [apply high_byte; lia |]). apply Forall_nil. }
  destruct ((r <? 65536) && negb ((55296 <=? r) && (r <=? 57343)))%bool eqn:E3.
  { apply andb_true_iff in E3. destruct E3 as [E3 _]. bools.
    pose proof (@div_bound r 4096 16 ltac:(lia) ltac:(lia)) as Hd.
    pose proof (@mod_bound (r / 64) 64 ltac:(lia)) as Hm1.
    pose proof (@mod_bound r 64 ltac:(lia)) as Hm.
    revert Hd Hm1 Hm. generalize (r / 4096) ((r / 64) mod 64) (r mod 64).
    intros q m1 m Hd Hm1 Hm.
    repeat (apply Forall_cons; [apply high_byte; lia |]). apply Forall_nil. }
  destruct ((65536 <=? r) && (r <=? 1114111))%bool eqn:E4.
  { bools.
    pose proof (@div_bound r 262144 5 ltac:(lia) ltac:(lia)) as Hd.
    pose proof (@mod_bound (r / 4096) 64 ltac:(lia)) as Hm2.
    pose proof (@mod_bound (r / 64) 64 ltac:(lia)) as Hm1.
    pose proof (@mod_bound r 64 ltac:(lia)) as Hm.
    revert Hd Hm2 Hm1 Hm.
    generalize (r / 262144) ((r / 4096) mod 64) ((r / 64) mod 64) (r mod 64).
    intros q m2 m1 m Hd Hm2 Hm1 Hm.
    repeat (apply Forall_cons; [apply high_byte; lia |]). apply Forall_nil. }
  repeat (apply Forall_cons; [apply high_byte; lia |]). apply Forall_nil.
Qed.

Lemma hexdigit_range n : n < 16 -> 48 <= Str.byteN (hexdigit n).
Proof.
  intros H. unfold hexdigit. destruct (n <? 10) eqn:E; bools;
    unfold Str.byteN; rewrite N_ascii_embedding; lia.
Qed.

(** How one rune is written: the four cases of the [switch]. *)
Lemma writeRune_cases r :
  (r = 92 /\ writeRune r = ["\"; "\"]%char)
  \/ (r = 34 /\ writeRune r = ["\"%char; dquote])
  \/ (r <= 31 /\ exists rest, writeRune r = "\"%char :: rest
                              /\ Forall (fun b => 48 <= Str.byteN b) rest)
  \/ (32 <= r /\ r <> 34 /\ r <> 92 /\ writeRune r = Str.encodeRune r
      /\ Forall plainByte (Str.encodeRune r)).
Proof.
  unfold writeRune.
  destruct (r =? 92) eqn:E92; [bools; now left |].
  destruct (r =? 34) eqn:E34; [bools; right; now left |].
  destruct (r =? 8) eqn:E8.
  { bools. subst. right. right. left. split; [lia |].
    eexists. split; [reflexivity |]. repeat constructor. vm_compute. discriminate. }
  destruct (r =? 9) eqn:E9.
  { bools. subst. right. right. left. split; [lia |].
    eexists. split; [reflexivity |]. repeat constructor. vm_compute. discriminate. }
  destruct (r =? 10) eqn:E10.
  { bools. subst. right. right. left. split; [lia |].
    eexists. split; [reflexivity |]. repeat constructor. vm_compute. discriminate. }
  destruct (r =? 12) eqn:E12.
  { bools. subst. right. right. left. split; [lia |].
    eexists. split; [reflexivity |]. repeat constructor. vm_compute. discriminate. }
  destruct (r =? 13) eqn:E13.
  { bools. subst. right. right. left. split; [lia |].
    eexists. split; [reflexivity |]. repeat constructor. vm_compute. discriminate. }
  destruct (r <=? 31) eqn:E31.
  { bools. right. right. left. split; [assumption |].
    eexists. split; [reflexivity |].
    assert (Hq : r / 16 < 16) by (apply div_bound; lia).
    assert (Hm : r mod 16 < 16) by (apply mod_bound; lia).
    repeat (apply Forall_cons; [first [now apply hexdigit_range | vm_compute; discriminate] |]).
    apply Forall_nil. }
  bools. right. right. right.
  assert (H32 : 32 <= r) by lia.
  repeat split; try assumption. now apply encodeRune_plain.
Qed.

Lemma writeRune_printable r : Forall (fun b => 32 <= Str.byteN b) (writeRune r).
Proof.
  destruct (writeRune_cases r) as [[_ ->] | [[_ ->] | [[_ [rest [-> H]]] | [_ [_ [_ [-> H]]]]]]].
  - repeat constructor; vm_compute; discriminate.
  - repeat constructor; vm_compute; discriminate.
  - constructor; [vm_compute; discriminate |].
    eapply Forall_impl; [| exact H]. simpl. intros. lia.
  - eapply Forall_impl; [| exact H]. unfold plainByte. simpl. intros. tauto.
Qed.

Lemma bytes_of_bytes l : Str.bytes (Str.of_bytes l) = l.
Proof. apply list_ascii_of_string_of_list_ascii. Qed.

Lemma bytes_app a b : Str.bytes (a ++ b) = (Str.bytes a ++ Str.bytes b)%list.
Proof. induction a as [| c r IH]; simpl; [reflexivity | now rewrite <- IH]. Qed.

(** X6. [writeJCSString] writes a double quote, one piece for every rune of
    the string, and a double quote.  The piece of a backslash or of a double
    quote is that character after a backslash; the piece of a control
    character (up to U+001F) is a backslash and letters or digits; every
    other rune is written in UTF-8, in bytes that are no control character,
    no double quote and no backslash.  So no byte of the output is below
    0x20. *)
Theorem writeJCSString_escapes (s : string) :
  Str.bytes (writeJCSString s)
  = (dquote :: flat_map writeRune (Str.runes s) ++ [dquote])%list
  /\ (forall r,
         (r = 92 /\ writeRune r = ["\"; "\"]%char)
         \/ (r = 34 /\ writeRune r = ["\"%char; dquote])
         \/ (r <= 31 /\ exists rest, writeRune r = "\"%char :: rest
                                     /\ Forall (fun b => 48 <= Str.byteN b) rest)
         \/ (32 <= r /\ r <> 34 /\ r <> 92 /\ writeRune r = Str.encodeRune r
             /\ Forall plainByte (Str.encodeRune r)))
  /\ Forall (fun b => 32 <= Str.byteN b) (Str.bytes (writeJCSString s)).
Proof.
  assert (E : Str.bytes (writeJCSString s)
              = (dquote :: flat_map writeRune (Str.runes s) ++ [dquote])%list).
  { unfold writeJCSString. simpl. f_equal. rewrite bytes_app, bytes_of_bytes. reflexivity. }
  split; [exact E |]. split; [exact writeRune_cases |].
  rewrite E. constructor; [vm_compute; discriminate |].
  apply Forall_app. split.
  - apply Forall_flat_map. apply Forall_forall. intros r _. apply writeRune_printable.
  - repeat constructor. vm_compute. discriminate.
Qed.

End CanonicalStrings.

Section MarshalFailures.
Variable go : GoStdlib.

Lemma numbersOk_arr l : numbersOk go (JArr l) <-> Forall (numbersOk go) l.
Proof.
  simpl. induction l as [| x r IH]; split; intros H.
  - constructor.
  - exact I.
  - destruct H as [Hx Hr]. constructor; [assumption | now apply IH].
  - inversion H; subst. split; [assumption | now apply IH].
Qed.

Lemma numbersOk_obj m :
  numbersOk go (JObj m) <-> Forall (fun kv => numbersOk go (snd kv)) m.
Proof.
  simpl. induction m as [| [k x] r IH]; split; intros H.
  - constructor.
  - exact I.
  - destruct H as [Hx Hr]. constructor; [assumption | now apply IH].
  - inversion H; subst. split; [assumption | now apply IH].
Qed.

Lemma formatJCSFloat64_finite f :
  (exists s, formatJCSFloat64 go f = Ok s) <-> nonFinite f = false.
Proof.
  unfold formatJCSFloat64. destruct (nonFinite f).
  - split; [intros [s H]; discriminate | discriminate].
  - split; [reflexivity | intros _].
    destruct (f =? 0)%float; [now eexists |].
    match goal with |- context [String.eqb ?x "-0"] => destruct (String.eqb x "-0") end;
      now eexists.
Qed.

Lemma formatJCSNumber_ok s :
  (exists t, formatJCSNumber go s = Ok t) <-> numberOk go s.
Proof.
  unfold formatJCSNumber, numberOk.
  destruct (strconv_ParseFloat go s) as [f [e |]].
  - split; [intros [t H]; discriminate | contradiction].
  - apply formatJCSFloat64_finite.
Qed.

Lemma writeItems_ok l :
  Forall (fun x => exists s, writeJCS go x = Ok s) l <->
  exists items, writeItems (writeJCS go) l = Ok items.
Proof.
  induction l as [| x r IH]; cbn [writeItems].
  - split; [now eexists | constructor].
  - split.
    + intros H. inversion H as [| ? ? [s Hs] Hr]; subst.
      apply IH in Hr. destruct Hr as [items Hi]. rewrite Hs, Hi. simpl. now eexists.
    + intros [items H].
      destruct (writeJCS go x) as [s | |] eqn:Es; simpl in H; try discriminate.
      destruct (writeItems (writeJCS go) r) as [ss | |] eqn:Er; simpl in H; try discriminate.
      constructor; [eexists; exact Es | apply IH; eexists; reflexivity].
Qed.

Lemma writeMembers_total (w : list (string * res string)) keys :
  (forall k r, mget k w = Some r -> exists s, r = Ok s) ->
  exists ms, writeMembers w keys = Ok ms.
Proof.
  intros H. induction keys as [| k ks [ms IH]]; simpl; [now eexists |].
  rewrite IH. destruct (mget k w) as [r |] eqn:E.
  - destruct (H _ _ E) as [s ->]. simpl. now eexists.
  - simpl. now eexists.
Qed.

Lemma writeMembers_each (w : list (string * res string)) keys ms :
  writeMembers w keys = Ok ms ->
  forall k r, In k keys -> mget k w = Some r -> exists s, r = Ok s.
Proof.
  revert ms. induction keys as [| k0 ks IH]; intros ms H k r Hin Hr; [contradiction |].
  simpl in H.
  destruct (match mget k0 w with Some r0 => r0 | None => Ok "null" end) as [s | |] eqn:E0;
    simpl in H; try discriminate.
  destruct (writeMembers w ks) as [rest | |] eqn:Er; simpl in H; try discriminate.
  destruct Hin as [<- | Hin].
  - rewrite Hr in E0. now exists s.
  - eapply IH; eauto.
Qed.

Lemma mget_first (V : Type) k (x : V) m :
  NoDup (map fst m) -> In (k, x) m -> mget k m = Some x.
Proof.
  induction m as [| [k' x'] r IH]; simpl; intros Hnd Hin; [contradiction |].
  inversion Hnd as [| ? ? Hk Hr]; subst.
  destruct Hin as [Heq | Hin].
  - inversion Heq; subst. now rewrite String.eqb_refl.
  - destruct (String.eqb_spec k k') as [-> | _]; [| now apply IH].
    exfalso. apply Hk. apply in_map_iff. now exists (k', x).
Qed.

Lemma mget_some_In (V : Type) k (x : V) m : mget k m = Some x -> In (k, x) m.
Proof.
  induction m as [| [k' x'] r IH]; simpl; [discriminate |].
  destruct (String.eqb_spec k k') as [-> | _].
  - intros H. inversion H. now left.
  - intros H. right. now apply IH.
Qed.

Lemma numbersOk_written d : numbersOk go d -> exists s, writeJCS go d = Ok s.
Proof.
  induction d as [| b0 | s0 | s0 | f0 | l IH | m IH] using json_induction; intros H.
  - now eexists.
  - now eexists.
  - now eexists.
  - simpl. now apply formatJCSNumber_ok.
  - simpl. now apply formatJCSFloat64_finite.
  - rewrite writeJCS_arr. apply numbersOk_arr in H.
    assert (Hall : Forall (fun x => exists s, writeJCS go x = Ok s) l).
    { clear - IH H. induction IH as [| x r Hx _ IHr]; [constructor |].
      inversion H; subst. constructor; auto. }
    apply writeItems_ok in Hall. destruct Hall as [items ->]. simpl. now eexists.
  - rewrite writeJCS_obj. apply numbersOk_obj in H.
    destruct (@writeMembers_total (map (fun kv => (fst kv, writeJCS go (snd kv))) m)
                (sortedKeys m)) as [ms Hms].
    + intros k r Hr. rewrite mget_map in Hr.
      destruct (mget k m) as [x |] eqn:E; [| discriminate].
      simpl in Hr. inversion Hr; subst r. apply mget_some_In in E.
      rewrite Forall_forall in IH, H. apply (IH (k, x) E). apply (H (k, x) E).
    + rewrite Hms. simpl. now eexists.
Qed.

Lemma written_numbersOk d :
  distinctKeys d -> forall s, writeJCS go d = Ok s -> numbersOk go d.
Proof.
  induction d as [| b0 | s0 | s0 | f0 | l IH | m IH] using json_induction;
    intros Hd s H; try exact I.
  - simpl in *. apply formatJCSNumber_ok. now exists s.
  - simpl in *. apply formatJCSFloat64_finite. now exists s.
  - rewrite writeJCS_arr in H. apply distinctKeys_arr in Hd. apply numbersOk_arr.
    destruct (writeItems (writeJCS go) l) as [items | |] eqn:E; try discriminate.
    assert (Hall : Forall (fun x => exists s, writeJCS go x = Ok s) l)
      by (apply writeItems_ok; eexists; exact E).
    clear - IH Hd Hall. induction IH as [| x r Hx _ IHr]; [constructor |].
    inversion Hd; subst. inversion Hall as [| ? ? [s Hs] Hr]; subst.
    constructor; eauto.
  - rewrite writeJCS_obj in H. apply distinctKeys_obj in Hd. destruct Hd as [Hnd Hvals].
    apply numbersOk_obj.
    destruct (writeMembers _ (sortedKeys m)) as [ms | |] eqn:E; try discriminate.
    apply NoDup_keys in Hnd.
    rewrite Forall_forall in *. intros [k x] Hin.
    destruct (@writeMembers_each _ _ _ E k (writeJCS go x)) as [t Ht].
    + eapply Permutation_in; [symmetry; apply sortedKeys_permutation |].
      apply in_map_iff. now exists (k, x).
    + rewrite mget_map. now rewrite (@mget_first _ _ _ _ Hnd Hin).
    + apply (IH (k, x) Hin (Hvals (k, x) Hin) t Ht).
Qed.

(** X7. The only failure of [Marshal] on a decoded value is a number:
    [Marshal] returns the bytes of a document when every number in it, at
    any depth, is read by [strconv.ParseFloat] without error as a finite
    [float64]; and, the keys of each object being different, only then. *)
Theorem Marshal_fails_only_on_numbers (d : json) :
  (numbersOk go d -> exists s, Marshal go d = Ok s)
  /\ (distinctKeys d -> forall s, Marshal go d = Ok s -> numbersOk go d).
Proof.
  split; [apply numbersOk_written | apply written_numbersOk].
Qed.

End MarshalFailures.

Section Paths.

Lemma starts_app p c r x :
  Str.HasPrefix (String c r ++ x) (String p "") = Str.HasPrefix (String c r) (String p "").
Proof.
  unfold Str.HasPrefix. simpl. destruct (ascii_dec p c); [| reflexivity].
  generalize (r ++ x). intros y. now destruct r, y.
Qed.

Lemma ptrJoin_cons prefix c r :
  prefix <> "" ->
  ptrJoin prefix (String c r)
  = prefix ++ (if Str.HasPrefix (String c r) "[" || Str.HasPrefix (String c r) "."
               then "" else ".") ++ String c r.
Proof.
  intros H. unfold ptrJoin.
  destruct (String.eqb_spec prefix "") as [-> | _]; [contradiction |].
  cbn [String.eqb].
  destruct (Str.HasPrefix (String c r) "[" || Str.HasPrefix (String c r) "."); reflexivity.
Qed.

Lemma ptrJoin_nonempty a c r : exists c' r', ptrJoin a (String c r) = String c' r'.
Proof.
  destruct a as [| x a'].
  - now exists c, r.
  - rewrite ptrJoin_cons by discriminate.
    simpl. now eexists; eexists.
Qed.

Lemma ptrJoin_empty_r a : ptrJoin a "" = a.
Proof. unfold ptrJoin. destruct (String.eqb_spec a ""); [now subst | reflexivity]. Qed.

(** X8. [ptrJoin] is associative and the empty path is its identity on both
    sides: a path built from segments does not depend on how the joins are
    grouped.  A segment that starts with [[] or [.] is appended as it is,
    any other after a dot. *)
Theorem ptrJoin_monoid (a b c : string) :
  ptrJoin "" a = a
  /\ ptrJoin a "" = a
  /\ ptrJoin (ptrJoin a b) c = ptrJoin a (ptrJoin b c)
  /\ (a <> "" -> b <> "" ->
      ptrJoin a b = if Str.HasPrefix b "[" || Str.HasPrefix b "."
                    then a ++ b else a ++ "." ++ b).
Proof.
  split; [reflexivity |].
  split; [apply ptrJoin_empty_r |].
  split.
  - destruct a as [| ca ra]; [reflexivity |].
    destruct b as [| cb rb]; [reflexivity |].
    destruct c as [| cc rc].
    { now rewrite !ptrJoin_empty_r. }
    destruct (ptrJoin_nonempty (String ca ra) cb rb) as [c1 [r1 E1]].
    destruct (ptrJoin_nonempty (String cb rb) cc rc) as [c2 [r2 E2]].
    rewrite (@ptrJoin_cons (ptrJoin (String ca ra) (String cb rb)) cc rc)
      by (rewrite E1; discriminate).
    rewrite E2. rewrite (@ptrJoin_cons (String ca ra) c2 r2) by discriminate.
    rewrite <- E2.
    rewrite (@ptrJoin_cons (String ca ra) cb rb) by discriminate.
    rewrite (@ptrJoin_cons (String cb rb) cc rc) by discriminate.
    set (sep1 := if Str.HasPrefix (String cb rb) "[" || Str.HasPrefix (String cb rb) "."
                 then "" else ".").
    set (sep2 := if Str.HasPrefix (String cc rc) "[" || Str.HasPrefix (String cc rc) "."
                 then "" else ".").
    assert (Hp : forall p,
               Str.HasPrefix (String cb rb ++ sep2 ++ String cc rc) (String p "")
               = Str.HasPrefix (String cb rb) (String p "")).
    { intros p. apply starts_app. }
    rewrite !Hp. fold sep1.
    rewrite !append_assoc. reflexivity.
  - intros Ha Hb. destruct b as [| cb rb]; [contradiction |].
    rewrite ptrJoin_cons by assumption.
    destruct (Str.HasPrefix (String cb rb) "[" || Str.HasPrefix (String cb rb) ".");
      reflexivity.
Qed.

End Paths.

Section Keywords.

Lemma assertProfileKeywords_spec (schema : gomap) (path : string) :
  (assertProfileKeywords schema path = Ok tt <->
   forall k, In k (map fst schema) -> In k inScopeKeywords \/ In k annotationKeywords)
  /\ (forall e, assertProfileKeywords schema path = Fail e ->
                exists k, e = OutsideProfileError (pathOrRoot path) k
                          /\ In k (map fst schema)
                          /\ ~ In k inScopeKeywords /\ ~ In k annotationKeywords)
  /\ assertProfileKeywords schema path <> OutOfFuel.
Proof.
  induction schema as [| [k v] r IH]; cbn [assertProfileKeywords map fst].
  - split; [| split]; try discriminate. split; [intros _ k [] | reflexivity].
  - destruct IH as [IH1 [IH2 IH3]].
    destruct (sin k inScopeKeywords || sin k annotationKeywords) eqn:E.
    + assert (Hk : In k inScopeKeywords \/ In k annotationKeywords).
      { apply orb_true_iff in E. rewrite !sin_In in E. exact E. }
      assert (Hr : (if sin k inScopeKeywords then assertProfileKeywords r path
                    else if sin k annotationKeywords then assertProfileKeywords r path
                         else Fail (OutsideProfileError (pathOrRoot path) k))
                   = assertProfileKeywords r path).
      { destruct (sin k inScopeKeywords); [reflexivity |]. cbn [orb] in E. now rewrite E. }
      rewrite Hr. split; [| split; [| exact IH3]].
      * rewrite IH1. split.
        -- intros H k' [<- | Hk']; [exact Hk | now apply H].
        -- intros H k' Hk'. apply H. now right.
      * intros e He. destruct (IH2 e He) as [k' [-> [Hin Hn]]]. exists k'.
        split; [reflexivity |]. split; [now right | exact Hn].
    + apply orb_false_iff in E. destruct E as [E1 E2]. rewrite E1, E2.
      assert (N1 : ~ In k inScopeKeywords) by (rewrite <- sin_In; congruence).
      assert (N2 : ~ In k annotationKeywords) by (rewrite <- sin_In; congruence).
      split; [| split]; try discriminate.
      * split; [discriminate |]. intros H.
        destruct (H k (or_introl eq_refl)); contradiction.
      * intros e He. inversion He. exists k. repeat split; auto. now left.
Qed.

(** X9. [assertProfileKeywords] accepts a schema exactly when every key is
    a keyword of the profile or an annotation keyword; otherwise it fails
    with an [OutsideProfileError] that carries the path ([<root>] for the
    empty path) and a key of the schema that is neither. *)
Theorem assertProfileKeywords_fails_closed (schema : gomap) (path : string) :
  (assertProfileKeywords schema path = Ok tt <->
   forall k, In k (map fst schema) -> In k inScopeKeywords \/ In k annotationKeywords)
  /\ (forall e, assertProfileKeywords schema path = Fail e ->
                exists k, e = OutsideProfileError (pathOrRoot path) k
                          /\ In k (map fst schema)
                          /\ ~ In k inScopeKeywords /\ ~ In k annotationKeywords)
  /\ assertProfileKeywords schema path <> OutOfFuel.
Proof. apply assertProfileKeywords_spec. Qed.

End Keywords.

Section TypeOrder.

Lemma subsetTypes_iff a b :
  subsetTypes (Some a) (Some b) = true <->
  forall t, In t a -> In t b \/ (t = "integer" /\ In "number" b).
Proof.
  unfold subsetTypes. rewrite forallb_forall.
  split; intros H t Ht; specialize (H t Ht).
  - apply orb_true_iff in H. destruct H as [H | H].
    + left. now apply sin_In.
    + apply andb_true_iff in H. destruct H as [H1 H2].
      right. split; [now apply String.eqb_eq | now apply sin_In].
  - apply orb_true_iff. destruct H as [H | [H1 H2]].
    + left. now apply sin_In.
    + right. apply andb_true_iff. split; [now apply String.eqb_eq | now apply sin_In].
Qed.

(** X10. [subsetTypes] is a preorder on type sets, the absent type (all
    types) being its greatest element: it is reflexive and transitive,
    every set is below the absent type, and the absent type is below no
    declared set. *)
Theorem subsetTypes_preorder :
  (forall a, subsetTypes a a = true)
  /\ (forall a b c, subsetTypes a b = true -> subsetTypes b c = true ->
                    subsetTypes a c = true)
  /\ (forall a, subsetTypes a None = true)
  /\ (forall b, subsetTypes None (Some b) = false).
Proof.
  split; [| split; [| split]].
  - intros [a |]; [| reflexivity]. apply subsetTypes_iff. auto.
  - intros [a |] [b |] [c |] H1 H2; try reflexivity; try discriminate.
    rewrite subsetTypes_iff in *. intros t Ht.
    destruct (H1 t Ht) as [Hb | [-> Hn]].
    + auto.
    + destruct (H2 "number" Hn) as [Hc | [Hd _]]; [auto | discriminate].
  - intros [a |]; reflexivity.
  - reflexivity.
Qed.

End TypeOrder.

Section DeciderErrors.
Variable go : GoStdlib.

Lemma noError_Ok (A : Type) (a : A) : noError (Ok a).
Proof. intros e. discriminate. Qed.

Lemma noError_andThen r k : noError r -> noError k -> noError (andThen r k).
Proof. intros Hr Hk. unfold andThen. destruct r as [[|] | |]; assumption. Qed.

Lemma noError_when c r : noError r -> noError (when c r).
Proof. intros H. unfold when. destruct c; [assumption | apply noError_Ok]. Qed.

Lemma noError_loop (A : Type) (body : A -> option (res bool)) l after :
  (forall x r, body x = Some r -> noError r) -> noError after ->
  noError (loop body l after).
Proof.
  intros Hb Ha. induction l as [| x l IH]; simpl; [assumption |].
  destruct (body x) as [r |] eqn:E; [now apply (Hb x) | assumption].
Qed.

Lemma noError_stop r res : noError r -> stopUnlessTrue r = Some res -> noError res.
Proof.
  intros H. unfold stopUnlessTrue. destruct r as [[|] | |]; intros E; inversion E; subst;
    assumption.
Qed.

Lemma noError_found test ws : (forall w, noError (test w)) -> noError (found test ws).
Proof.
  intros H. induction ws as [| w ws IH]; simpl; [apply noError_Ok |].
  specialize (H w). destruct (test w) as [[|] | |]; assumption.
Qed.

Lemma noError_constEnum h tgt cand isInput : noError (compatConstEnum go h tgt cand isInput).
Proof.
  unfold compatConstEnum.
  destruct isInput, (mget "const" tgt), (mget "const" cand),
    (enumSet go h tgt), (enumSet go h cand);
    try apply noError_Ok;
    match goal with |- context [if ?c then _ else _] => destruct c end; apply noError_Ok.
Qed.

Lemma noError_numeric tgt cand isInput : noError (compatNumericBounds go tgt cand isInput).
Proof.
  unfold compatNumericBounds.
  destruct (effectiveLowerBound go tgt), (effectiveLowerBound go cand),
           (effectiveUpperBound go tgt), (effectiveUpperBound go cand).
  destruct isInput;
    repeat match goal with
           | |- context [if ?c then _ else _] => destruct c
           end; apply noError_Ok.
Qed.

Lemma noError_simple tgt cand isInput minKey maxKey :
  noError (compatSimpleBounds go tgt cand isInput minKey maxKey).
Proof.
  unfold compatSimpleBounds.
  destruct isInput;
    repeat match goal with
           | |- context [if ?c then _ else _] => destruct c
           end; apply noError_Ok.
Qed.

Section Steps.
Variable rec : gomap -> gomap -> bool -> res bool.
Hypothesis rec_noError : forall t c i, noError (rec t c i).
Variable h : list gomap.

Lemma noError_object tgt cand isInput : noError (compatObject rec h tgt cand isInput).
Proof.
  unfold compatObject. destruct isInput.
  - destruct (negb _); [apply noError_Ok |].
    apply noError_loop; [| apply noError_Ok].
    intros [k v] r. simpl.
    destruct (asMap v); [| discriminate].
    destruct (mget k _) as [cv |]; [| discriminate].
    destruct (asMap cv); [| discriminate].
    apply noError_stop. apply rec_noError.
  - destruct (negb _); [apply noError_Ok |].
    apply noError_loop.
    + intros [k v] r. simpl.
      destruct (mget k _) as [tv |].
      * destruct (asMap tv), (asMap v); try discriminate.
        apply noError_stop. apply rec_noError.
      * destruct (mget "additionalProperties" tgt) as [[| [|] | | | | | |] |];
          try discriminate.
        intros E. inversion E. apply noError_Ok.
    + destruct (mget "additionalProperties" tgt) as [[| [|] | | | | | |] |];
        try apply noError_Ok.
      * destruct (mget "additionalProperties" cand) as [[| [|] | | | | | |] |];
          apply noError_Ok.
      * destruct (mget "additionalProperties" cand) as [[| [|] | | | | | |] |];
          try apply noError_Ok.
        apply noError_andThen; [apply rec_noError | apply noError_Ok].
Qed.

Lemma noError_union tgt cand isInput : noError (compatUnion rec h tgt cand isInput).
Proof.
  unfold compatUnion.
  destruct (unionVariants h tgt) as [tv |]; [| apply noError_Ok].
  destruct (unionVariants h cand) as [cv |]; [| apply noError_Ok].
  destruct isInput; (apply noError_loop; [| apply noError_Ok]); intros x r.
  - pose proof (@noError_found (fun w => rec x w true) cv
                  (fun w => @rec_noError x w true)) as Hf.
    destruct (found _ cv) as [[|] | |]; intros E; inversion E; subst; assumption.
  - pose proof (@noError_found (fun v => rec v x false) tv
                  (fun v => @rec_noError v x false)) as Hf.
    destruct (found _ tv) as [[|] | |]; intros E; inversion E; subst; assumption.
Qed.

End Steps.

Lemma noError_compat fuel : forall h tgt cand isInput,
  noError (compat go fuel h tgt cand isInput).
Proof.
  induction fuel as [| fuel IH]; intros h tgt cand isInput; [intros e; discriminate |].
  cbn [compat].
  destruct (isEmpty tgt); [apply noError_Ok |].
  destruct (isEmpty cand); [apply noError_Ok |].
  match goal with |- context [if ?c then _ else _] => destruct c end;
    [apply noError_Ok |].
  repeat (apply noError_andThen; [| try apply noError_Ok]);
    try apply noError_when;
    first [ apply noError_constEnum
          | apply noError_object; intros; apply IH
          | unfold compatArray; apply IH
          | apply noError_numeric
          | apply noError_simple
          | apply noError_union; intros; apply IH ].
Qed.

Lemma decide_fails d fuel n target candidate s e :
  (forall fuel h tgt cand, noError (d fuel h tgt cand)) ->
  fst (decide go d fuel n target candidate s) = Fail e ->
  normalizationFails go fuel n target candidate s e.
Proof.
  intros Hd H. unfold normalizationFails. cbv zeta.
  unfold decide, bind, resetStack in H.
  destruct (normalizeAt go fuel n target "" _) as [[ti | e1 |] s1] eqn:E1;
    simpl in H |- *; [| left; now inversion H | discriminate].
  right. exists ti. split; [reflexivity |].
  destruct (normalizeAt go fuel n candidate "" s1) as [[tc | e2 |] s2] eqn:E2;
    simpl in H |- *; [| now inversion H | discriminate].
  exfalso. unfold getHeap, lift in H. simpl in H. now apply Hd in H.
Qed.

(** X11. The comparison itself never fails: [compat], [inputCompatible] and
    [outputCompatible] return no error on any pair of schemas, so every
    error of [InputCompatible] and [OutputCompatible] is the error of
    normalizing the target or, the target being normalized, the candidate. *)
Theorem compat_never_fails :
  (forall fuel h tgt cand isInput e, compat go fuel h tgt cand isInput <> Fail e)
  /\ (forall fuel h tgt cand e,
         inputCompatible go fuel h tgt cand <> Fail e
         /\ outputCompatible go fuel h tgt cand <> Fail e)
  /\ (forall fuel n target candidate s e,
         fst (InputCompatible go fuel n target candidate s) = Fail e ->
         normalizationFails go fuel n target candidate s e)
  /\ (forall fuel n target candidate s e,
         fst (OutputCompatible go fuel n target candidate s) = Fail e ->
         normalizationFails go fuel n target candidate s e).
Proof.
  assert (Hin : forall fuel h tgt cand, noError (inputCompatible go fuel h tgt cand)).
  { intros fuel h tgt cand. unfold inputCompatible.
    destruct (isEmpty cand); [apply noError_Ok | apply noError_compat]. }
  assert (Hout : forall fuel h tgt cand, noError (outputCompatible go fuel h tgt cand)).
  { intros fuel h tgt cand. unfold outputCompatible.
    destruct (isEmpty cand); [apply noError_Ok | apply noError_compat]. }
  split; [intros; apply noError_compat |].
  split; [intros; split; [apply Hin | apply Hout] |].
  split; intros fuel n target candidate s e H.
  - now apply (@decide_fails (inputCompatible go)).
  - now apply (@decide_fails (outputCompatible go)).
Qed.

End DeciderErrors.

Section StoreInvariants.
Variable go : GoStdlib.
Local Open Scope go_scope.

Lemma steady_ret (A : Type) (a : A) : steady (ret a).
Proof. intros s. simpl. auto. Qed.

Lemma steady_raise (A : Type) e : steady (@raise A e).
Proof. intros s. simpl. auto. Qed.

Lemma steady_outOfFuel (A : Type) : steady (@outOfFuel A).
Proof. intros s. simpl. auto. Qed.

Lemma steady_lift (A : Type) (r : res A) : steady (lift r).
Proof. intros s. simpl. auto. Qed.

Lemma steady_bind (A B : Type) (c : M A) (k : A -> M B) :
  steady c -> (forall a, steady (k a)) -> steady (bind c k).
Proof.
  intros Hc Hk s. unfold bind. destruct (Hc s) as [H1 H2].
  destruct (c s) as [[a | e |] s1]; simpl in *; auto.
  destruct (Hk a s1) as [H3 H4]. split; [congruence | lia].
Qed.

Lemma length_update h l m : List.length (update h l m) = List.length h.
Proof.
  revert l. induction h as [| x h IH]; intros l; simpl; [reflexivity |].
  destruct l; simpl; [reflexivity | now rewrite IH].
Qed.

Lemma steady_alloc m : steady (alloc m).
Proof. intros s. simpl. rewrite List.length_app. simpl. split; [reflexivity | lia]. Qed.

Lemma steady_load l : steady (load l).
Proof. intros s. simpl. auto. Qed.

Lemma steady_keysOf l : steady (keysOf l).
Proof. intros s. simpl. auto. Qed.

Lemma steady_mapGet l k : steady (mapGet l k).
Proof. intros s. simpl. auto. Qed.

Lemma steady_getHeap : steady getHeap.
Proof. intros s. simpl. auto. Qed.

Lemma steady_mapSet l k v : steady (mapSet l k v).
Proof. intros s. simpl. rewrite length_update. auto. Qed.

Lemma steady_cloneMap l : steady (cloneMap l).
Proof. unfold cloneMap. apply steady_bind; [apply steady_load | intros; apply steady_alloc]. Qed.

Lemma steady_mapOrNew v : steady (mapOrNew v).
Proof.
  unfold mapOrNew. destruct v as [[| | | | | | |] |];
    first [apply steady_ret | apply steady_alloc].
Qed.

Lemma steady_rangeKeys l keys body :
  (forall k v, steady (body k v)) -> steady (rangeKeys l keys body).
Proof.
  intros H. induction keys as [| k ks IH]; simpl; [apply steady_ret |].
  apply steady_bind; [apply steady_mapGet |].
  intros [x |]; (apply steady_bind; [| intros; exact IH]); [apply H | apply steady_ret].
Qed.

Lemma steady_range l body : (forall k v, steady (body k v)) -> steady (range l body).
Proof.
  intros H. unfold range. apply steady_bind; [apply steady_keysOf |].
  intros keys. now apply steady_rangeKeys.
Qed.

Lemma steady_foldRange (A B : Type) (body : B -> nat -> A -> M B) l :
  (forall b i x, steady (body b i x)) -> forall idx b, steady (foldRange body idx l b).
Proof.
  intros H. induction l as [| x l IH]; intros idx b; simpl; [apply steady_ret |].
  apply steady_bind; [apply H | intros; apply IH].
Qed.

End StoreInvariants.

(* one step of a proof that a computation is [steady] *)
Ltac steady_step :=
  first
    [ apply steady_ret | apply steady_raise | apply steady_outOfFuel | apply steady_lift
    | apply steady_alloc | apply steady_load | apply steady_keysOf | apply steady_mapGet
    | apply steady_getHeap | apply steady_mapSet | apply steady_cloneMap
    | apply steady_mapOrNew
    | assumption
    | apply steady_range; intros
    | apply steady_rangeKeys; intros
    | apply steady_foldRange; intros
    | apply steady_bind; [| intros]
    | match goal with
      | H : forall _, steady _ |- steady _ => apply H
      | H : forall _ _, steady _ |- steady _ => apply H
      | H : forall _ _ _, steady _ |- steady _ => apply H
      | |- steady (match ?x with _ => _ end) => destruct x
      | |- steady (if ?c then _ else _) => destruct c
      end ].

Ltac steady_all := repeat steady_step.

Section MergeInvariants.
Variable go : GoStdlib.
Local Open Scope go_scope.

Lemma steady_mergeSteps merge acc branch path :
  (forall a b p, steady (merge a b p)) -> steady (mergeSteps go merge acc branch path).
Proof.
  intros H. unfold mergeSteps, mergeType, mergeProperties, mergeRequired,
    mergeAdditionalProperties, mergeEnum, mergeConst, mergeItems.
  cbn [mergeBounds]. unfold mergeBound. steady_all.
Qed.

Lemma steady_mergeAllOfBranch fuel : forall acc branch path,
  steady (mergeAllOfBranch go fuel acc branch path).
Proof.
  induction fuel as [| fuel IH]; intros acc branch path; simpl.
  - apply steady_outOfFuel.
  - now apply steady_mergeSteps.
Qed.

End MergeInvariants.

Section ReferenceInvariants.
Variable go : GoStdlib.
Local Open Scope go_scope.

Lemma steady_items (A B : Type) (f : A -> M B) (l : list A) :
  Forall (fun x => steady (f x)) l ->
  steady ((fix items (l : list A) : M (list B) :=
             match l with
             | [] => ret []
             | x :: r => v <~ f x ;; vs <~ items r ;; ret (v :: vs)
             end) l).
Proof.
  induction 1 as [| x r Hx _ IH]; [apply steady_ret |].
  apply steady_bind; [exact Hx | intros v].
  apply steady_bind; [exact IH | intros; apply steady_ret].
Qed.

Lemma steady_members (l : list (string * json)) :
  Forall (fun kv => steady (allocJSON (snd kv))) l ->
  steady ((fix members (m : list (string * json)) : M gomap :=
             match m with
             | [] => ret []
             | (k, x) :: r => v <~ allocJSON x ;; vs <~ members r ;; ret ((k, v) :: vs)
             end) l).
Proof.
  induction 1 as [| [k x] r Hx _ IH]; [apply steady_ret |].
  apply steady_bind; [exact Hx | intros v].
  apply steady_bind; [exact IH | intros; apply steady_ret].
Qed.

Lemma steady_allocJSON j : steady (allocJSON j).
Proof.
  induction j as [| b0 | s0 | s0 | f0 | l IH | m IH] using json_induction;
    try apply steady_ret.
  - cbn [allocJSON]. apply steady_bind; [| intros; apply steady_ret].
    now apply steady_items.
  - cbn [allocJSON]. apply steady_bind; [now apply steady_members |].
    intros ms. apply steady_bind; [apply steady_alloc | intros; apply steady_ret].
Qed.

Lemma returns_bind (A B : Type) (c : M A) (k : A -> M B) :
  (forall s, exists a, fst (c s) = Ok a) ->
  (forall a s, exists b, fst (k a s) = Ok b) ->
  forall s, exists b, fst (bind c k s) = Ok b.
Proof.
  intros Hc Hk s. unfold bind. destruct (Hc s) as [a Ha].
  destruct (c s) as [r s1]. simpl in Ha. subst r. apply Hk.
Qed.

Lemma allocJSON_returns j : forall s, exists v, fst (allocJSON j s) = Ok v.
Proof.
  induction j as [| b0 | s0 | s0 | f0 | l IH | m IH] using json_induction;
    try (intros s; eexists; reflexivity).
  - cbn [allocJSON]. apply returns_bind; [| intros; eexists; reflexivity].
    induction IH as [| x r Hx _ IHr]; [intros; eexists; reflexivity |].
    apply returns_bind; [exact Hx | intros v].
    apply returns_bind; [exact IHr | intros; eexists; reflexivity].
  - cbn [allocJSON]. apply returns_bind.
    + induction IH as [| [k x] r Hx _ IHr]; [intros; eexists; reflexivity |].
      apply returns_bind; [exact Hx | intros v].
      apply returns_bind; [exact IHr | intros; eexists; reflexivity].
    + intros ms. apply returns_bind; intros; eexists; reflexivity.
Qed.

Lemma walkPointer_fuel h toks : forall cur, walkPointer go h cur toks <> OutOfFuel.
Proof.
  induction toks as [| tok rest IH]; intros cur; cbn [walkPointer]; [discriminate |].
  cbv zeta. destruct cur; try discriminate.
  - destruct (String.eqb _ "-"); [discriminate |].
    destruct (Atoi _) as [idx |]; [| discriminate].
    destruct (_ || _)%bool; [discriminate |].
    destruct (nth_error _ _); [apply IH | discriminate].
  - destruct (mget _ _); [apply IH | discriminate].
Qed.

Lemma resolveJSONPointer_fuel h doc fragment :
  resolveJSONPointer go h doc fragment <> OutOfFuel.
Proof.
  unfold resolveJSONPointer. destruct (String.eqb fragment ""); [discriminate |].
  destruct (negb _); [discriminate | apply walkPointer_fuel].
Qed.

Lemma pop_pushed key st :
  sin key st = false ->
  filter (fun k => negb (String.eqb k key)) (sadd key st) = st.
Proof.
  intros H. unfold sadd. rewrite H. rewrite filter_app. simpl.
  rewrite String.eqb_refl. simpl. rewrite app_nil_r.
  apply forallb_filter_id. apply forallb_forall. intros k Hk.
  destruct (String.eqb_spec k key) as [-> | _]; [| reflexivity].
  apply sin_In in Hk. congruence.
Qed.

Lemma refDocument_outcome n u ref path key s r s' :
  sin key (refStack s) = false ->
  refDocument go n u ref path key (mkState (heap s) (sadd key (refStack s))) = (r, s') ->
  (List.length (heap s) <= List.length (heap s'))%nat
  /\ match r with
     | Ok _ => refStack s' = sadd key (refStack s)
     | Fail e => refStack s' = refStack s
                 /\ exists cause, e = RefError (pathOrRoot path) ref cause
     | OutOfFuel => False
     end.
Proof.
  intros Hin. set (s1 := mkState (heap s) (sadd key (refStack s))).
  assert (Hpop : refStack (pop key s1) = refStack s /\ heap (pop key s1) = heap s).
  { unfold pop, s1. simpl. now rewrite pop_pushed. }
  destruct Hpop as [Hp1 Hp2].
  assert (Hfail : forall cause,
             (cleanup key ;;; raise (refError path ref cause)) s1 = (r, s') ->
             (List.length (heap s) <= List.length (heap s'))%nat
             /\ match r with
                | Ok _ => refStack s' = sadd key (refStack s)
                | Fail e => refStack s' = refStack s
                            /\ exists cause, e = RefError (pathOrRoot path) ref cause
                | OutOfFuel => False
                end).
  { intros cause E. unfold bind, cleanup, raise, refError in E. inversion E; subst.
    rewrite Hp1, Hp2. split; [lia | split; [reflexivity | eexists; reflexivity]]. }
  unfold refDocument. destruct (fragmentOnly u ref).
  { intros E. inversion E; subst. simpl. split; [lia | reflexivity]. }
  destruct (Fetch n) as [fetch |]; [| apply Hfail].
  destruct (fetch u) as [e | fetched]; [apply Hfail |].
  unfold decodeJSON. destruct (json_Decode go fetched) as [e | [v rest]]; [apply Hfail |].
  destruct (json_Decode go rest) as [e | x]; [| apply Hfail].
  intros E. destruct (steady_allocJSON v s1) as [H1 H2].
  destruct (allocJSON_returns v s1) as [a Ha].
  rewrite E in H1, H2, Ha. simpl in *. subst r. split; [exact H2 | exact H1].
Qed.

(** What [resolveRef] does to the state: no map leaves the store; when it
    returns a value its key was not on the stack and now is; every failure
    is a [RefError] for the path and the reference, and leaves the stack
    as it was. *)
Lemma resolveRef_outcome n ref path s r s' :
  resolveRef go n ref path s = (r, s') ->
  (List.length (heap s) <= List.length (heap s'))%nat
  /\ match r with
     | Ok (v, key) => sin key (refStack s) = false /\ refStack s' = sadd key (refStack s)
     | Fail e => refStack s' = refStack s
                 /\ exists cause, e = RefError (pathOrRoot path) ref cause
     | OutOfFuel => False
     end.
Proof.
  unfold resolveRef.
  destruct (url_Parse go ref) as [e | u0].
  { intros E. inversion E; subst. split; [lia | split; [reflexivity | eexists; reflexivity]]. }
  destruct (againstBase go n u0) as [u |].
  2: { intros E. inversion E; subst.
       split; [lia | split; [reflexivity | eexists; reflexivity]]. }
  cbv zeta. set (key := url_String go u).
  unfold bind at 1. unfold inStack at 1.
  destruct (sin key (refStack s)) eqn:Ein.
  { intros E. inversion E; subst. split; [lia | split; [reflexivity | eexists; reflexivity]]. }
  unfold bind at 1. unfold push at 1. unfold bind at 1.
  destruct (refDocument go n u ref path key _) as [rd s2] eqn:Ed.
  apply refDocument_outcome in Ed; [| exact Ein]. destruct Ed as [Hlen Hres].
  destruct rd as [doc | e |]; [| | contradiction].
  - unfold bind at 1. unfold getHeap at 1.
    pose proof (@resolveJSONPointer_fuel (heap s2) doc (Fragment u)) as Hf.
    destruct (resolveJSONPointer go (heap s2) doc (Fragment u)) as [v | e |].
    + intros E. inversion E; subst. split; [exact Hlen | split; [exact Ein | exact Hres]].
    + intros E. unfold bind, cleanup, raise, refError, pop in E. inversion E; subst.
      simpl. split; [exact Hlen |]. split; [| eexists; reflexivity].
      rewrite Hres. now apply pop_pushed.
    + contradiction.
  - intros E. inversion E; subst. split; [exact Hlen | exact Hres].
Qed.

End ReferenceInvariants.

Section NormalizerInvariants.
Variable go : GoStdlib.
Local Open Scope go_scope.

Lemma steady_intro (A : Type) (c : M A) :
  (forall s r s', c s = (r, s') ->
                  refStack s' = refStack s
                  /\ (List.length (heap s) <= List.length (heap s'))%nat) ->
  steady c.
Proof. intros H s. destruct (c s) as [r s'] eqn:E. simpl. now apply (H s r). Qed.

Lemma steady_run (A : Type) (c : M A) s r s' :
  steady c -> c s = (r, s') ->
  refStack s' = refStack s /\ (List.length (heap s) <= List.length (heap s'))%nat.
Proof. intros H E. specialize (H s). now rewrite E in H. Qed.

Lemma steady_resolve_cleanup (A : Type) n ref path (k : val * string -> M A) :
  (forall r, steady (k r)) ->
  steady (r <~ resolveRef go n ref path ;; cleanup (snd r) ;;; k r).
Proof.
  intros Hk. apply steady_intro. intros s r0 s' E0. unfold bind at 1 in E0.
  destruct (resolveRef go n ref path s) as [r s1] eqn:E.
  apply resolveRef_outcome in E. destruct E as [Hlen Hres].
  destruct r as [[v key] | e |]; [| inversion E0; subst; tauto | contradiction].
  destruct Hres as [Hin Hst].
  unfold bind, cleanup in E0. cbn [snd] in E0.
  assert (Hp : refStack (pop key s1) = refStack s).
  { unfold pop. simpl. rewrite Hst. now apply pop_pushed. }
  assert (Hh : heap (pop key s1) = heap s1) by reflexivity.
  destruct (k (v, key) (pop key s1)) as [r2 s2] eqn:E2.
  apply steady_run in E2; [| apply Hk]. destruct E2 as [H1 H2].
  assert (s' = s2) by (destruct r2; inversion E0; reflexivity). subst s'.
  split; [congruence | rewrite Hh in H2; lia].
Qed.

Lemma steady_resolve_defer (A : Type) n ref path (k : val * string -> M A) :
  (forall r, steady (k r)) ->
  steady (r <~ resolveRef go n ref path ;; defer (pop (snd r)) (k r)).
Proof.
  intros Hk. apply steady_intro. intros s r0 s' E0. unfold bind at 1 in E0.
  destruct (resolveRef go n ref path s) as [r s1] eqn:E.
  apply resolveRef_outcome in E. destruct E as [Hlen Hres].
  destruct r as [[v key] | e |]; [| inversion E0; subst; tauto | contradiction].
  destruct Hres as [Hin Hst].
  unfold defer in E0. cbn [snd] in E0.
  destruct (k (v, key) s1) as [a s2] eqn:E2.
  apply steady_run in E2; [| apply Hk]. destruct E2 as [H1 H2].
  inversion E0; subst. simpl. split; [| lia]. rewrite H1, Hst. now apply pop_pushed.
Qed.

Lemma steady_flattenAllOf fuel n allOf path : steady (flattenAllOf go fuel n allOf path).
Proof.
  unfold flattenAllOf. destruct (asSlice allOf) as [arr |]; [| apply steady_raise].
  destruct (_ =? 0)%nat; [apply steady_alloc |].
  apply steady_bind; [apply steady_alloc | intros merged].
  apply steady_foldRange. intros b i x. unfold flattenBranch.
  destruct (asMap x) as [branch |]; [| apply steady_raise].
  cbv zeta. apply steady_bind; [apply steady_load | intros m].
  apply steady_bind; [apply steady_lift | intros _].
  destruct (hasKey m "oneOf"); [apply steady_raise |].
  destruct (hasKey m "anyOf"); [apply steady_raise |].
  apply steady_bind.
  - destruct (refOf m) as [ref |]; [| apply steady_ret].
    apply steady_resolve_cleanup. intros r.
    destruct (asMap (fst r)); [apply steady_ret | apply steady_raise].
  - intros branch'. apply steady_bind; [apply steady_mergeAllOfBranch |].
    intros; apply steady_ret.
Qed.

Lemma steady_normalizeSteps normalize path out :
  (forall schema p, steady (normalize schema p)) ->
  steady (normalizeSteps go normalize path out).
Proof.
  intros H. unfold normalizeSteps, normType, normRequired, normProperties,
    normAdditionalProperties, normItems, normUnion.
  steady_all.
Qed.

Lemma steady_normalizeAt fuel : forall n schema path,
  steady (normalizeAt go fuel n schema path).
Proof.
  induction fuel as [| fuel IH]; intros n schema path; cbn [normalizeAt].
  - apply steady_outOfFuel.
  - destruct schema as [sl |]; [| apply steady_alloc].
    apply steady_bind; [apply steady_load | intros m].
    apply steady_bind; [apply steady_lift | intros _].
    destruct (refOf m) as [ref |].
    + apply steady_resolve_defer. intros r.
      destruct (asMap (fst r)); [apply IH | apply steady_raise].
    + cbv zeta. destruct (mget "allOf" (stripped m)) as [allOf |].
      * apply steady_bind; [apply steady_flattenAllOf | intros; apply IH].
      * apply steady_normalizeSteps. intros; apply IH.
Qed.

(** X12. Whatever [normalizeAt] returns (a schema, an error, or nothing for
    want of fuel), [refStack] is afterwards what it was before the call:
    every reference pushed for cycle detection is deleted again.  So after
    [Normalize], [InputCompatible] and [OutputCompatible], which start
    from an empty stack, the stack is empty. *)
Theorem refStack_is_restored (fuel : nat) (n : Normalizer) :
  (forall schema path s,
      refStack (snd (normalizeAt go fuel n schema path s)) = refStack s)
  /\ (forall schema s, refStack (snd (Normalize go fuel n schema s)) = [])
  /\ (forall target candidate s,
         refStack (snd (InputCompatible go fuel n target candidate s)) = []
         /\ refStack (snd (OutputCompatible go fuel n target candidate s)) = []).
Proof.
  split; [| split].
  - intros schema path s. apply steady_normalizeAt.
  - intros schema s. unfold Normalize, bind, resetStack.
    match goal with |- context [normalizeAt go fuel n schema "" ?s0] =>
      destruct (steady_normalizeAt fuel n schema "" s0) as [H _];
      destruct (normalizeAt go fuel n schema "" s0) as [[l | e |] s1] end;
      exact H.
  - assert (Hd : forall d target candidate s,
               refStack (snd (decide go d fuel n target candidate s)) = []).
    { intros d target candidate s. unfold decide, bind, resetStack.
      match goal with |- context [normalizeAt go fuel n target "" ?s0] =>
        destruct (steady_normalizeAt fuel n target "" s0) as [H1 _];
        destruct (normalizeAt go fuel n target "" s0) as [[ti | e |] s1] end;
        simpl in H1; try exact H1.
      destruct (steady_normalizeAt fuel n candidate "" s1) as [H2 _].
      destruct (normalizeAt go fuel n candidate "" s1) as [[tc | e |] s2];
        simpl in H2 |- *; congruence. }
    intros target candidate s. split; apply Hd.
Qed.

Lemma fresh_intro (c : M loc) :
  (forall s l s', c s = (Ok l, s') ->
                  (List.length (heap s) <= l < List.length (heap s'))%nat) ->
  fresh c.
Proof.
  intros H s l E. destruct (c s) as [r s'] eqn:Ec. simpl in *. subst r. now apply H.
Qed.

Lemma fresh_run (c : M loc) s l s' :
  fresh c -> c s = (Ok l, s') ->
  (List.length (heap s) <= l < List.length (heap s'))%nat.
Proof. intros H E. specialize (H s l). rewrite E in H. now apply H. Qed.

Lemma fresh_bind (A : Type) (c : M A) (k : A -> M loc) :
  steady c -> (forall a, fresh (k a)) -> fresh (bind c k).
Proof.
  intros Hc Hk. apply fresh_intro. intros s l s' E. unfold bind in E.
  destruct (c s) as [r s1] eqn:Ec. apply steady_run in Ec; [| exact Hc]. destruct Ec as [_ Hg].
  destruct r as [a | e |]; try discriminate.
  apply fresh_run in E; [| apply Hk]. lia.
Qed.

Lemma fresh_alloc m : fresh (alloc m).
Proof.
  apply fresh_intro. intros s l s' E. unfold alloc in E. inversion E; subst. simpl.
  rewrite List.length_app. simpl. lia.
Qed.

Lemma fresh_raise e : fresh (raise e).
Proof. apply fresh_intro. intros s l s' E. discriminate. Qed.

Lemma fresh_resolve_defer n ref path (k : val * string -> M loc) :
  (forall r, fresh (k r)) ->
  fresh (r <~ resolveRef go n ref path ;; defer (pop (snd r)) (k r)).
Proof.
  intros Hk. apply fresh_intro. intros s l s' E0. unfold bind at 1 in E0.
  destruct (resolveRef go n ref path s) as [r s1] eqn:E.
  apply resolveRef_outcome in E. destruct E as [Hlen _].
  destruct r as [[v key] | e |]; try discriminate.
  unfold defer in E0. cbn [snd] in E0.
  destruct (k (v, key) s1) as [a s2] eqn:E2. inversion E0; subst.
  apply fresh_run in E2; [| apply Hk]. simpl. lia.
Qed.

Lemma fresh_normalizeAt fuel : forall n schema path,
  fresh (normalizeAt go fuel n schema path).
Proof.
  induction fuel as [| fuel IH]; intros n schema path; cbn [normalizeAt].
  - intros s l H. discriminate.
  - destruct schema as [sl |]; [| apply fresh_alloc].
    apply fresh_bind; [apply steady_load | intros m].
    apply fresh_bind; [apply steady_lift | intros _].
    destruct (refOf m) as [ref |].
    + apply fresh_resolve_defer. intros r.
      destruct (asMap (fst r)); [apply IH | apply fresh_raise].
    + cbv zeta. destruct (mget "allOf" (stripped m)) as [allOf |].
      * apply fresh_bind; [apply steady_flattenAllOf | intros; apply IH].
      * unfold normalizeSteps.
        assert (Hn : forall schema p, steady (normalizeAt go fuel n schema p))
          by (intros; apply steady_normalizeAt).
        repeat (apply fresh_bind;
                [unfold normType, normRequired, normProperties,
                   normAdditionalProperties, normItems, normUnion; steady_all
                | intros ]).
        apply fresh_alloc.
Qed.

(** X13. No call removes a map from the store, and the schema that
    [Normalize] returns is a map made during the call: it is none of the
    maps that existed before (not its input, nor a map of the root), and
    it is in the store afterwards. *)
Theorem Normalize_returns_a_new_map (fuel : nat) (n : Normalizer) (schema : option loc)
    (s : state) :
  (List.length (heap s) <= List.length (heap (snd (Normalize go fuel n schema s))))%nat
  /\ forall l, fst (Normalize go fuel n schema s) = Ok l ->
               (List.length (heap s) <= l
                < List.length (heap (snd (Normalize go fuel n schema s))))%nat.
Proof.
  unfold Normalize, bind, resetStack.
  set (s0 := {| heap := heap s; refStack := [] |}).
  destruct (normalizeAt go fuel n schema "" s0) as [r s1] eqn:E.
  pose proof E as Hg. apply steady_run in Hg; [| apply steady_normalizeAt].
  destruct Hg as [_ Hg].
  split; [exact Hg |].
  intros l Hl. simpl in Hl. subst r.
  apply fresh_run in E; [exact E | apply fresh_normalizeAt].
Qed.

End NormalizerInvariants.

Section KeyOrderLaws.
Local Open Scope N_scope.

Lemma lessUTF16_prefix a : forall b, b <> [] -> lessUTF16 a (a ++ b)%list = true.
Proof.
  induction a as [| x a IH]; intros b Hb; simpl.
  - destruct b; [contradiction | reflexivity].
  - rewrite N.eqb_refl. now apply IH.
Qed.

(** X14. [lessUTF16] is a strict total order on sequences of code units:
    irreflexive, asymmetric and transitive, with one of any two different
    sequences before the other; a proper prefix comes first.  The order is
    by code unit, not by code point: a character from U+E000 to U+FFFF is
    a smaller code point than a supplementary character (written as a
    surrogate pair), and its key comes after. *)
Theorem lessUTF16_strict_total_order :
  (forall a, lessUTF16 a a = false)
  /\ (forall a b, lessUTF16 a b = true -> lessUTF16 b a = false)
  /\ (forall a b c, lessUTF16 a b = true -> lessUTF16 b c = true -> lessUTF16 a c = true)
  /\ (forall a b, a <> b -> lessUTF16 a b = true \/ lessUTF16 b a = true)
  /\ (forall a b, b <> [] -> lessUTF16 a (a ++ b)%list = true)
  /\ (forall r1 r2, 57344 <= r1 <= 65535 -> 65536 <= r2 <= 1114111 ->
                    r1 < r2
                    /\ lessUTF16 (Str.utf16_Encode [r2]) (Str.utf16_Encode [r1]) = true).
Proof.
  split; [exact lessUTF16_irrefl |].
  split; [exact lessUTF16_asym |].
  split; [exact lessUTF16_trans |].
  split; [exact lessUTF16_total |].
  split; [exact lessUTF16_prefix |].
  intros r1 r2 H1 H2. split; [lia |].
  rewrite (@utf16_pair r2 []) by lia.
  rewrite (@utf16_single r1 []) by lia.
  assert (Hq : (r2 - 65536) / 1024 < 1024) by (apply N.Div0.div_lt_upper_bound; lia).
  revert Hq. generalize ((r2 - 65536) / 1024). intros q Hq.
  cbn [Str.utf16_Encode lessUTF16].
  destruct (N.eqb_spec (55296 + q) r1) as [E | _]; [lia |].
  apply N.ltb_lt. lia.
Qed.

End KeyOrderLaws.

Section Clones.
Local Open Scope go_scope.

Lemma contents_new h m : contents (h ++ [m])%list (List.length h) = m.
Proof. unfold contents. rewrite app_nth2, Nat.sub_diag by lia. reflexivity. Qed.

Lemma contents_old h m a :
  (a < List.length h)%nat -> contents (h ++ [m])%list a = contents h a.
Proof. intros H. unfold contents. now rewrite app_nth1. Qed.

Lemma contents_update_same h l m :
  (l < List.length h)%nat -> contents (update h l m) l = m.
Proof.
  revert l. induction h as [| x h IH]; intros l H; simpl in *; [lia |].
  destruct l; [reflexivity |]. apply IH. lia.
Qed.

Lemma contents_update_other h l m a : a <> l -> contents (update h l m) a = contents h a.
Proof.
  revert l a. induction h as [| x h IH]; intros l a H; simpl.
  - reflexivity.
  - destruct l, a; try reflexivity; try contradiction.
    unfold contents in *. simpl. apply IH. congruence.
Qed.

(** X15. [cloneMap] returns a new map with the keys and values of its
    argument and changes no other map; a later assignment to a key of the
    clone leaves the original as it was.  The copy is one level deep: a
    value that is a map is the same map in the clone and in the original. *)
Theorem cloneMap_is_a_shallow_copy (l : loc) (s : state)
    (Hl : (l < List.length (heap s))%nat) :
  let clone := List.length (heap s) in
  let s' := snd (cloneMap l s) in
  fst (cloneMap l s) = Ok clone
  /\ clone <> l
  /\ contents (heap s') clone = contents (heap s) l
  /\ (forall a, (a < List.length (heap s))%nat -> contents (heap s') a = contents (heap s) a)
  /\ refStack s' = refStack s
  /\ (forall k v,
         let s'' := snd (mapSet clone k v s') in
         contents (heap s'') clone = mset k v (contents (heap s) l)
         /\ forall a, (a < List.length (heap s))%nat ->
                      contents (heap s'') a = contents (heap s) a)
  /\ (forall k a, mget k (contents (heap s) l) = Some (VMap a) ->
                  mget k (contents (heap s') clone) = Some (VMap a)).
Proof.
  cbv zeta. unfold cloneMap, bind, load, alloc, mapSet. cbn [fst snd heap refStack].
  rewrite contents_new.
  split; [reflexivity |]. split; [lia |]. split; [reflexivity |].
  split; [intros a Ha; now apply contents_old |].
  split; [reflexivity |]. split; [| auto].
  intros k v. split.
  - apply contents_update_same. rewrite List.length_app. simpl. lia.
  - intros a Ha. rewrite contents_update_other by lia. now apply contents_old.
Qed.

End Clones.

(** The clone of a schema with a nested map. *)
Lemma cloneMap_is_a_shallow_copy_witness :
  let s := mkState [[("properties", VMap 1)]; [("x", VMap 2)]; []] [] in
  fst (cloneMap 0 s) = Ok 3
  /\ contents (heap (snd (cloneMap 0 s))) 3 = [("properties", VMap 1)].
Proof.
  cbv zeta.
  pose proof (@cloneMap_is_a_shallow_copy 0
                (mkState [[("properties", VMap 1)]; [("x", VMap 2)]; []] [])
                ltac:(simpl; lia)) as H.
  cbv zeta in H. destruct H as [H1 [_ [H3 _]]]. split; [exact H1 | exact H3].
Defined.

Section AllOfSiblings.
Variable go : GoStdlib.
Local Open Scope go_scope.

Lemma mget_filter (V : Type) (p : string -> bool) k (m : list (string * V)) :
  p k = true -> mget k (filter (fun kv => p (fst kv)) m) = mget k m.
Proof.
  intros Hk. induction m as [| [k' v] r IH]; simpl; [reflexivity |].
  destruct (p k') eqn:E; simpl.
  - now rewrite IH.
  - destruct (String.eqb_spec k k') as [-> | _]; [congruence | exact IH].
Qed.

Lemma mget_stripped k m :
  sin k annotationKeywords = false -> k <> "$defs" -> mget k (stripped m) = mget k m.
Proof.
  intros Ha Hd. unfold stripped.
  apply (@mget_filter val (fun k => negb (sin k annotationKeywords)
                                    && negb (String.eqb k "$defs"))).
  rewrite Ha. destruct (String.eqb_spec k "$defs"); [contradiction | reflexivity].
Qed.

Lemma normalizeAt_allOf fuel n sl path s allOf :
  assertProfileKeywords (contents (heap s) sl) path = Ok tt ->
  refOf (contents (heap s) sl) = None ->
  mget "allOf" (contents (heap s) sl) = Some allOf ->
  normalizeAt go (S fuel) n (Some sl) path s
  = (merged <~ flattenAllOf go fuel n allOf path ;;
     normalizeAt go fuel n (Some merged) path) s.
Proof.
  intros Ha Hr Hall. cbn [normalizeAt].
  unfold bind at 1. unfold load at 1.
  unfold bind at 1. unfold lift at 1. rewrite Ha. rewrite Hr. cbv zeta.
  rewrite mget_stripped by (reflexivity || discriminate). rewrite Hall. reflexivity.
Qed.

Lemma normalizeAt_empty_allOf fuel n sl path s :
  assertProfileKeywords (contents (heap s) sl) path = Ok tt ->
  refOf (contents (heap s) sl) = None ->
  mget "allOf" (contents (heap s) sl) = Some (VSlice []) ->
  normalizeAt go (S (S fuel)) n (Some sl) path s
  = (Ok (List.length (heap s ++ [[]])%list),
     mkState ((heap s ++ [[]]) ++ [[]])%list (refStack s)).
Proof.
  intros Ha Hr Hall. rewrite (@normalizeAt_allOf (S fuel) n sl path s (VSlice [])) by assumption.
  unfold flattenAllOf. cbn [asSlice List.length Nat.eqb].
  unfold bind at 1. unfold alloc at 1.
  cbn [normalizeAt]. unfold bind at 1. unfold load at 1. cbn [heap].
  rewrite contents_new. reflexivity.
Qed.

(** X16. When a schema has [allOf] (and no [$ref] to inline), what
    [normalizeAt] returns is made from the branches of [allOf] alone: the
    keywords beside [allOf] are not in the merged schema.  Two schemas with
    the same [allOf] normalize to the same result whatever else they hold,
    and a schema with an empty [allOf] normalizes to the empty schema. *)
Theorem allOf_siblings_are_dropped (fuel : nat) (n : Normalizer) (sl1 sl2 : loc)
    (path : string) (s : state) (allOf : val)
    (K1 : assertProfileKeywords (contents (heap s) sl1) path = Ok tt)
    (K2 : assertProfileKeywords (contents (heap s) sl2) path = Ok tt)
    (R1 : refOf (contents (heap s) sl1) = None)
    (R2 : refOf (contents (heap s) sl2) = None)
    (A1 : mget "allOf" (contents (heap s) sl1) = Some allOf)
    (A2 : mget "allOf" (contents (heap s) sl2) = Some allOf) :
  normalizeAt go (S fuel) n (Some sl1) path s
  = (merged <~ flattenAllOf go fuel n allOf path ;;
     normalizeAt go fuel n (Some merged) path) s
  /\ normalizeAt go (S fuel) n (Some sl1) path s
     = normalizeAt go (S fuel) n (Some sl2) path s
  /\ (allOf = VSlice [] ->
      let r := normalizeAt go (S (S fuel)) n (Some sl1) path s in
      exists l, fst r = Ok l /\ contents (heap (snd r)) l = []).
Proof.
  split; [now apply normalizeAt_allOf |].
  split; [now rewrite !(@normalizeAt_allOf fuel n _ path s allOf) |].
  intros ->. cbv zeta. rewrite normalizeAt_empty_allOf by assumption.
  eexists. split; [reflexivity |]. cbn [snd heap]. apply contents_new.
Qed.

End AllOfSiblings.

(** A schema [{"type": "string", "allOf": []}] and the schema
    [{"allOf": []}], with the library [goTable]. *)
Lemma allOf_siblings_are_dropped_witness :
  let s := mkState [[("type", VString "string"); ("allOf", VSlice [])];
                    [("allOf", VSlice [])]] [] in
  normalizeAt goTable 2 (plainNormalizer VNil) (Some 0) "" s
  = normalizeAt goTable 2 (plainNormalizer VNil) (Some 1) "" s.
Proof.
  cbv zeta.
  apply (proj1 (proj2 (@allOf_siblings_are_dropped goTable 1 (plainNormalizer VNil) 0 1 ""
                         (mkState [[("type", VString "string"); ("allOf", VSlice [])];
                                   [("allOf", VSlice [])]] [])
                         (VSlice []) eq_refl eq_refl eq_refl eq_refl eq_refl eq_refl))).
Defined.

Section Pointers.
Variable go : GoStdlib.

Lemma ReplaceAll2_skip a s o1 o2 new :
  a <> o1 -> Str.ReplaceAll2 (String a s) o1 o2 new = String a (Str.ReplaceAll2 s o1 o2 new).
Proof.
  intros H. destruct s as [| b r]; [reflexivity |].
  cbn [Str.ReplaceAll2]. destruct (Ascii.eqb_spec a o1); [contradiction | reflexivity].
Qed.

Lemma ReplaceAll2_other a b s o1 o2 new :
  b <> o2 ->
  Str.ReplaceAll2 (String a (String b s)) o1 o2 new
  = String a (Str.ReplaceAll2 (String b s) o1 o2 new).
Proof.
  intros H. cbn [Str.ReplaceAll2].
  destruct (Ascii.eqb_spec b o2); [contradiction |]. now rewrite andb_false_r.
Qed.

Lemma ReplaceAll2_hit a b s new :
  Str.ReplaceAll2 (String a (String b s)) a b new = new ++ Str.ReplaceAll2 s a b new.
Proof. cbn [Str.ReplaceAll2]. now rewrite !Ascii.eqb_refl. Qed.

(** Unescaping, as [resolveJSONPointer] does it, undoes the escaping of
    RFC 6901. *)
Lemma unescape_escape k :
  Str.ReplaceAll2 (Str.ReplaceAll2 (escapeToken k) "~" "1" "/") "~" "0" "~" = k.
Proof.
  induction k as [| c r IH]; [reflexivity |].
  cbn [escapeToken].
  destruct (Ascii.eqb_spec c "~") as [-> | Ht].
  - rewrite ReplaceAll2_other by discriminate.
    rewrite (@ReplaceAll2_skip "0"%char) by discriminate.
    rewrite ReplaceAll2_hit. cbn [String.append]. now rewrite IH.
  - destruct (Ascii.eqb_spec c "/") as [-> | Hs].
    + rewrite ReplaceAll2_hit. cbn [String.append].
      rewrite ReplaceAll2_skip by discriminate. now rewrite IH.
    + rewrite ReplaceAll2_skip by assumption.
      rewrite ReplaceAll2_skip by assumption. now rewrite IH.
Qed.

Lemma SplitByte_cons s sep : exists h t, Str.SplitByte s sep = h :: t.
Proof.
  induction s as [| a r [h [t IH]]]; simpl; [now eexists; eexists |].
  destruct (Ascii.eqb a sep); [now eexists; eexists |].
  rewrite IH. now eexists; eexists.
Qed.

Lemma SplitByte_skip a s h t :
  a <> "/"%char -> Str.SplitByte s "/" = h :: t ->
  Str.SplitByte (String a s) "/" = String a h :: t.
Proof.
  intros Ha Hs. cbn [Str.SplitByte].
  destruct (Ascii.eqb_spec a "/"); [contradiction |]. now rewrite Hs.
Qed.

Lemma SplitByte_escape k : forall rest h t,
  Str.SplitByte rest "/" = h :: t ->
  Str.SplitByte (escapeToken k ++ rest) "/" = (escapeToken k ++ h) :: t.
Proof.
  induction k as [| c r IH]; intros rest h t H; [exact H |].
  cbn [escapeToken].
  destruct (Ascii.eqb_spec c "~") as [-> | Ht];
    [| destruct (Ascii.eqb_spec c "/") as [-> | Hs]]; cbn [String.append].
  - apply SplitByte_skip; [discriminate |]. apply SplitByte_skip; [discriminate |].
    now apply IH.
  - apply SplitByte_skip; [discriminate |]. apply SplitByte_skip; [discriminate |].
    now apply IH.
  - apply SplitByte_skip; [assumption |]. now apply IH.
Qed.

Lemma append_empty (s : string) : s ++ "" = s.
Proof. induction s as [| c r IH]; simpl; [reflexivity | now rewrite IH]. Qed.

Lemma SplitByte_pointerTo keys :
  Str.SplitByte (pointerTo keys) "/" = "" :: map escapeToken keys.
Proof.
  induction keys as [| k r IH]; [reflexivity |].
  cbn [pointerTo String.append Str.SplitByte map].
  change (Ascii.eqb "/" "/") with true. cbv iota. f_equal.
  rewrite (@SplitByte_escape k (pointerTo r) "" (map escapeToken r) IH).
  now rewrite append_empty.
Qed.

Lemma walkPointer_follow h keys : forall cur,
  walkPointer go h cur (map escapeToken keys) = follow go h cur keys.
Proof.
  induction keys as [| k r IH]; intros cur; [reflexivity |].
  cbn [map walkPointer follow]. cbv zeta. rewrite unescape_escape.
  unfold child. destruct cur; try reflexivity.
  - destruct (String.eqb k "-"); [reflexivity |].
    cbv zeta. destruct (Atoi k) as [idx |]; [| reflexivity].
    destruct (_ || _)%bool; [reflexivity |].
    destruct (nth_error l (Z.to_nat idx)); [apply IH | reflexivity].
  - destruct (mget k (contents h l)); [apply IH | reflexivity].
Qed.

Lemma HasPrefix_first c s : Str.HasPrefix (String c s) (String c "") = true.
Proof.
  unfold Str.HasPrefix. cbn [String.prefix].
  destruct (ascii_dec c c); [now destruct s | contradiction].
Qed.

(** X17. [resolveJSONPointer] follows a JSON Pointer key by key: the pointer
    that RFC 6901 writes for the keys [keys] (each after a [/], with [~]
    written [~0] and [/] written [~1]) resolves to the value reached from
    the document by these keys, whatever characters they hold; unescaping
    undoes escaping; the empty pointer is the document itself, and a
    fragment that does not start with [/] is an error. *)
Theorem resolveJSONPointer_follows_the_keys (h : list gomap) (doc : val) :
  (forall keys, resolveJSONPointer go h doc (pointerTo keys) = follow go h doc keys)
  /\ (forall k, Str.ReplaceAll2 (Str.ReplaceAll2 (escapeToken k) "~" "1" "/") "~" "0" "~" = k)
  /\ resolveJSONPointer go h doc "" = Ok doc
  /\ (forall c r, c <> "/"%char ->
                  resolveJSONPointer go h doc (String c r)
                  = Fail (PlainError "unsupported fragment (must be JSON Pointer)")).
Proof.
  split; [| split; [exact unescape_escape | split; [reflexivity |]]].
  - intros [| k r]; [reflexivity |].
    unfold resolveJSONPointer. rewrite SplitByte_pointerTo.
    cbn [pointerTo String.append String.eqb]. 
    rewrite HasPrefix_first. cbn [negb tl]. apply walkPointer_follow.
  - intros c r Hc. unfold resolveJSONPointer. cbn [String.eqb].
    unfold Str.HasPrefix. cbn [String.prefix].
    destruct (ascii_dec "/" c) as [E | _]; [now subst |]. reflexivity.
Qed.

End Pointers.

Section ReferenceFailures.
Variable go : GoStdlib.

(** X18. [resolveRef] fails only with a [RefError] that carries the path
    ([<root>] for the empty path) and the reference, and a failure leaves
    [refStack] as it was: the key set before the lookup is deleted again.
    When it returns a value, the key it returns was not on the stack and
    is the one key added.  The bound on the depth is never the result, and
    no map leaves the store. *)
Theorem resolveRef_fails_with_RefError (n : Normalizer) (ref path : string) (s : state) :
  let r := resolveRef go n ref path s in
  (forall e, fst r = Fail e ->
             (exists cause, e = RefError (pathOrRoot path) ref cause)
             /\ refStack (snd r) = refStack s)
  /\ (forall v key, fst r = Ok (v, key) ->
                    ~ In key (refStack s)
                    /\ refStack (snd r) = (refStack s ++ [key])%list)
  /\ fst r <> OutOfFuel
  /\ (List.length (heap s) <= List.length (heap (snd r)))%nat.
Proof.
  cbv zeta. destruct (resolveRef go n ref path s) as [r s'] eqn:E.
  apply resolveRef_outcome in E. destruct E as [Hlen Hres]. cbn [fst snd].
  split; [| split; [| split; [| exact Hlen]]].
  - intros e ->. tauto.
  - intros v key ->. destruct Hres as [Hin Hst]. split.
    + rewrite <- sin_In. congruence.
    + rewrite Hst. unfold sadd. now rewrite Hin.
  - intros ->. exact Hres.
Qed.

End ReferenceFailures.

Section BoundOrder.
Variable go : GoStdlib.

Lemma ltb_asym a b : (a <? b)%float = true -> (b <? a)%float = false.
Proof.
  rewrite !ltb_spec. unfold SFltb. rewrite (SFcompare_swap (Prim2SF a) (Prim2SF b)).
  destruct (SFcompare (Prim2SF a) (Prim2SF b)) as [[ | | ] | ]; simpl; congruence.
Qed.

(** X19. The four comparisons of bounds agree with each other and never
    leave two bounds unrelated: "a is below or equal to b" is "b is above
    or equal to a"; every bound is below or equal to itself; of two bounds
    one is below or equal to the other (also when a value is NaN); two
    bounds each below or equal to the other have values of which neither
    is less, and the same exclusivity.  At equal values an exclusive upper
    bound is strictly below an inclusive one. *)
Theorem bound_comparisons_are_consistent (a b : float) (aExcl bExcl : bool) :
  lowerBoundLessOrEqual a aExcl b bExcl = lowerBoundGreaterOrEqual b bExcl a aExcl
  /\ upperBoundLessOrEqual a aExcl b bExcl = upperBoundGreaterOrEqual b bExcl a aExcl
  /\ lowerBoundLessOrEqual a aExcl a aExcl = true
  /\ upperBoundLessOrEqual a aExcl a aExcl = true
  /\ (lowerBoundLessOrEqual a aExcl b bExcl = true
      \/ lowerBoundLessOrEqual b bExcl a aExcl = true)
  /\ (upperBoundLessOrEqual a aExcl b bExcl = true
      \/ upperBoundLessOrEqual b bExcl a aExcl = true)
  /\ (lowerBoundLessOrEqual a aExcl b bExcl = true ->
      lowerBoundLessOrEqual b bExcl a aExcl = true ->
      (a <? b)%float = false /\ (b <? a)%float = false /\ aExcl = bExcl)
  /\ (upperBoundLessOrEqual a aExcl b bExcl = true ->
      upperBoundLessOrEqual b bExcl a aExcl = true ->
      (a <? b)%float = false /\ (b <? a)%float = false /\ aExcl = bExcl)
  /\ upperBoundLessOrEqual a true a false = true
  /\ upperBoundLessOrEqual a false a true = false.
Proof.
  unfold lowerBoundLessOrEqual, lowerBoundGreaterOrEqual,
    upperBoundLessOrEqual, upperBoundGreaterOrEqual.
  rewrite !ltb_irrefl.
  pose proof (@ltb_asym a b) as Hab. pose proof (@ltb_asym b a) as Hba.
  destruct (a <? b)%float, (b <? a)%float, aExcl, bExcl; simpl;
    repeat split; auto; try discriminate;
      try (specialize (Hab eq_refl); discriminate).
Qed.

(** X20. When a schema declares both the inclusive and the exclusive bound
    of one side, the effective bound is one of the two and is at least as
    strict as each: not below either lower bound, not above either upper
    bound; with equal values it is the exclusive one.  (The values are
    numbers: not NaN.) *)
Theorem effective_bound_is_the_strictest (schema : gomap) (inc exc : val)
    (Hinc : is_nan (toFloat64 go inc) = false)
    (Hexc : is_nan (toFloat64 go exc) = false) :
  (mget "minimum" schema = Some inc -> mget "exclusiveMinimum" schema = Some exc ->
   let '(v, excl) := effectiveLowerBound go schema in
   ((v, excl) = (toFloat64 go inc, false) \/ (v, excl) = (toFloat64 go exc, true))
   /\ lowerBoundGreaterOrEqual v excl (toFloat64 go inc) false = true
   /\ lowerBoundGreaterOrEqual v excl (toFloat64 go exc) true = true
   /\ ((toFloat64 go inc <? toFloat64 go exc)%float = false ->
       (toFloat64 go exc <? toFloat64 go inc)%float = false -> excl = true))
  /\ (mget "maximum" schema = Some inc -> mget "exclusiveMaximum" schema = Some exc ->
      let '(v, excl) := effectiveUpperBound go schema in
      ((v, excl) = (toFloat64 go inc, false) \/ (v, excl) = (toFloat64 go exc, true))
      /\ upperBoundLessOrEqual v excl (toFloat64 go inc) false = true
      /\ upperBoundLessOrEqual v excl (toFloat64 go exc) true = true
      /\ ((toFloat64 go inc <? toFloat64 go exc)%float = false ->
          (toFloat64 go exc <? toFloat64 go inc)%float = false -> excl = true)).
Proof.
  set (mv := toFloat64 go inc) in *. set (ev := toFloat64 go exc) in *.
  pose proof (@leb_negb_ltb ev mv Hexc Hinc) as Hle1.
  pose proof (@leb_negb_ltb mv ev Hinc Hexc) as Hle2.
  pose proof (@ltb_asym mv ev) as Ha1. pose proof (@ltb_asym ev mv) as Ha2.
  split; intros H1 H2.
  - unfold effectiveLowerBound. rewrite H1, H2. fold mv ev. cbv zeta.
    rewrite Hle1.
    destruct (ev <? mv)%float eqn:E1, (mv <? ev)%float eqn:E2; cbn [negb];
      unfold lowerBoundGreaterOrEqual; rewrite ?E1, ?E2, ?ltb_irrefl; simpl;
        repeat split; auto; try discriminate;
          try (specialize (Ha1 eq_refl); discriminate).
  - unfold effectiveUpperBound. rewrite H1, H2. fold mv ev. cbv zeta.
    rewrite Hle2.
    destruct (ev <? mv)%float eqn:E1, (mv <? ev)%float eqn:E2; cbn [negb];
      unfold upperBoundLessOrEqual; rewrite ?E1, ?E2, ?ltb_irrefl; simpl;
        repeat split; auto; try discriminate;
          try (specialize (Ha1 eq_refl); discriminate).
Qed.

End BoundOrder.

(** The schema [{"minimum": 1, "exclusiveMinimum": 1}]: the effective
    lower bound is the exclusive one. *)
Lemma effective_bound_is_the_strictest_witness :
  effectiveLowerBound goTable [("minimum", VFloat64 1); ("exclusiveMinimum", VFloat64 1)]
  = (1%float, true).
Proof.
  pose proof (@effective_bound_is_the_strictest goTable
                [("minimum", VFloat64 1); ("exclusiveMinimum", VFloat64 1)]
                (VFloat64 1) (VFloat64 1) eq_refl eq_refl) as [H _].
  specialize (H eq_refl eq_refl).
  destruct (effectiveLowerBound goTable _) as [v excl].
  destruct H as [[E | E] [_ [_ Ht]]].
  - specialize (Ht eq_refl eq_refl). inversion E; subst. discriminate.
  - exact E.
Defined.

Section NumberFormat.
Variable go : GoStdlib.

Lemma zero_is_finite f : (f =? 0)%float = true -> nonFinite f = false.
Proof.
  intros H. unfold nonFinite.
  assert (Hn : is_nan f = false).
  { destruct (is_nan f) eqn:E; [| reflexivity].
    rewrite eqb_spec in H. unfold Prim2SF in H at 1. rewrite E in H. discriminate. }
  rewrite Hn. simpl.
  assert (Hz : Prim2SF f = S754_zero (get_sign f)).
  { unfold Prim2SF. rewrite Hn. unfold is_zero. change zero with 0%float. now rewrite H. }
  unfold is_infinity. rewrite eqb_spec, abs_spec, Hz. reflexivity.
Qed.

(** X21. [formatJCSFloat64] fails exactly on NaN and the infinities, with
    one error; it writes "0" for a zero of either sign and never writes
    "-0". *)
Theorem formatJCSFloat64_writes_finite_numbers (f : float) :
  ((exists s, formatJCSFloat64 go f = Ok s) <-> nonFinite f = false)
  /\ (forall e, formatJCSFloat64 go f = Fail e ->
                nonFinite f = true
                /\ e = PlainError "invalid JSON number: NaN or Infinity")
  /\ formatJCSFloat64 go f <> OutOfFuel
  /\ ((f =? 0)%float = true -> formatJCSFloat64 go f = Ok "0")
  /\ (forall s, formatJCSFloat64 go f = Ok s -> s <> "-0").
Proof.
  split; [apply formatJCSFloat64_finite |].
  unfold formatJCSFloat64.
  split; [| split; [| split]].
  - destruct (nonFinite f); [intros e H; inversion H; auto |].
    destruct (f =? 0)%float; [discriminate |].
    match goal with |- context [String.eqb ?x "-0"] => destruct (String.eqb x "-0") end;
      discriminate.
  - destruct (nonFinite f); [discriminate |].
    destruct (f =? 0)%float; [discriminate |].
    match goal with |- context [String.eqb ?x "-0"] => destruct (String.eqb x "-0") end;
      discriminate.
  - intros H. rewrite (zero_is_finite H), H. reflexivity.
  - destruct (nonFinite f); [discriminate |].
    destruct (f =? 0)%float; [intros s H; inversion H; discriminate |].
    match goal with |- context [String.eqb ?x "-0"] => destruct (String.eqb_spec x "-0") end;
      intros s H; inversion H; subst; [discriminate | assumption].
Qed.

End NumberFormat.

Section MergedBounds.
Variable go : GoStdlib.
Local Open Scope go_scope.

Lemma bind_Ok (A B : Type) (c : M A) (k : A -> M B) s a s1 :
  c s = (Ok a, s1) -> bind c k s = k a s1.
Proof. intros H. unfold bind. now rewrite H. Qed.

Section Absent.
Variable merge : loc -> loc -> string -> M unit.
Variables acc branch : loc.
Variable path : string.
Variable s : state.

Lemma mergeType_absent :
  mget "type" (contents (heap s) branch) = None ->
  mergeType go acc branch path s = (Ok tt, s).
Proof. intros H. unfold mergeType, bind, mapGet. now rewrite H. Qed.

Lemma mergeProperties_absent :
  mget "properties" (contents (heap s) branch) = None ->
  mergeProperties merge acc branch path s = (Ok tt, s).
Proof. intros H. unfold mergeProperties, bind, mapGet. now rewrite H. Qed.

Lemma mergeRequired_absent :
  mget "required" (contents (heap s) branch) = None ->
  mergeRequired go acc branch path s = (Ok tt, s).
Proof. intros H. unfold mergeRequired, bind, mapGet. now rewrite H. Qed.

Lemma mergeAdditionalProperties_absent :
  mget "additionalProperties" (contents (heap s) branch) = None ->
  mergeAdditionalProperties merge acc branch path s = (Ok tt, s).
Proof. intros H. unfold mergeAdditionalProperties, bind, mapGet. now rewrite H. Qed.

Lemma mergeEnum_absent :
  mget "enum" (contents (heap s) branch) = None ->
  mergeEnum go acc branch path s = (Ok tt, s).
Proof. intros H. unfold mergeEnum, bind, mapGet. now rewrite H. Qed.

Lemma mergeConst_absent :
  mget "const" (contents (heap s) branch) = None ->
  mergeConst go acc branch path s = (Ok tt, s).
Proof. intros H. unfold mergeConst, bind, mapGet. now rewrite H. Qed.

Lemma mergeItems_absent :
  mget "items" (contents (heap s) branch) = None ->
  mergeItems merge acc branch path s = (Ok tt, s).
Proof. intros H. unfold mergeItems, bind, mapGet. now rewrite H. Qed.

Lemma mergeBound_absent wins k :
  mget k (contents (heap s) branch) = None ->
  mergeBound go acc branch wins k s = (Ok tt, s).
Proof. intros H. unfold mergeBound, bind, mapGet. now rewrite H. Qed.

End Absent.

(** The bound that the merge keeps at [k]: the branch's when the
    accumulator has none or when [wins] says so. *)
Lemma mergeBound_present acc branch wins k s bv :
  mget k (contents (heap s) branch) = Some bv ->
  mergeBound go acc branch wins k s
  = (Ok tt,
     match mget k (contents (heap s) acc) with
     | Some av =>
         if wins (toFloat64 go bv) (toFloat64 go av)
         then mkState (update (heap s) acc (mset k bv (contents (heap s) acc))) (refStack s)
         else s
     | None => mkState (update (heap s) acc (mset k bv (contents (heap s) acc))) (refStack s)
     end).
Proof.
  intros H. unfold mergeBound, bind, mapGet. rewrite H.
  destruct (mget k (contents (heap s) acc)) as [av |]; [| reflexivity].
  cbv zeta. destruct (wins _ _); reflexivity.
Qed.

Lemma mget_single (V : Type) k k' (v : V) : k' <> k -> mget k' [(k, v)] = None.
Proof. intros H. simpl. destruct (String.eqb_spec k' k); [contradiction | reflexivity]. Qed.

Lemma mergeBounds_absent acc branch wins ks s :
  (forall k, In k ks -> mget k (contents (heap s) branch) = None) ->
  mergeBounds go acc branch wins ks s = (Ok tt, s).
Proof.
  induction ks as [| k r IH]; intros H; [reflexivity |].
  cbn [mergeBounds]. rewrite bind_Ok with (a := tt) (s1 := s).
  - apply IH. intros k' Hk'. apply H. now right.
  - apply mergeBound_absent. apply H. now left.
Qed.

Lemma afterBound_branch wins acc branch k bv s :
  acc <> branch ->
  contents (heap (afterBound go wins acc k bv s)) branch = contents (heap s) branch.
Proof.
  intros Hne. unfold afterBound.
  destruct (mget k (contents (heap s) acc)) as [av |];
    [destruct (wins _ _) |]; cbn [heap]; try reflexivity;
      apply contents_update_other; congruence.
Qed.

Lemma mergeBounds_single acc branch wins ks k bv :
  acc <> branch -> NoDup ks -> In k ks ->
  forall s, contents (heap s) branch = [(k, bv)] ->
            mergeBounds go acc branch wins ks s = (Ok tt, afterBound go wins acc k bv s).
Proof.
  intros Hne Hnd. induction Hnd as [| k' r Hk' Hnd IH]; intros Hin s Hb; [contradiction |].
  cbn [mergeBounds]. destruct (String.eqb_spec k' k) as [-> | Hk].
  - rewrite bind_Ok with (a := tt) (s1 := afterBound go wins acc k bv s).
    + apply mergeBounds_absent. intros k0 Hk0.
      rewrite afterBound_branch by assumption. rewrite Hb. apply mget_single.
      intros ->. contradiction.
    + rewrite mergeBound_present with (bv := bv).
      * reflexivity.
      * rewrite Hb. simpl. now rewrite String.eqb_refl.
  - destruct Hin as [E | Hin]; [contradiction |].
    rewrite bind_Ok with (a := tt) (s1 := s).
    + now apply IH.
    + apply mergeBound_absent. rewrite Hb. now apply mget_single.
Qed.

Lemma merge_single_bound fuel acc branch path s k bv :
  acc <> branch -> contents (heap s) branch = [(k, bv)] ->
  (In k lowerBounds ->
   mergeAllOfBranch go (S fuel) acc branch path s
   = (Ok tt, afterBound go (fun bf af => (af <? bf)%float) acc k bv s))
  /\ (In k upperBounds ->
      mergeAllOfBranch go (S fuel) acc branch path s
      = (Ok tt, afterBound go (fun bf af => (bf <? af)%float) acc k bv s)).
Proof.
  intros Hne Hb.
  assert (Hsteps : forall upto : M unit,
             In k lowerBounds \/ In k upperBounds ->
             (mergeType go acc branch path ;;;
              mergeProperties (mergeAllOfBranch go fuel) acc branch path ;;;
              mergeRequired go acc branch path ;;;
              mergeAdditionalProperties (mergeAllOfBranch go fuel) acc branch path ;;;
              mergeEnum go acc branch path ;;;
              mergeConst go acc branch path ;;;
              mergeItems (mergeAllOfBranch go fuel) acc branch path ;;;
              upto) s = upto s).
  { intros upto Hk.
    assert (Hn : forall key,
               In key ["type"; "properties"; "required"; "additionalProperties";
                       "enum"; "const"; "items"] ->
               mget key (contents (heap s) branch) = None).
    { intros key Hkey. rewrite Hb. apply mget_single. intros ->.
      unfold lowerBounds, upperBounds in Hk. simpl in Hk, Hkey.
      intuition congruence. }
    rewrite bind_Ok with (a := tt) (s1 := s)
      by (apply mergeType_absent; apply Hn; simpl; tauto).
    rewrite bind_Ok with (a := tt) (s1 := s)
      by (apply mergeProperties_absent; apply Hn; simpl; tauto).
    rewrite bind_Ok with (a := tt) (s1 := s)
      by (apply mergeRequired_absent; apply Hn; simpl; tauto).
    rewrite bind_Ok with (a := tt) (s1 := s)
      by (apply mergeAdditionalProperties_absent; apply Hn; simpl; tauto).
    rewrite bind_Ok with (a := tt) (s1 := s)
      by (apply mergeEnum_absent; apply Hn; simpl; tauto).
    rewrite bind_Ok with (a := tt) (s1 := s)
      by (apply mergeConst_absent; apply Hn; simpl; tauto).
    rewrite bind_Ok with (a := tt) (s1 := s)
      by (apply mergeItems_absent; apply Hn; simpl; tauto).
    reflexivity. }
  assert (Hlow : NoDup lowerBounds).
  { unfold lowerBounds. repeat constructor; simpl; intuition discriminate. }
  assert (Hup : NoDup upperBounds).
  { unfold upperBounds. repeat constructor; simpl; intuition discriminate. }
  split; intros Hk; cbn [mergeAllOfBranch]; unfold mergeSteps; rewrite Hsteps by tauto.
  - rewrite bind_Ok with (a := tt) (s1 := afterBound go (fun bf af => (af <? bf)%float) acc k bv s)
      by (now apply mergeBounds_single).
    apply mergeBounds_absent. intros k0 Hk0.
    rewrite afterBound_branch by assumption. rewrite Hb. apply mget_single. intros ->.
    unfold lowerBounds in Hk. simpl in Hk, Hk0. intuition congruence.
  - rewrite bind_Ok with (a := tt) (s1 := s).
    + now apply mergeBounds_single.
    + apply mergeBounds_absent. intros k0 Hk0. rewrite Hb. apply mget_single. intros ->.
      unfold upperBounds in Hk. simpl in Hk, Hk0. intuition congruence.
Qed.

Lemma afterBound_kept wins acc k bv s :
  (acc < List.length (heap s))%nat ->
  let m := contents (heap s) acc in
  let m' := contents (heap (afterBound go wins acc k bv s)) acc in
  (forall a, a <> acc ->
             contents (heap (afterBound go wins acc k bv s)) a = contents (heap s) a)
  /\ (forall k', k' <> k -> mget k' m' = mget k' m)
  /\ match mget k m with
     | Some av => mget k m' = Some (if wins (toFloat64 go bv) (toFloat64 go av)
                                    then bv else av)
     | None => mget k m' = Some bv
     end.
Proof.
  intros Hacc. cbv zeta. unfold afterBound.
  destruct (mget k (contents (heap s) acc)) as [av |] eqn:E;
    [destruct (wins _ _) |]; cbn [heap].
  - split; [intros; now apply contents_update_other |].
    rewrite contents_update_same by assumption.
    split; [intros; now apply mget_mset_other | apply mget_mset_same].
  - split; [reflexivity |]. split; [reflexivity | exact E].
  - split; [intros; now apply contents_update_other |].
    rewrite contents_update_same by assumption.
    split; [intros; now apply mget_mset_other | apply mget_mset_same].
Qed.

(** X22. Merging an [allOf] branch that holds one bound keeps the stricter
    bound: the accumulator's other keys and every other map are as before,
    and at the bound's key the accumulator holds the branch's value or the
    value it had, whichever is stricter: for a lower bound ([minimum],
    [exclusiveMinimum], [minLength], [minItems]) a value that is below
    neither, for an upper bound ([maximum], [exclusiveMaximum],
    [maxLength], [maxItems]) a value that is above neither. *)
Theorem allOf_keeps_the_stricter_bound (fuel : nat) (acc branch : loc) (path : string)
    (s : state) (k : string) (bv : val)
    (Hacc : (acc < List.length (heap s))%nat)
    (Hne : acc <> branch)
    (Hb : contents (heap s) branch = [(k, bv)])
    (Hk : In k lowerBounds \/ In k upperBounds) :
  let m := contents (heap s) acc in
  let r := mergeAllOfBranch go (S fuel) acc branch path s in
  let m' := contents (heap (snd r)) acc in
  fst r = Ok tt
  /\ (forall a, a <> acc -> contents (heap (snd r)) a = contents (heap s) a)
  /\ (forall k', k' <> k -> mget k' m' = mget k' m)
  /\ exists kept,
       mget k m' = Some kept
       /\ (kept = bv \/ mget k m = Some kept)
       /\ (In k lowerBounds ->
           (toFloat64 go kept <? toFloat64 go bv)%float = false
           /\ forall av, mget k m = Some av ->
                         (toFloat64 go kept <? toFloat64 go av)%float = false)
       /\ (In k upperBounds ->
           (toFloat64 go bv <? toFloat64 go kept)%float = false
           /\ forall av, mget k m = Some av ->
                         (toFloat64 go av <? toFloat64 go kept)%float = false).
Proof.
  cbv zeta. destruct (@merge_single_bound fuel acc branch path s k bv Hne Hb) as [Hlo Hup].
  assert (Hdisj : In k lowerBounds -> In k upperBounds -> False).
  { unfold lowerBounds, upperBounds. simpl. intuition congruence. }
  destruct Hk as [Hk | Hk].
  - rewrite (Hlo Hk). cbn [fst snd].
    destruct (@afterBound_kept (fun bf af => (af <? bf)%float) acc k bv s Hacc)
      as [Hother [Hkeys Hkept]].
    split; [reflexivity |]. split; [exact Hother |]. split; [exact Hkeys |].
    destruct (mget k (contents (heap s) acc)) as [av |] eqn:E.
    + destruct (toFloat64 go av <? toFloat64 go bv)%float eqn:Ew.
      * exists bv. split; [exact Hkept |]. split; [now left |].
        split; [| intros Hu; now destruct (Hdisj Hk Hu)].
        intros _. split; [apply ltb_irrefl |].
        intros av' Hav. inversion Hav; subst. now apply ltb_asym.
      * exists av. split; [exact Hkept |]. split; [now right |].
        split; [| intros Hu; now destruct (Hdisj Hk Hu)].
        intros _. split; [exact Ew |].
        intros av' Hav. inversion Hav; subst. apply ltb_irrefl.
    + exists bv. split; [exact Hkept |]. split; [now left |].
      split; [| intros Hu; now destruct (Hdisj Hk Hu)].
      intros _. split; [apply ltb_irrefl | discriminate].
  - rewrite (Hup Hk). cbn [fst snd].
    destruct (@afterBound_kept (fun bf af => (bf <? af)%float) acc k bv s Hacc)
      as [Hother [Hkeys Hkept]].
    split; [reflexivity |]. split; [exact Hother |]. split; [exact Hkeys |].
    destruct (mget k (contents (heap s) acc)) as [av |] eqn:E.
    + destruct (toFloat64 go bv <? toFloat64 go av)%float eqn:Ew.
      * exists bv. split; [exact Hkept |]. split; [now left |].
        split; [intros Hl; now destruct (Hdisj Hl Hk) |].
        intros _. split; [apply ltb_irrefl |].
        intros av' Hav. inversion Hav; subst. now apply ltb_asym.
      * exists av. split; [exact Hkept |]. split; [now right |].
        split; [intros Hl; now destruct (Hdisj Hl Hk) |].
        intros _. split; [exact Ew |].
        intros av' Hav. inversion Hav; subst. apply ltb_irrefl.
    + exists bv. split; [exact Hkept |]. split; [now left |].
      split; [intros Hl; now destruct (Hdisj Hl Hk) |].
      intros _. split; [apply ltb_irrefl | discriminate].
Qed.

End MergedBounds.

(** The branch [{"minimum": 2}] merged into the accumulator
    [{"minimum": 1}]: the accumulator keeps 2. *)
Lemma allOf_keeps_the_stricter_bound_witness :
  let s := mkState [[("minimum", VFloat64 1)]; [("minimum", VFloat64 2)]] [] in
  fst (mergeAllOfBranch goTable 1 0 1 "" s) = Ok tt.
Proof.
  cbv zeta.
  exact (proj1 (@allOf_keeps_the_stricter_bound goTable 0 0 1 ""
                  (mkState [[("minimum", VFloat64 1)]; [("minimum", VFloat64 2)]] [])
                  "minimum" (VFloat64 2)
                  ltac:(simpl; lia) ltac:(discriminate) eq_refl
                  (or_introl (or_introl eq_refl)))).
Defined.

Section LeafSchemas.
Variable go : GoStdlib.
Local Open Scope go_scope.

Lemma mget_stripped_none k m :
  In k annotationKeywords \/ k = "$defs" -> mget k (stripped m) = None.
Proof.
  intros H. unfold stripped. induction m as [| [k' v] r IH]; [reflexivity |].
  cbn [filter fst].
  destruct (negb (sin k' annotationKeywords) && negb (String.eqb k' "$defs")) eqn:E;
    [| exact IH].
  cbn [mget]. destruct (String.eqb_spec k k') as [<- | _]; [| exact IH].
  exfalso. apply andb_true_iff in E. destruct E as [E1 E2].
  apply negb_true_iff in E1, E2. destruct H as [H | ->].
  - apply sin_In in H. congruence.
  - discriminate.
Qed.

Lemma keys_mset (V : Type) k (v : V) m k' :
  In k' (map fst (mset k v m)) -> k' = k \/ In k' (map fst m).
Proof.
  induction m as [| [k0 v0] r IH]; simpl.
  - intros [<- | []]. now left.
  - destruct (String.eqb_spec k k0) as [-> | _]; simpl.
    + intros [<- | H]; auto.
    + intros [<- | H]; auto. destruct (IH H); auto.
Qed.

Lemma keys_stripped m k : In k (map fst (stripped m)) -> In k (map fst m).
Proof.
  unfold stripped. rewrite !in_map_iff. intros [kv [E H]]. apply filter_In in H.
  exists kv. tauto.
Qed.

Lemma mset_same (V : Type) k (v : V) m : mget k m = Some v -> mset k v m = m.
Proof.
  induction m as [| [k0 v0] r IH]; simpl; [discriminate |].
  destruct (String.eqb_spec k k0) as [-> | _].
  - intros H. now inversion H.
  - intros H. now rewrite IH.
Qed.

Lemma stripped_id m :
  (forall k, In k (map fst m) -> sin k annotationKeywords = false /\ k <> "$defs") ->
  stripped m = m.
Proof.
  intros H. unfold stripped. apply forallb_filter_id. apply forallb_forall.
  intros [k v] Hin. cbn [fst].
  destruct (H k) as [H1 H2]; [apply in_map_iff; now exists (k, v) |].
  rewrite H1. destruct (String.eqb_spec k "$defs"); [contradiction | reflexivity].
Qed.

Lemma keys_of_stripped m k :
  In k (map fst (stripped m)) -> sin k annotationKeywords = false /\ k <> "$defs".
Proof.
  unfold stripped. rewrite in_map_iff. intros [[k' v] [E H]]. cbn [fst] in E. subst k'.
  apply filter_In in H. destruct H as [_ H]. cbn [fst] in H.
  apply andb_true_iff in H. destruct H as [H1 H2].
  apply negb_true_iff in H1, H2. split; [exact H1 |].
  intros ->. discriminate.
Qed.

Lemma bind_ret (A B : Type) (a : A) (k : A -> M B) s : bind (ret a) k s = k a s.
Proof. reflexivity. Qed.

(** The steps of [normalizeAt] after [type] and [required], on a schema
    without sub-schemas. *)
Lemma normalizeSteps_rest normalize path out s :
  (forall k, In k schemaKeywords -> mget k out = None) ->
  (out <~ normProperties go normalize path out ;;
   out <~ normAdditionalProperties normalize path out ;;
   out <~ normItems normalize path out ;;
   out <~ normUnion go normalize path "oneOf" out ;;
   out <~ normUnion go normalize path "anyOf" out ;;
   alloc out) s
  = alloc out s.
Proof.
  intros H. unfold normProperties, normAdditionalProperties, normItems, normUnion.
  repeat (rewrite H by (unfold schemaKeywords; simpl; tauto);
          rewrite bind_ret; cbv beta).
  reflexivity.
Qed.

Lemma leafOut_lookup types req m k :
  k <> "type" -> k <> "required" -> mget k (leafOut types req m) = mget k (stripped m).
Proof.
  intros H1 H2. unfold leafOut. destruct req as [r |], types as [t |];
    rewrite ?mget_mset_other by assumption; reflexivity.
Qed.

Lemma normalizeAt_leaf fuel n sl path s types req :
  let m := contents (heap s) sl in
  assertProfileKeywords m path = Ok tt ->
  leaf m ->
  normalizedBy normalizeType (mget "type" m) types ->
  normalizedBy normalizeStringSet (mget "required" m) req ->
  normalizeAt go (S fuel) n (Some sl) path s
  = (Ok (List.length (heap s)),
     mkState (heap s ++ [leafOut types req m])%list (refStack s)).
Proof.
  intros m Ha [Hr Hl] Ht Hq. unfold normalizedBy in Ht, Hq. cbn [normalizeAt].
  unfold bind at 1. unfold load at 1. fold m.
  unfold bind at 1. unfold lift at 1. rewrite Ha. rewrite Hr. cbv zeta.
  assert (Hs : forall k, In k schemaKeywords -> mget k (stripped m) = None).
  { intros k Hk. rewrite mget_stripped; [now apply Hl | |].
    - unfold schemaKeywords in Hk. simpl in Hk.
      destruct Hk as [<- | [<- | [<- | [<- | [<- | [<- | []]]]]]]; reflexivity.
    - unfold schemaKeywords in Hk. simpl in Hk. intuition congruence. }
  rewrite Hs by (unfold schemaKeywords; simpl; tauto).
  unfold normalizeSteps.
  assert (Hty : mget "type" (stripped m) = mget "type" m)
    by (apply mget_stripped; [reflexivity | discriminate]).
  assert (Hrq : mget "required" (stripped m) = mget "required" m)
    by (apply mget_stripped; [reflexivity | discriminate]).
  unfold bind at 1. unfold normType. rewrite Hty.
  assert (Hrest : forall out,
             (forall k, k <> "type" -> k <> "required" ->
                        mget k out = mget k (stripped m)) ->
             forall s0,
               (out <~ normProperties go (normalizeAt go fuel n) path out ;;
                out <~ normAdditionalProperties (normalizeAt go fuel n) path out ;;
                out <~ normItems (normalizeAt go fuel n) path out ;;
                out <~ normUnion go (normalizeAt go fuel n) path "oneOf" out ;;
                out <~ normUnion go (normalizeAt go fuel n) path "anyOf" out ;;
                alloc out) s0 = alloc out s0).
  { intros out Hout s0. apply normalizeSteps_rest. intros k Hk.
    rewrite Hout; [now apply Hs | |];
      unfold schemaKeywords in Hk; simpl in Hk; intuition congruence. }
  unfold leafOut.
  destruct (mget "type" m) as [t |].
  - destruct Ht as [l [Hn ->]]. unfold bind at 1. unfold lift at 1. rewrite Hn.
    cbn [wrap]. unfold ret at 1.
    unfold bind at 1. unfold normRequired.
    rewrite mget_mset_other by discriminate. rewrite Hrq.
    destruct (mget "required" m) as [r |].
    + destruct Hq as [lr [Hnr ->]]. unfold bind at 1. unfold lift at 1. rewrite Hnr.
      cbn [wrap]. unfold ret at 1. rewrite Hrest; [reflexivity |].
      intros k H1 H2. now rewrite !mget_mset_other by assumption.
    + subst req. unfold ret at 1. rewrite Hrest; [reflexivity |].
      intros k H1 H2. now rewrite !mget_mset_other by assumption.
  - subst types. unfold ret at 1.
    unfold bind at 1. unfold normRequired. rewrite Hrq.
    destruct (mget "required" m) as [r |].
    + destruct Hq as [lr [Hnr ->]]. unfold bind at 1. unfold lift at 1. rewrite Hnr.
      cbn [wrap]. unfold ret at 1. rewrite Hrest; [reflexivity |].
      intros k H1 H2. now rewrite !mget_mset_other by assumption.
    + subst req. unfold ret at 1. rewrite Hrest; [reflexivity |]. reflexivity.
Qed.

Lemma leafOut_type types req m :
  mget "type" (leafOut types req m)
  = match types with Some l => Some (VSlice l) | None => mget "type" (stripped m) end.
Proof.
  unfold leafOut. destruct req as [r |], types as [t |];
    rewrite ?mget_mset_other by discriminate; rewrite ?mget_mset_same; reflexivity.
Qed.

Lemma leafOut_required types req m :
  mget "required" (leafOut types req m)
  = match req with Some l => Some (VSlice l) | None => mget "required" (stripped m) end.
Proof.
  unfold leafOut. destruct req as [r |], types as [t |];
    rewrite ?mget_mset_same; rewrite ?mget_mset_other by discriminate; reflexivity.
Qed.

Lemma leafOut_keys types req m k :
  normalizedBy normalizeType (mget "type" m) types ->
  normalizedBy normalizeStringSet (mget "required" m) req ->
  In k (map fst (leafOut types req m)) -> In k (map fst (stripped m)).
Proof.
  intros Ht Hq. unfold normalizedBy in *.
  assert (Hin : forall key (v : val) m0, mget key m0 = Some v -> In key (map fst m0)).
  { intros key v m0 H. apply in_map_iff. exists (key, v).
    split; [reflexivity | now apply mget_some_In]. }
  assert (Hty : mget "type" (stripped m) = mget "type" m)
    by (apply mget_stripped; [reflexivity | discriminate]).
  assert (Hrq : mget "required" (stripped m) = mget "required" m)
    by (apply mget_stripped; [reflexivity | discriminate]).
  unfold leafOut.
  destruct (mget "type" m) as [t |] eqn:Et, (mget "required" m) as [r |] eqn:Er.
  - destruct Ht as [lt [_ ->]], Hq as [lr [_ ->]]. intros H.
    apply keys_mset in H. destruct H as [-> | H]; [now apply (Hin _ r) |].
    apply keys_mset in H. destruct H as [-> | H]; [now apply (Hin _ t) | exact H].
  - destruct Ht as [lt [_ ->]]. subst req. intros H.
    apply keys_mset in H. destruct H as [-> | H]; [now apply (Hin _ t) | exact H].
  - subst types. destruct Hq as [lr [_ ->]]. intros H.
    apply keys_mset in H. destruct H as [-> | H]; [now apply (Hin _ r) | exact H].
  - subst types req. auto.
Qed.

(** X23. On a schema without reference and without sub-schemas whose
    [type] and [required] are well formed, [Normalize] returns a new map
    and leaves every map of the store as it was.  The new map has no
    annotation keyword and no [$defs]; its [type] and [required] are the
    normalized slices; every other keyword has the value it had. *)
Theorem Normalize_of_a_leaf_schema (fuel : nat) (n : Normalizer) (sl : loc) (s : state)
    (types req : option (list val))
    (Hkeys : assertProfileKeywords (contents (heap s) sl) "" = Ok tt)
    (Hleaf : leaf (contents (heap s) sl))
    (Htype : normalizedBy normalizeType (mget "type" (contents (heap s) sl)) types)
    (Hreq : normalizedBy normalizeStringSet (mget "required" (contents (heap s) sl)) req) :
  let m := contents (heap s) sl in
  exists out,
    Normalize go (S fuel) n (Some sl) s
    = (Ok (List.length (heap s)), mkState (heap s ++ [out])%list [])
    /\ (forall k, In k annotationKeywords \/ k = "$defs" -> mget k out = None)
    /\ mget "type" out = option_map VSlice types
    /\ mget "required" out = option_map VSlice req
    /\ (forall k, ~ In k annotationKeywords -> k <> "$defs" ->
                  k <> "type" -> k <> "required" -> mget k out = mget k m).
Proof.
  cbv zeta. exists (leafOut types req (contents (heap s) sl)).
  split; [| split; [| split; [| split]]].
  - unfold Normalize, bind, resetStack.
    now rewrite (@normalizeAt_leaf fuel n sl "" (mkState (heap s) []) types req).
  - intros k Hk.
    destruct (in_dec string_dec k (map fst (leafOut types req (contents (heap s) sl))))
      as [Hin | Hout]; [| now apply mget_None].
    exfalso. apply leafOut_keys in Hin; [| exact Htype | exact Hreq].
    apply keys_of_stripped in Hin. destruct Hin as [H1 H2].
    destruct Hk as [Hk | ->]; [| contradiction].
    apply sin_In in Hk. congruence.
  - rewrite leafOut_type. unfold normalizedBy in Htype.
    destruct (mget "type" (contents (heap s) sl)) as [t |] eqn:E.
    + destruct Htype as [l [_ ->]]. reflexivity.
    + subst types. simpl. rewrite mget_stripped; [exact E | reflexivity | discriminate].
  - rewrite leafOut_required. unfold normalizedBy in Hreq.
    destruct (mget "required" (contents (heap s) sl)) as [t |] eqn:E.
    + destruct Hreq as [l [_ ->]]. reflexivity.
    + subst req. simpl. rewrite mget_stripped; [exact E | reflexivity | discriminate].
  - intros k Ha Hd Ht Hr. rewrite leafOut_lookup by assumption.
    apply mget_stripped; [| assumption].
    destruct (sin k annotationKeywords) eqn:E; [| reflexivity].
    apply sin_In in E. contradiction.
Qed.

(** X24. Normalizing twice is normalizing once, on a schema without
    reference and without sub-schemas: [Normalize] accepts the schema it
    returned and returns a map with the same keys and values, in the same
    order. *)
Theorem Normalize_twice_on_a_leaf_schema (fuel fuel' : nat) (n : Normalizer) (sl : loc)
    (s : state) (types req : option (list val))
    (Hkeys : assertProfileKeywords (contents (heap s) sl) "" = Ok tt)
    (Hleaf : leaf (contents (heap s) sl))
    (Htype : normalizedBy normalizeType (mget "type" (contents (heap s) sl)) types)
    (Hreq : normalizedBy normalizeStringSet (mget "required" (contents (heap s) sl)) req) :
  let once := Normalize go (S fuel) n (Some sl) s in
  exists l out,
    fst once = Ok l
    /\ contents (heap (snd once)) l = out
    /\ let twice := Normalize go (S fuel') n (Some l) (snd once) in
       exists l', fst twice = Ok l' /\ contents (heap (snd twice)) l' = out.
Proof.
  cbv zeta. set (m := contents (heap s) sl) in *.
  set (out := leafOut types req m).
  assert (E1 : Normalize go (S fuel) n (Some sl) s
               = (Ok (List.length (heap s)), mkState (heap s ++ [out])%list [])).
  { unfold Normalize, bind, resetStack.
    now rewrite (@normalizeAt_leaf fuel n sl "" (mkState (heap s) []) types req). }
  rewrite E1. cbn [fst snd heap]. exists (List.length (heap s)), out.
  split; [reflexivity |]. split; [apply contents_new |].
  assert (Hk : forall k, In k (map fst out) -> In k (map fst (stripped m)))
    by (intros k; now apply leafOut_keys).
  assert (Hty : mget "type" out = option_map VSlice types).
  { unfold out. rewrite leafOut_type. unfold normalizedBy in Htype.
    destruct (mget "type" m) as [t |] eqn:E.
    - destruct Htype as [l [_ ->]]. reflexivity.
    - subst types. simpl. rewrite mget_stripped; [exact E | reflexivity | discriminate]. }
  assert (Hrq : mget "required" out = option_map VSlice req).
  { unfold out. rewrite leafOut_required. unfold normalizedBy in Hreq.
    destruct (mget "required" m) as [t |] eqn:E.
    - destruct Hreq as [l [_ ->]]. reflexivity.
    - subst req. simpl. rewrite mget_stripped; [exact E | reflexivity | discriminate]. }
  assert (Hst : stripped out = out).
  { apply stripped_id. intros k Hin. apply (@keys_of_stripped m). now apply Hk. }
  assert (Hout : leafOut types req out = out).
  { unfold leafOut. rewrite Hst.
    assert (H1 : match types with
                 | Some l => mset "type" (VSlice l) out
                 | None => out
                 end = out).
    { destruct types as [l |]; [| reflexivity]. now apply mset_same. }
    rewrite H1. destruct req as [l |]; [| reflexivity]. now apply mset_same. }
  assert (E2 : Normalize go (S fuel') n (@Some loc (List.length (heap s)))
                 (mkState (heap s ++ [out])%list [])
               = (Ok (List.length (heap s ++ [out])%list),
                  mkState ((heap s ++ [out]) ++ [out])%list [])).
  { unfold Normalize, bind, resetStack. cbn [heap].
    pose proof (@normalizeAt_leaf fuel' n (List.length (heap s)) ""
                  (mkState (heap s ++ [out])%list []) types req) as Hx.
    cbv zeta in Hx. cbn [heap refStack] in Hx. rewrite contents_new in Hx.
    rewrite Hout in Hx. apply Hx.
    - destruct (assertProfileKeywords_spec m "") as [Hm _].
      destruct (assertProfileKeywords_spec out "") as [Ho _].
      apply Ho. intros k Hin. apply (proj1 Hm Hkeys).
      apply keys_stripped. now apply Hk.
    - destruct Hleaf as [Hr Hl]. split.
      + unfold refOf in *. unfold out. rewrite leafOut_lookup by discriminate.
        rewrite mget_stripped by (reflexivity || discriminate). exact Hr.
      + intros k Hin. unfold out. 
        assert (k <> "type" /\ k <> "required" /\ k <> "$defs"
                /\ sin k annotationKeywords = false) as [H1 [H2 [H3 H4]]].
        { unfold schemaKeywords in Hin. simpl in Hin.
          destruct Hin as [<- | [<- | [<- | [<- | [<- | [<- | []]]]]]];
            repeat split; try discriminate. }
        rewrite leafOut_lookup by assumption. rewrite mget_stripped by assumption.
        now apply Hl.
    - rewrite Hty. unfold normalizedBy in *.
      destruct (mget "type" m) as [t |].
      + destruct Htype as [l [Hn ->]]. simpl. exists l.
        split; [now apply (@normalizeType_again t) | reflexivity].
      + subst types. reflexivity.
    - rewrite Hrq. unfold normalizedBy in *.
      destruct (mget "required" m) as [t |].
      + destruct Hreq as [l [Hn ->]]. simpl. exists l.
        split; [now apply (@normalizeStringSet_again t) | reflexivity].
      + subst req. reflexivity. }
  rewrite E2. cbn [fst snd heap]. eexists. split; [reflexivity | apply contents_new].
Qed.

End LeafSchemas.

(** The schema [{"title": "t", "type": ["string", "null", "string"],
    "minLength": 1}], with the library [goTable]. *)
Lemma Normalize_of_a_leaf_schema_witness :
  let s := mkState [[("title", VString "t");
                     ("type", VSlice [VString "string"; VString "null"; VString "string"]);
                     ("minLength", VFloat64 1)]] [] in
  exists out,
    Normalize goTable 1 (plainNormalizer VNil) (Some 0) s
    = (Ok 1, mkState (heap s ++ [out])%list [])
    /\ mget "title" out = None
    /\ mget "type" out = Some (VSlice [VString "null"; VString "string"]).
Proof.
  cbv zeta.
  destruct (@Normalize_of_a_leaf_schema goTable 0 (plainNormalizer VNil) 0
              (mkState [[("title", VString "t");
                         ("type", VSlice [VString "string"; VString "null";
                                          VString "string"]);
                         ("minLength", VFloat64 1)]] [])
              (Some [VString "null"; VString "string"]) None)
    as [out [E [Ha [Ht _]]]].
  - reflexivity.
  - split; [reflexivity |]. intros k Hk. unfold schemaKeywords in Hk. simpl in Hk.
    destruct Hk as [<- | [<- | [<- | [<- | [<- | [<- | []]]]]]]; reflexivity.
  - simpl. eexists. split; reflexivity.
  - reflexivity.
  - exists out. split; [exact E |]. split; [apply Ha; left; simpl; tauto | exact Ht].
Defined.

(** The same schema, normalized twice. *)
Lemma Normalize_twice_on_a_leaf_schema_witness :
  let s := mkState [[("title", VString "t");
                     ("type", VSlice [VString "string"; VString "null"; VString "string"]);
                     ("minLength", VFloat64 1)]] [] in
  let once := Normalize goTable 1 (plainNormalizer VNil) (Some 0) s in
  exists l out,
    fst once = Ok l
    /\ contents (heap (snd once)) l = out
    /\ exists l', fst (Normalize goTable 1 (plainNormalizer VNil) (Some l) (snd once)) = Ok l'
                  /\ contents (heap (snd (Normalize goTable 1 (plainNormalizer VNil)
                                           (Some l) (snd once)))) l' = out.
Proof.
  cbv zeta.
  apply (@Normalize_twice_on_a_leaf_schema goTable 0 0 (plainNormalizer VNil) 0
           (mkState [[("title", VString "t");
                      ("type", VSlice [VString "string"; VString "null";
                                       VString "string"]);
                      ("minLength", VFloat64 1)]] [])
           (Some [VString "null"; VString "string"]) None).
  - reflexivity.
  - split; [reflexivity |]. intros k Hk. unfold schemaKeywords in Hk. simpl in Hk.
    destruct Hk as [<- | [<- | [<- | [<- | [<- | [<- | []]]]]]]; reflexivity.
  - simpl. eexists. split; reflexivity.
  - reflexivity.
Defined.

Section Unions.
Variable rec : gomap -> gomap -> bool -> res bool.
Variable h : list gomap.

Lemma found_true test ws :
  found test ws = Ok true -> exists w, In w ws /\ test w = Ok true.
Proof.
  induction ws as [| w r IH]; simpl; [discriminate |].
  destruct (test w) as [[|] | |] eqn:E; try discriminate.
  - intros _. exists w. auto.
  - intros H. destruct (IH H) as [w' [Hin Hw]]. exists w'. auto.
Qed.

Lemma found_some test ws :
  (forall w, In w ws -> exists b, test w = Ok b) ->
  (exists w, In w ws /\ test w = Ok true) -> found test ws = Ok true.
Proof.
  induction ws as [| w r IH]; intros Ht [w' [Hin Hw]]; [contradiction |].
  simpl. destruct (Ht w (or_introl eq_refl)) as [[|] E]; rewrite E; [reflexivity |].
  apply IH; [intros; apply Ht; now right |].
  destruct Hin as [<- | Hin]; [congruence | eauto].
Qed.

Lemma found_decides test ws :
  (forall w, In w ws -> exists b, test w = Ok b) -> exists b, found test ws = Ok b.
Proof.
  induction ws as [| w r IH]; intros Ht; simpl; [now eexists |].
  destruct (Ht w (or_introl eq_refl)) as [[|] E]; rewrite E; [now eexists |].
  apply IH. intros; apply Ht; now right.
Qed.

Lemma all_found (test : gomap -> gomap -> res bool) (vs : list gomap * list gomap) :
  loop (fun v => match found (test v) (snd vs) with
                 | Ok true => None
                 | other => Some other
                 end) (fst vs) (Ok true) = Ok true ->
  forall v, In v (fst vs) -> exists w, In w (snd vs) /\ test v w = Ok true.
Proof.
  destruct vs as [tv cv]. cbn [fst snd]. induction tv as [| v r IH]; [intros _ v [] |].
  simpl. destruct (found (test v) cv) as [[|] | |] eqn:E; try discriminate.
  intros H v' [<- | Hin]; [now apply found_true | now apply IH].
Qed.

Lemma found_all (test : gomap -> gomap -> res bool) (vs : list gomap * list gomap) :
  (forall v w, In v (fst vs) -> In w (snd vs) -> exists b, test v w = Ok b) ->
  (forall v, In v (fst vs) -> exists w, In w (snd vs) /\ test v w = Ok true) ->
  loop (fun v => match found (test v) (snd vs) with
                 | Ok true => None
                 | other => Some other
                 end) (fst vs) (Ok true) = Ok true.
Proof.
  destruct vs as [tv cv]. cbn [fst snd]. induction tv as [| v r IH]; intros Ht Hall;
    [reflexivity |].
  simpl. rewrite found_some.
  - apply IH; [intros; apply Ht; auto; now right | intros; apply Hall; now right].
  - intros w Hw. apply Ht; [now left | assumption].
  - apply Hall. now left.
Qed.

Lemma loop_decides (test : gomap -> gomap -> res bool) (vs : list gomap * list gomap) :
  (forall v w, In v (fst vs) -> In w (snd vs) -> exists b, test v w = Ok b) ->
  exists b, loop (fun v => match found (test v) (snd vs) with
                           | Ok true => None
                           | other => Some other
                           end) (fst vs) (Ok true) = Ok b.
Proof.
  destruct vs as [tv cv]. cbn [fst snd]. induction tv as [| v r IH]; intros Ht;
    [now eexists |].
  simpl. destruct (@found_decides (test v) cv) as [[|] E].
  - intros w Hw. apply Ht; [now left | assumption].
  - rewrite E. apply IH. intros; apply Ht; auto. now right.
  - rewrite E. now eexists.
Qed.

(** X25. The rule for unions.  When both schemas have variants, an input
    is compatible exactly when every variant of the target is compatible
    with some variant of the candidate, and an output exactly when every
    variant of the candidate is compatible with some variant of the
    target; otherwise the answer is false.  When one of the two has no
    variants that are all objects, the answer is false.  (The comparisons
    of the variants are taken to return an answer: [compat] never fails,
    and returns nothing only for want of fuel.) *)
Theorem compatUnion_matches_variants (tgt cand : gomap) (isInput : bool)
    (tv cv : list gomap)
    (Ht : unionVariants h tgt = Some tv)
    (Hc : unionVariants h cand = Some cv)
    (Hrec : forall v w, In v tv -> In w cv -> exists b, rec v w isInput = Ok b) :
  (exists b, compatUnion rec h tgt cand isInput = Ok b)
  /\ (isInput = true ->
      (compatUnion rec h tgt cand isInput = Ok true <->
       forall v, In v tv -> exists w, In w cv /\ rec v w true = Ok true))
  /\ (isInput = false ->
      (compatUnion rec h tgt cand isInput = Ok true <->
       forall w, In w cv -> exists v, In v tv /\ rec v w false = Ok true))
  /\ (forall other, unionVariants h other = None ->
                    compatUnion rec h other cand isInput = Ok false
                    /\ compatUnion rec h tgt other isInput = Ok false).
Proof.
  unfold compatUnion. rewrite Ht, Hc.
  split; [| split; [| split]].
  - destruct isInput.
    + apply (@loop_decides (fun v w => rec v w true) (tv, cv)). exact Hrec.
    + apply (@loop_decides (fun w v => rec v w false) (cv, tv)).
      cbn [fst snd]. intros w v Hw Hv. now apply Hrec.
  - intros ->. split.
    + apply (@all_found (fun v w => rec v w true) (tv, cv)).
    + apply (@found_all (fun v w => rec v w true) (tv, cv)). exact Hrec.
  - intros ->. split.
    + apply (@all_found (fun w v => rec v w false) (cv, tv)).
    + apply (@found_all (fun w v => rec v w false) (cv, tv)).
      cbn [fst snd]. intros w v Hw Hv. now apply Hrec.
  - intros other Ho. rewrite Ho. split; [reflexivity |].
    destruct (unionVariants h tgt); reflexivity.
Qed.

End Unions.

(** A target with the variants [{}] and [{"type": ["string"]}] against
    a candidate with the variant [{}], every pair of variants taken to be
    compatible. *)
Lemma compatUnion_matches_variants_witness :
  let h := [[]; [("type", VSlice [VString "string"])]] in
  let rec := fun (_ _ : gomap) (_ : bool) => Ok true in
  compatUnion rec h [("oneOf", VSlice [VMap 0; VMap 1])] [("anyOf", VSlice [VMap 0])] true
  = Ok true.
Proof.
  cbv zeta.
  apply (proj2 (proj1 (proj2 (@compatUnion_matches_variants
                                (fun _ _ _ => Ok true)
                                [[]; [("type", VSlice [VString "string"])]]
                                [("oneOf", VSlice [VMap 0; VMap 1])]
                                [("anyOf", VSlice [VMap 0])] true
                                [[]; [("type", VSlice [VString "string"])]] [[]]
                                eq_refl eq_refl
                                (fun v w _ _ => ex_intro _ true eq_refl)))
                      eq_refl)).
  intros v _. exists []. split; [now left | reflexivity].
Defined.

Section EnumIntersection.
Variable go : GoStdlib.
Variable h : list gomap.

Lemma keys_collected (b : list val) (init : strset) (k : string) :
  In k (fold_left (fun set v => sadd (canonicalKey go h v) set) b init) <->
  In k init \/ exists w, In w b /\ k = canonicalKey go h w.
Proof.
  revert init. induction b as [| w r IH]; intros init; simpl.
  - split; [auto | intros [H | [w [[] _]]]; exact H].
  - rewrite IH, In_sadd. split.
    + intros [[-> | H] | [w' [Hin Hk]]]; eauto.
    + intros [H | [w' [[<- | Hin] Hk]]]; eauto.
Qed.

Lemma sin_collected (a b : list val) (v : val) :
  sin (canonicalKey go h v)
      (fold_left (fun set v => sadd (canonicalKey go h v) set) b [])
  = existsb (equalJSONValue go h v) b.
Proof.
  apply eq_true_iff_eq. rewrite sin_In, keys_collected, existsb_exists.
  unfold equalJSONValue. split.
  - intros [[] | [w [Hin Hk]]]. exists w. split; [exact Hin |].
    now apply String.eqb_eq.
  - intros [w [Hin Hk]]. right. exists w. split; [exact Hin |].
    now apply String.eqb_eq.
Qed.

(** X26. The intersection of two enums: the values of the first that have
    the canonical form of some value of the second, in the order of the
    first and as often as they occur there.  So a value is in the
    intersection exactly when it is in the first and equal, by canonical
    form, to one of the second; an enum intersected with itself is
    unchanged; and values that cannot be serialized all count as equal. *)
Theorem intersectValues_keeps_equal_values (a b : list val) :
  intersectValues go h a b = filter (fun v => existsb (equalJSONValue go h v) b) a
  /\ (forall v, In v (intersectValues go h a b) <->
                In v a /\ exists w, In w b /\ canonicalKey go h v = canonicalKey go h w)
  /\ intersectValues go h a a = a
  /\ (forall v w e e', In v a -> In w b ->
        CanonicalString go h v = Fail e -> CanonicalString go h w = Fail e' ->
        In v (intersectValues go h a b)).
Proof.
  assert (E : forall a b, intersectValues go h a b
                          = filter (fun v => existsb (equalJSONValue go h v) b) a).
  { intros a' b'. unfold intersectValues. apply filter_ext.
    intros v. now apply sin_collected. }
  assert (I : forall v, In v (intersectValues go h a b) <->
                In v a /\ exists w, In w b /\ canonicalKey go h v = canonicalKey go h w).
  { intros v. rewrite E, filter_In, existsb_exists. unfold equalJSONValue.
    split; intros [Ha [w [Hin Hk]]]; (split; [exact Ha |]); exists w;
      (split; [exact Hin |]); now apply String.eqb_eq. }
  split; [apply E | split; [exact I | split]].
  - rewrite E. apply forallb_filter_id. apply forallb_forall. intros v Hin.
    apply existsb_exists. exists v. split; [exact Hin |].
    unfold equalJSONValue. apply String.eqb_refl.
  - intros v w e e' Ha Hb Hv Hw. apply I. split; [exact Ha |].
    exists w. split; [exact Hb |]. unfold canonicalKey. now rewrite Hv, Hw.
Qed.

End EnumIntersection.

Section UnionsInsideAllOf.
Variable go : GoStdlib.
Local Open Scope go_scope.

Lemma contents_in_heap h l : contents h l <> [] -> (l < List.length h)%nat.
Proof.
  intros H. destruct (Nat.lt_ge_cases l (List.length h)) as [Hl | Hl]; [exact Hl |].
  exfalso. apply H. unfold contents. now apply nth_overflow.
Qed.

Lemma pathOrRoot_branch path c r : pathOrRoot (ptrJoin path (String c r)) = ptrJoin path (String c r).
Proof.
  destruct (ptrJoin_nonempty path c r) as [c' [r' ->]]. reflexivity.
Qed.

Lemma flattenAllOf_first fuel n path s branch rest :
  flattenAllOf go fuel n (VSlice (VMap branch :: rest)) path s
  = (merged <~ flattenBranch go fuel n path (List.length (heap s)) 0 (VMap branch) ;;
     foldRange (flattenBranch go fuel n path) 1 rest merged)
      (mkState (heap s ++ [[]])%list (refStack s)).
Proof. reflexivity. Qed.

(** X27. A union inside [allOf] is refused.  When the first branch of an
    [allOf] holds [oneOf] or [anyOf], [flattenAllOf] fails with an
    [OutsideProfileError] at that branch, whatever the other branches are
    and before any [$ref] of the branch is resolved: the error names the
    union ([oneOf] first) when every keyword of the branch is known, and
    the unknown keyword otherwise. *)
Theorem union_inside_allOf_is_refused (fuel : nat) (n : Normalizer) (path : string)
    (s : state) (branch : loc) (rest : list val)
    (Hu : hasKey (contents (heap s) branch) "oneOf"
          || hasKey (contents (heap s) branch) "anyOf" = true) :
  let b := contents (heap s) branch in
  let at0 := ptrJoin path "allOf[0]" in
  let r := fst (flattenAllOf go fuel n (VSlice (VMap branch :: rest)) path s) in
  (exists kw, r = Fail (OutsideProfileError at0 kw))
  /\ (assertProfileKeywords b at0 = Ok tt ->
      r = Fail (OutsideProfileError at0 (if hasKey b "oneOf" then "oneOf inside allOf"
                                         else "anyOf inside allOf")))
  /\ (forall e, assertProfileKeywords b at0 = Fail e -> r = Fail e).
Proof.
  cbv zeta.
  assert (Hl : (branch < List.length (heap s))%nat).
  { apply contents_in_heap. intros E. rewrite E in Hu. discriminate. }
  assert (Hr : fst (flattenAllOf go fuel n (VSlice (VMap branch :: rest)) path s)
               = match assertProfileKeywords (contents (heap s) branch)
                         (ptrJoin path "allOf[0]") with
                 | Ok _ => Fail (OutsideProfileError (ptrJoin path "allOf[0]")
                                   (if hasKey (contents (heap s) branch) "oneOf"
                                    then "oneOf inside allOf" else "anyOf inside allOf"))
                 | Fail e => Fail e
                 | OutOfFuel => OutOfFuel
                 end).
  { rewrite flattenAllOf_first.
    unfold bind at 1. unfold flattenBranch at 1. cbn [asMap].
    unfold bind at 1. unfold load at 1. cbn [heap].
    rewrite contents_old by exact Hl.
    change (index "allOf" 0) with "allOf[0]".
    unfold bind at 1. unfold lift at 1.
    destruct (assertProfileKeywords (contents (heap s) branch) (ptrJoin path "allOf[0]"))
      as [[] | e |]; [| reflexivity | reflexivity].
    destruct (hasKey (contents (heap s) branch) "oneOf") eqn:E1; [reflexivity |].
    cbn [orb] in Hu. rewrite Hu. reflexivity. }
  rewrite Hr.
  destruct (assertProfileKeywords_spec (contents (heap s) branch)
              (ptrJoin path "allOf[0]")) as [_ [Hf Ho]].
  destruct (assertProfileKeywords (contents (heap s) branch) (ptrJoin path "allOf[0]"))
    as [[] | e |]; [| | congruence].
  - split; [now eexists | split; [intros _; reflexivity | discriminate]].
  - destruct (Hf e eq_refl) as [k [-> _]].
    rewrite pathOrRoot_branch.
    split; [now eexists | split; [discriminate |]].
    intros e' He'. congruence.
Qed.

End UnionsInsideAllOf.

(** The branches [{"oneOf": []}] and [{}], with the library [goTable]. *)
Lemma union_inside_allOf_is_refused_witness :
  fst (flattenAllOf goTable 1 (plainNormalizer VNil) (VSlice [VMap 0; VMap 1]) ""
         (mkState [[("oneOf", VSlice [])]; []] []))
  = Fail (OutsideProfileError "allOf[0]" "oneOf inside allOf").
Proof.
  apply (proj1 (proj2 (@union_inside_allOf_is_refused goTable 1 (plainNormalizer VNil) ""
                         (mkState [[("oneOf", VSlice [])]; []] []) 0 [VMap 1] eq_refl))).
  reflexivity.
Defined.

Section Objects.
Variable rec : gomap -> gomap -> bool -> res bool.
Variable h : list gomap.

Lemma loop_true (A : Type) (body : A -> option (res bool)) (l : list A) (after : res bool) :
  (forall x, In x l -> body x <> Some (Ok true)) ->
  (loop body l after = Ok true <-> (forall x, In x l -> body x = None) /\ after = Ok true).
Proof.
  induction l as [| x r IH]; intros Hb; simpl.
  - split; [intros H; split; [intros x [] | exact H] | intros [_ H]; exact H].
  - destruct (body x) as [result |] eqn:E.
    + split.
      * intros ->. exfalso. apply (Hb x); [now left | exact E].
      * intros [H _]. specialize (H x (or_introl eq_refl)). congruence.
    + rewrite IH by (intros; apply Hb; now right). split.
      * intros [H Ha]. split; [| exact Ha]. intros y [<- | Hy]; [exact E | now apply H].
      * intros [H Ha]. split; [| exact Ha]. intros y Hy. apply H. now right.
Qed.

Lemma stopUnlessTrue_spec (r : res bool) :
  stopUnlessTrue r <> Some (Ok true) /\ (stopUnlessTrue r = None <-> r = Ok true).
Proof.
  destruct r as [[|] | |]; simpl; split; try split; congruence.
Qed.

Lemma subset_spec (a b : strset) :
  forallb (fun k => sin k b) a = true <-> (forall k, In k a -> In k b).
Proof.
  rewrite forallb_forall. split; intros H k Hk; apply sin_In; auto.
Qed.

(** X28. What [compatObject] checks.  For inputs: every key the candidate
    requires is required by the target, and every property that both
    declare with an object schema is input-compatible.  For outputs: every
    key the target requires is required by the candidate; a property of the
    candidate that the target does not declare is refused when the target's
    [additionalProperties] is [false]; a property that both declare with an
    object schema is output-compatible; and the target's
    [additionalProperties], when it is [false], is [false] in the candidate
    too and, when it is a schema, is either [false] in the candidate or a
    compatible schema there.  The answer does not depend on the order in
    which the properties are visited. *)
Theorem compatObject_checks (tgt cand : gomap) :
  let tgtReq := stringSet (mget "required" tgt) in
  let candReq := stringSet (mget "required" cand) in
  let tgtProps := subMap h tgt "properties" in
  let candProps := subMap h cand "properties" in
  let tgtAP := mget "additionalProperties" tgt in
  let candAP := mget "additionalProperties" cand in
  (compatObject rec h tgt cand true = Ok true <->
   (forall k, In k candReq -> In k tgtReq)
   /\ (forall p tvm cvm, In (p, VMap tvm) tgtProps ->
                         mget p candProps = Some (VMap cvm) ->
                         rec (contents h tvm) (contents h cvm) true = Ok true))
  /\ (compatObject rec h tgt cand false = Ok true <->
      (forall k, In k tgtReq -> In k candReq)
      /\ (forall p cv, In (p, cv) candProps -> mget p tgtProps = None ->
                       tgtAP <> Some (VBool false))
      /\ (forall p tvm cvm, In (p, VMap cvm) candProps ->
                            mget p tgtProps = Some (VMap tvm) ->
                            rec (contents h tvm) (contents h cvm) false = Ok true)
      /\ (tgtAP = Some (VBool false) -> candAP = Some (VBool false))
      /\ (forall apTgt, tgtAP = Some (VMap apTgt) ->
            candAP = Some (VBool false)
            \/ exists apCand, candAP = Some (VMap apCand)
                 /\ rec (contents h apTgt) (contents h apCand) false = Ok true)).
Proof.
  cbv zeta. unfold compatObject. split.
  - destruct (forallb _ (stringSet (mget "required" cand))) eqn:E; cbn [negb].
    + pose proof (proj1 (@subset_spec _ _) E) as Es. rewrite loop_true.
      * split.
        -- intros [H _]. split; [exact Es |]. intros p tvm cvm Hin Hc.
           specialize (H _ Hin). cbn [fst snd asMap] in H. rewrite Hc in H.
           cbn [asMap] in H. now apply stopUnlessTrue_spec.
        -- intros [_ H]. split; [| reflexivity]. intros [p tv] Hin. cbn [fst snd].
           destruct tv; cbn [asMap]; try reflexivity.
           destruct (mget p (subMap h cand "properties")) as [cv |] eqn:Ec;
             [| reflexivity].
           destruct cv; cbn [asMap]; try reflexivity.
           apply stopUnlessTrue_spec. eapply H; eauto.
      * intros [p tv] _. cbn [fst snd]. destruct (asMap tv); [| discriminate].
        destruct (mget p _) as [cv |]; [| discriminate].
        destruct (asMap cv); [| discriminate]. apply stopUnlessTrue_spec.
    + split; [discriminate |]. intros [H _]. pose proof (proj2 (@subset_spec _ _) H). congruence.
  - destruct (forallb _ (stringSet (mget "required" tgt))) eqn:E; cbn [negb].
    + pose proof (proj1 (@subset_spec _ _) E) as Es. rewrite loop_true.
      * split.
        -- intros [H Ha]. split; [exact Es |]. split; [| split; [| split]].
           ++ intros p cv Hin Hn Hap. specialize (H _ Hin). cbn [fst snd] in H.
              rewrite Hn, Hap in H. discriminate.
           ++ intros p tvm cvm Hin Ht. specialize (H _ Hin). cbn [fst snd] in H.
              rewrite Ht in H. cbn [asMap] in H. now apply stopUnlessTrue_spec.
           ++ intros Hap. rewrite Hap in Ha.
              destruct (mget "additionalProperties" cand) as [[] |]; try discriminate.
              destruct b; [discriminate | reflexivity].
           ++ intros apTgt Hap. rewrite Hap in Ha.
              destruct (mget "additionalProperties" cand) as [[] |]; try discriminate.
              ** destruct b; [discriminate | now left].
              ** right. eexists. split; [reflexivity |].
                 destruct (rec _ _ false) as [[|] | |]; try discriminate. reflexivity.
        -- intros [_ [H1 [H2 [H3 H4]]]]. split.
           ++ intros [p cv] Hin. cbn [fst snd].
              destruct (mget p (subMap h tgt "properties")) as [tv |] eqn:Et.
              ** destruct tv; cbn [asMap]; try reflexivity.
                 destruct cv; cbn [asMap]; try reflexivity.
                 apply stopUnlessTrue_spec. eapply H2; eauto.
              ** specialize (H1 _ _ Hin Et).
                 destruct (mget "additionalProperties" tgt) as [[] |]; try reflexivity.
                 destruct b; [reflexivity | congruence].
           ++ destruct (mget "additionalProperties" tgt) as [[] |] eqn:Et; try reflexivity.
              ** destruct b; [reflexivity |]. now rewrite (H3 eq_refl).
              ** destruct (H4 _ eq_refl) as [-> | [apCand [-> Hr]]]; [reflexivity |].
                 now rewrite Hr.
      * intros [p cv] _. cbn [fst snd].
        destruct (mget p _) as [tv |].
        -- destruct (asMap tv); [| discriminate].
           destruct (asMap cv); [| discriminate]. apply stopUnlessTrue_spec.
        -- destruct (mget "additionalProperties" tgt) as [[] |]; try discriminate.
           destruct b; discriminate.
    + split; [discriminate |]. intros [H _]. pose proof (proj2 (@subset_spec _ _) H). congruence.
Qed.

End Objects.
